(** * racon polisher: a shallow embedding of [polisher.cpp]

    The development follows [src/src/polisher.cpp] (the current polisher),
    [src/src/window.hpp] (the window interface) and the older variant of
    [polisher.cpp] kept next to it.  Part I transcribes the code, Part II
    states and proves its properties, Part III runs them on concrete
    inputs, Part IV is about the construction of the polisher and Part V
    runs the further properties on concrete inputs.

    Conventions.
    - [uint32_t] and [uint64_t] values are integers in [Z]; every operation
      that can leave the range is wrapped with [wrap32] or [wrap64].
      Positions inside a vector or a string that the code guards with a
      comparison against [size()] are natural numbers.
    - A [double] is the rational ([Q]) it denotes, and the conversion of a
      [double] to an unsigned integer is [trunc] (truncation toward zero).
      Where the code converts a product or a difference of [double]s to
      an integer (the offset of the windows, the lengths and positions of
      the overlap mode), the result of each operation is rounded to the
      nearest [double] first ([round_double]).  Where a [double] is only
      compared or printed (the length and quality filters, the window
      type, the polished ratio), it is kept as the exact rational.
    - [std::unique_ptr<T>] is [option T], [nullptr] being [None].
    - [exit(1)] after a message on [stderr] is the outcome [Exit 1 msg].
    - [Logger] is declared in a header that is not among the sources: the
      calls made on [logger_] are recorded, not interpreted.
    - Accesses the C++ standard leaves undefined (an index past the end of
      a vector) read a default value; each such place is marked. *)

From Stdlib Require Import ZArith QArith Qround Qpower Lqa Ascii String Lia.
From stdpp Require Import base list gmap strings pretty.
From Equations Require Import Equations.

Local Open Scope Z_scope.
Set Default Proof Using "Type".

(** * Part I: the model *)

(** ** Machine arithmetic *)

Definition wrap32 (z : Z) : Z := z mod 2 ^ 32.
Definition wrap64 (z : Z) : Z := z mod 2 ^ 64.

(** Conversion of a [double] to an integer type. *)
Definition trunc (q : Q) : Z := Z.quot (Qnum q) (Z.pos (Qden q)).

Definition Qltb (a b : Q) : bool := negb (Qle_bool b a).

(** ** [double] arithmetic

    The result of an operation on [double]s is the exact result rounded to
    the nearest [double], ties to even (IEEE 754 binary64 in the default
    rounding mode): 53 significant bits, the exponent of the last place
    being at least -1074.  Results beyond the largest [double], which are
    infinite in the machine, are not modelled. *)

(** ⌊log2 [q]⌋ for a positive [q]. *)
Definition ilog2 (q : Q) : Z :=
  let k := Z.log2 (Qnum q) - Z.log2 (Z.pos (Qden q)) in
  if Qle_bool (2 ^ k) q then k else k - 1.

(** The nearest integer, ties to even. *)
Definition rne (q : Q) : Z :=
  let f := Qfloor q in
  match (q - inject_Z f ?= 1 # 2)%Q with
  | Lt => f
  | Eq => if Z.even f then f else f + 1
  | Gt => f + 1
  end.

(** The exponent of the last place of the [double]s next to a positive
    [q]. *)
Definition ulp_exponent (q : Q) : Z := Z.max (ilog2 q - 52) (-1074).

Definition round_positive (q : Q) : Q :=
  let e := ulp_exponent q in
  (inject_Z (rne (q * 2 ^ (- e))) * 2 ^ e)%Q.

Definition round_double (q : Q) : Q :=
  match Qnum q with
  | 0 => 0%Q
  | Z.pos _ => round_positive q
  | Z.neg _ => (- round_positive (- q))%Q
  end.

(** ** [std::string] *)

Definition size (s : string) : Z := Z.of_nat (String.length s).

(** [s.substr(pos, n)]: at most [n] characters from [pos]; the count is
    clamped to the end of the string.  ([pos > size()] throws in the source
    and gives the empty string here.) *)
Definition substr (s : string) (pos n : Z) : string :=
  substring (Z.to_nat pos) (Z.to_nat (Z.min n (size s - pos))) s.

(** [s.substr(pos)] *)
Definition substr_from (s : string) (pos : Z) : string :=
  substr s pos (size s - pos).

(** [s[j]]; ['\0'] at and past the end. *)
Definition char_at (s : string) (j : nat) : ascii :=
  default "000"%char (String.get j s).

Definition push_back (s : string) (c : ascii) : string :=
  (s ++ String c EmptyString)%string.

(** ** [shrinkToFit] (polisher.cpp, lines 28-53) *)

Section ShrinkToFit.
Context {T : Type}.

(** [src[i] == nullptr], for [i < src.size()]. *)
Definition is_null (src : list (option T)) (i : nat) : bool :=
  match src !! i with
  | Some None => true
  | _ => false
  end.

(** [src[i].swap(src[j])] *)
Definition swap (src : list (option T)) (i j : nat) : list (option T) :=
  match src !! i, src !! j with
  | Some a, Some b => <[j:=a]> (<[i:=b]> src)
  | _, _ => src
  end.

(** [while (j < src.size() && src[j] == nullptr) ++j;] *)
Equations? skip_nulls (src : list (option T)) (j : nat) : nat
  by wf (length src - j)%nat lt :=
  skip_nulls src j with lt_dec j (length src) := {
    | right _ := j;
    | left _ with is_null src j := {
      | true := skip_nulls src (S j);
      | false := j } }.
Proof. lia. Qed.

(** The [for] loop of lines 32-47; the result is the vector and the value
    of [i] on leaving the loop. *)
Equations? shrink_loop (src : list (option T)) (i j : nat) :
  list (option T) * nat by wf (length src - i)%nat lt :=
  shrink_loop src i j with lt_dec i (length src) := {
    | right _ := (src, i);
    | left _ with is_null src i := {
      | false := shrink_loop src (S i) j;
      | true with skip_nulls src (Nat.max j i) := {
        | j' with le_dec (length src) j' := {
          | left _ := (src, i);
          | right _ with Nat.eq_dec i j' := {
            | left _ := shrink_loop src (S i) j';
            | right _ := shrink_loop (swap src i j') (S i) j' } } } } }.
Proof.
  all: try lia.
  unfold swap. destruct (src !! i), (src !! j'); rewrite ?length_insert; lia.
Qed.

(** The returned count is [src.size() - i] in [uint64_t]. *)
Definition shrinkToFit (src : list (option T)) (begin : nat) :
  list (option T) * Z :=
  let '(src', i) := shrink_loop src begin begin in
  let num_deletions := wrap64 (Z.of_nat (length src') - Z.of_nat i) in
  (if (i <? length src')%nat then take i src' else src', num_deletions).

End ShrinkToFit.

(** The older variant of the file (lines 22-45): the same loop, no count. *)
Module Legacy.
Section ShrinkToFit.
Context {T : Type}.

Equations? skip_nulls (src : list (option T)) (j : nat) : nat
by wf (length src - j)%nat lt :=
skip_nulls src j with lt_dec j (length src) := {
| right _ := j;
| left _ with is_null src j := {
  | true := skip_nulls src (S j);
  | false := j } }.
Proof. lia. Qed.

Equations? shrink_loop (src : list (option T)) (i j : nat) :
list (option T) * nat by wf (length src - i)%nat lt :=
shrink_loop src i j with lt_dec i (length src) := {
| right _ := (src, i);
| left _ with is_null src i := {
  | false := shrink_loop src (S i) j;
  | true with skip_nulls src (Nat.max j i) := {
    | j' with le_dec (length src) j' := {
      | left _ := (src, i);
      | right _ with Nat.eq_dec i j' := {
        | left _ := shrink_loop src (S i) j';
        | right _ := shrink_loop (swap src i j') (S i) j' } } } } }.
Proof.
all: try lia.
unfold swap. destruct (src !! i), (src !! j'); rewrite ?length_insert; lia.
Qed.

Definition shrinkToFit (src : list (option T)) (begin : nat) :
list (option T) :=
let '(src', i) := shrink_loop src begin begin in
if (i <? length src')%nat then take i src' else src'.

End ShrinkToFit.
End Legacy.

(** ** Outcomes of a run *)

(** A function of the polisher returns, ends the process with [exit(code)]
    after printing [stderr], or stays in a loop for ever. *)
Inductive outcome (A : Type) : Type :=
| Done (a : A)
| Exit (code : Z) (stderr : string)
| Hang.
Arguments Done {A} a.
Arguments Exit {A} code stderr.
Arguments Hang {A}.

Global Instance outcome_bind : MBind outcome := λ A B k m,
  match m with
  | Done a => k a
  | Exit code msg => Exit code msg
  | Hang => Hang
  end.

(** [for (i = lo; i < lo + n; ++i) body], stopped by the first [exit]. *)
Fixpoint for_range {S : Type} (lo : nat) (n : nat)
  (body : nat → S → outcome S) (s : S) : outcome S :=
  match n with
  | O => Done s
  | Datatypes.S n' => s' ← body lo s; for_range (Datatypes.S lo) n' body s'
  end.

Definition endl : string := String "010"%char EmptyString.

(** ** Records of the data model

    The classes [Sequence] and [Overlap] are declared in headers that are
    not part of the sources; a record holds what their accessors return. *)

Record Sequence : Type := createSequence' {
  name_ : string;
  data_ : string;
  quality_ : string;
  reverse_complement_ : string;
  reverse_quality_ : string }.

(** [createSequence(name, data)] *)
Definition createSequence (name data : string) : Sequence :=
  createSequence' name data "" "" "".

Record Overlap : Type := {
  q_id_ : Z;
  t_id_ : Z;
  length_ : Z;
  error_ : Q;
  strand_ : bool;
  is_valid_ : bool;
  breaking_points_ : list (Z * Z) }.

Inductive PolisherType : Type := kC | kF.
Inductive WindowType : Type := kNGS | kTGS.

Global Instance PolisherType_eq_dec : EqDecision PolisherType.
Proof. solve_decision. Defined.

(** ** Loading targets and sequences ([Polisher::initialize], lines 202-277) *)

Record loader : Type := {
  sequences_ : list (option Sequence);
  name_to_id : gmap string Z;
  id_to_id : gmap Z Z;
  sequences_size : Z;
  total_sequences_length : Z }.

(** Lines 214-217: every target is registered under its name followed by
    ["t"] and under the key [i << 1 | 1]. *)
Definition register_target (i : nat) (st : loader) : loader :=
  match sequences_ st !! i with
  | Some (Some t) =>
      {| sequences_ := sequences_ st;
         name_to_id := <[(name_ t ++ "t")%string := Z.of_nat i]> (name_to_id st);
         id_to_id :=
           <[Z.lor (wrap64 (Z.shiftl (Z.of_nat i) 1)) 1 := Z.of_nat i]>
             (id_to_id st);
         sequences_size := sequences_size st;
         total_sequences_length := total_sequences_length st |}
  | _ => st
  end.

Definition register_targets (targets : list Sequence) : loader :=
  foldl (λ st i, register_target i st)
    {| sequences_ := Some <$> targets; name_to_id := ∅; id_to_id := ∅;
       sequences_size := 0; total_sequences_length := 0 |}
    (seq 0 (length targets)).

Definition duplicate_message (s : Sequence) : string :=
  ("[racon::Polisher::initialize] error: duplicate sequence " ++ name_ s
     ++ " with unequal data" ++ endl)%string.

(** Body of the loop of lines 234-257 for the sequence at position [i];
    [n] counts the sequences elided so far in the chunk. *)
Definition load_sequence (i : nat) (stn : loader * Z) : outcome (loader * Z) :=
  let '(st, n) := stn in
  match sequences_ st !! i with
  | Some (Some s) =>
      let total := wrap64 (total_sequences_length st + size (data_ s)) in
      let key := wrap64 (Z.shiftl (sequences_size st) 1) in
      match name_to_id st !! (name_ s ++ "t")%string with
      | Some tid =>
          match sequences_ st !! Z.to_nat tid with
          | Some (Some t) =>
              if negb (size (data_ s) =? size (data_ t))
                 || negb (size (quality_ s) =? size (quality_ t))
              then Exit 1 (duplicate_message s)
              else
                Done ({| sequences_ := <[i := None]> (sequences_ st);
                         name_to_id :=
                           <[(name_ s ++ "q")%string := tid]> (name_to_id st);
                         id_to_id := <[key := tid]> (id_to_id st);
                         sequences_size := wrap64 (sequences_size st + 1);
                         total_sequences_length := total |},
                      wrap64 (n + 1))
          | _ => Done stn (* undefined in the source: a dangling id *)
          end
      | None =>
          let new_id := wrap64 (Z.of_nat i - n) in
          Done ({| sequences_ := sequences_ st;
                   name_to_id :=
                     <[(name_ s ++ "q")%string := new_id]> (name_to_id st);
                   id_to_id := <[key := new_id]> (id_to_id st);
                   sequences_size := wrap64 (sequences_size st + 1);
                   total_sequences_length := total |},
                n)
      end
  | _ => Done stn (* undefined in the source: a null sequence *)
  end.

(** One round of the [while (true)] loop of lines 229-264: the parser has
    appended [chunk]. *)
Definition load_chunk (chunk : list Sequence) (st : loader) : outcome loader :=
  let l := length (sequences_ st) in
  let st0 :=
    {| sequences_ := sequences_ st ++ (Some <$> chunk);
       name_to_id := name_to_id st; id_to_id := id_to_id st;
       sequences_size := sequences_size st;
       total_sequences_length := total_sequences_length st |} in
  '(st1, _) ← for_range l (length chunk) load_sequence (st0, 0);
  Done {| sequences_ := (shrinkToFit (sequences_ st1) l).1;
          name_to_id := name_to_id st1; id_to_id := id_to_id st1;
          sequences_size := sequences_size st1;
          total_sequences_length := total_sequences_length st1 |}.

(** The parser hands out the chunks in order; its status is [true] while
    chunks remain, and the loop stops on the first [false]. *)
Fixpoint load_chunks (chunks : list (list Sequence)) (st : loader) :
  outcome loader :=
  match chunks with
  | [] => load_chunk [] st
  | [chunk] => load_chunk chunk st
  | chunk :: rest => st' ← load_chunk chunk st; load_chunks rest st'
  end.

Definition empty_targets_message : string :=
  ("[racon::Polisher::initialize] error: empty target sequences set!" ++ endl)%string.
Definition empty_sequences_message : string :=
  ("[racon::Polisher::initialize] error: empty sequences set!" ++ endl)%string.
Definition empty_overlaps_message : string :=
  ("[racon::Polisher::initialize] error: empty overlap set!" ++ endl)%string.

(** Lines 202-277. *)
Definition load_sequences (targets : list Sequence)
  (chunks : list (list Sequence)) : outcome loader :=
  if (length targets =? 0)%nat then Exit 1 empty_targets_message
  else
    st ← load_chunks chunks (register_targets targets);
    if sequences_size st =? 0 then Exit 1 empty_sequences_message
    else Done st.

(** Lines 276-277. *)
Definition window_type_of (st : loader) : WindowType :=
  if Qle_bool (inject_Z (total_sequences_length st) / inject_Z (sequences_size st))
       (inject_Z 1000)
  then kNGS else kTGS.

(** ** [createPolisher] (lines 55-159) and the constructor (lines 161-186) *)

(** The lambda [is_suffix] of lines 76-81. *)
Definition is_suffix (src suffix : string) : bool :=
  if size src <? size suffix then false
  else String.eqb (substr src (size src - size suffix) (size suffix)) suffix.

(** The parsers of bioparser that [createPolisher] chooses from. *)
Inductive SequenceParser : Type := FastaParser | FastqParser.
Inductive OverlapParser : Type := MhapParser | PafParser | SamParser.

(** Lines 83-99 and 117-133: the parser for a file of sequences. *)
Definition sequence_parser (path : string) : option SequenceParser :=
  if is_suffix path ".fasta" || is_suffix path ".fasta.gz"
     || is_suffix path ".fna" || is_suffix path ".fna.gz"
     || is_suffix path ".fa" || is_suffix path ".fa.gz"
  then Some FastaParser
  else if is_suffix path ".fastq" || is_suffix path ".fastq.gz"
          || is_suffix path ".fq" || is_suffix path ".fq.gz"
  then Some FastqParser
  else None.

(** Lines 101-115: the parser for the file of overlaps. *)
Definition overlap_parser (path : string) : option OverlapParser :=
  if is_suffix path ".mhap" || is_suffix path ".mhap.gz" then Some MhapParser
  else if is_suffix path ".paf" || is_suffix path ".paf.gz" then Some PafParser
  else if is_suffix path ".sam" || is_suffix path ".sam.gz" then Some SamParser
  else None.

Definition invalid_type_message : string :=
  ("[racon::createPolisher] error: invalid polisher type!" ++ endl)%string.
Definition invalid_window_length_message : string :=
  ("[racon::createPolisher] error: invalid window length!" ++ endl)%string.
Definition unsupported_sequences_message (path : string) : string :=
  ("[racon::createPolisher] error: file " ++ path
     ++ " has unsupported format extension (valid extensions: "
     ++ ".fasta, .fasta.gz, .fna, .fna.gz, .fa, .fa.gz, .fastq, .fastq.gz, "
     ++ ".fq, .fq.gz)!" ++ endl)%string.
Definition unsupported_overlaps_message (path : string) : string :=
  ("[racon::createPolisher] error: file " ++ path
     ++ " has unsupported format extension (valid extensions: "
     ++ ".mhap, .mhap.gz, .paf, .paf.gz, .sam, .sam.gz)!" ++ endl)%string.
(** [file] and [func] are what [__FILE__] and [__func__] expand to. *)
Definition cuda_unavailable_message (file func : string) : string :=
  ("[racon::createPolisher] error: "
     ++ "Attemping to use CUDA when CUDA support is not available." ++ endl
     ++ "Please check logic in " ++ file ++ ":" ++ func ++ endl)%string.

(** What the constructor of [Polisher] sets from its arguments (lines
    161-186): the parsers with their paths, the parameters, the filler
    quality and one alignment engine for each thread. *)
Record PolisherMembers : Type := {
  sparser_ : SequenceParser * string;
  oparser_ : OverlapParser * string;
  tparser_ : SequenceParser * string;
  members_type_ : PolisherType;
  members_window_length_ : Z;
  members_overlap_percentage_ : Q;
  members_quality_threshold_ : Q;
  members_error_threshold_ : Q;
  members_trim_ : bool;
  dummy_quality_ : string;
  match_ : Z;
  mismatch_ : Z;
  gap_ : Z;
  alignment_engines_ : list (Z * Z * Z) }.

(** [std::string(n, c)] *)
Fixpoint string_of (n : nat) (c : ascii) : string :=
  match n with
  | O => EmptyString
  | S n' => String c (string_of n' c)
  end.

Definition Polisher_new (sparser : SequenceParser * string)
  (oparser : OverlapParser * string) (tparser : SequenceParser * string)
  (type : PolisherType) (window_length : Z)
  (overlap_percentage quality_threshold error_threshold : Q) (trim : bool)
  (match_ mismatch gap : Z) (num_threads : Z) : PolisherMembers :=
  {| sparser_ := sparser; oparser_ := oparser; tparser_ := tparser;
     members_type_ := type;
     members_window_length_ := window_length;
     members_overlap_percentage_ := overlap_percentage;
     members_quality_threshold_ := quality_threshold;
     members_error_threshold_ := error_threshold;
     members_trim_ := trim;
     dummy_quality_ :=
       string_of (Z.to_nat (wrap32 (window_length * 2))) "!"%char;
     match_ := match_; mismatch_ := mismatch; gap_ := gap;
     alignment_engines_ :=
       replicate (Z.to_nat num_threads) (match_, mismatch, gap) |}.

(** What [createPolisher] returns: a [Polisher], or the arguments it hands
    to the constructor of [CUDAPolisher], whose source is elsewhere. *)
Inductive created : Type :=
| new_Polisher (members : PolisherMembers)
| new_CUDAPolisher (sparser : SequenceParser * string)
    (oparser : OverlapParser * string) (tparser : SequenceParser * string)
    (type : PolisherType) (window_length : Z)
    (quality_threshold error_threshold : Q) (trim : bool)
    (match_ mismatch gap : Z) (num_threads cudapoa_batches : Z)
    (cuda_banded_alignment : bool) (cudaaligner_batches : Z).

(** [type] is [None] for a value of the enumeration that is neither [kC]
    nor [kF]; [cuda_enabled] stands for the macro [CUDA_ENABLED]. *)
Definition createPolisher (cuda_enabled : bool) (file func : string)
  (sequences_path overlaps_path target_path : string)
  (type : option PolisherType) (window_length : Z)
  (overlap_percentage quality_threshold error_threshold : Q) (trim : bool)
  (match_ mismatch gap : Z) (num_threads cudapoa_batches : Z)
  (cuda_banded_alignment : bool) (cudaaligner_batches : Z) :
  outcome created :=
  match type with
  | None => Exit 1 invalid_type_message
  | Some type =>
      if window_length =? 0 then Exit 1 invalid_window_length_message
      else
        match sequence_parser sequences_path with
        | None => Exit 1 (unsupported_sequences_message sequences_path)
        | Some sparser =>
            match overlap_parser overlaps_path with
            | None => Exit 1 (unsupported_overlaps_message overlaps_path)
            | Some oparser =>
                match sequence_parser target_path with
                | None => Exit 1 (unsupported_sequences_message target_path)
                | Some tparser =>
                    if (0 <? cudapoa_batches) || (0 <? cudaaligner_batches)
                    then
                      if cuda_enabled
                      then
                        Done (new_CUDAPolisher (sparser, sequences_path)
                                (oparser, overlaps_path)
                                (tparser, target_path) type window_length
                                quality_threshold error_threshold trim
                                match_ mismatch gap num_threads
                                cudapoa_batches cuda_banded_alignment
                                cudaaligner_batches)
                      else Exit 1 (cuda_unavailable_message file func)
                    else
                      Done (new_Polisher
                              (Polisher_new (sparser, sequences_path)
                                 (oparser, overlaps_path)
                                 (tparser, target_path) type window_length
                                 overlap_percentage quality_threshold
                                 error_threshold trim match_ mismatch gap
                                 num_threads))
                end
            end
        end
  end.

(** *** The older variant of [createPolisher] (lines 46-109 of the older
    [polisher.cpp]) *)

(** [s.rfind(c)]: the position of the last [c] in [s]. *)
Fixpoint rfind (c : ascii) (s : string) : option nat :=
  match s with
  | EmptyString => None
  | String a rest =>
      match rfind c rest with
      | Some k => Some (S k)
      | None => if Ascii.eqb a c then Some 0%nat else None
      end
  end.

(** [path.substr(std::min(path.rfind('.'), path.size()))], [npos] being
    the greatest [size_t]. *)
Definition legacy_extension (path : string) : string :=
  let pos :=
    match rfind "."%char path with
    | Some k => Z.of_nat k
    | None => 2 ^ 64 - 1
    end in
  substr_from path (Z.min pos (size path)).

Definition legacy_sequence_parser (path : string) : option SequenceParser :=
  let extension := legacy_extension path in
  if String.eqb extension ".fasta" || String.eqb extension ".fa"
  then Some FastaParser
  else if String.eqb extension ".fastq" || String.eqb extension ".fq"
  then Some FastqParser
  else None.

Definition legacy_overlap_parser (path : string) : option OverlapParser :=
  let extension := legacy_extension path in
  if String.eqb extension ".mhap" then Some MhapParser
  else if String.eqb extension ".paf" then Some PafParser
  else if String.eqb extension ".sam" then Some SamParser
  else None.


(** ** The polisher

    The members of [Polisher] that are fixed at construction are section
    variables; so are the methods of [Sequence], [Overlap], [Window] and of
    the spoa library whose sources are not part of the repository files at
    hand. *)

Section Polisher.

Variable type_ : PolisherType.
Variable window_length_ : Z.
Variable overlap_percentage_ : Q.
Variable quality_threshold_ : Q.
Variable error_threshold_ : Q.
Variable trim_ : bool.

(** [Overlap::transmute(sequences_, name_to_id, id_to_id)] *)
Variable Overlap_transmute :
  list (option Sequence) → gmap string Z → gmap Z Z → Overlap → Overlap.
(** [Overlap::find_breaking_points(sequences_, window_length_, overlap_percentage_)] *)
Variable Overlap_find_breaking_points :
  list (option Sequence) → Z → Q → Overlap → Overlap.
(** [Sequence::transmute(has_name, has_data, has_reverse_data)] *)
Variable Sequence_transmute : bool → bool → bool → Sequence → Sequence.

(** *** Overlap normalization ([Polisher::initialize], lines 282-364) *)

Section Normalize.

(** The overlaps are transmuted against the loaded sequences. *)
Variable transmute : Overlap → Overlap.

(** Lines 295-305: the inner loop of [remove_invalid_overlaps], entered
    at [j] with [n] positions left before [end]. *)
Fixpoint remove_shorter (n : nat) (j i : nat)
  (overlaps : list (option Overlap)) : list (option Overlap) :=
  match n with
  | O => overlaps
  | S n' =>
      match overlaps !! j, overlaps !! i with
      | Some (Some oj), Some (Some oi) =>
          if length_ oi >? length_ oj
          then remove_shorter n' (S j) i (<[j := None]> overlaps)
          else <[i := None]> overlaps
      | _, _ => remove_shorter n' (S j) i overlaps
      end
  end.

(** Lines 285-307: the outer loop, entered at [i] with [n] positions
    left before [end_]. *)
Fixpoint remove_invalid_loop (n : nat) (i end_ : nat)
  (overlaps : list (option Overlap)) : list (option Overlap) :=
  match n with
  | O => overlaps
  | S n' =>
      match overlaps !! i with
      | Some (Some o) =>
          if Qltb error_threshold_ (error_ o) || (q_id_ o =? t_id_ o)
          then remove_invalid_loop n' (S i) end_ (<[i := None]> overlaps)
          else if decide (type_ = kC)
          then remove_invalid_loop n' (S i) end_
                 (remove_shorter (end_ - S i) (S i) i overlaps)
          else remove_invalid_loop n' (S i) end_ overlaps
      | _ => remove_invalid_loop n' (S i) end_ overlaps
      end
  end.

Definition remove_invalid_overlaps (overlaps : list (option Overlap))
  (begin end_ : nat) : list (option Overlap) :=
  remove_invalid_loop (end_ - begin) begin end_ overlaps.

(** Lines 317-330: the body of the scan at position [i]; [c] is the
    start of the run being collected.  ([while (overlaps[c] == nullptr)]
    has no bound of its own in the source; it stops at [i] at the
    latest, which is not null.) *)
Definition scan_overlap (st : list (option Overlap) * nat) (i : nat) :
  list (option Overlap) * nat :=
  let '(overlaps, c) := st in
  match overlaps !! i with
  | Some (Some o) =>
      let o' := transmute o in
      let overlaps := <[i := Some o']> overlaps in
      if negb (is_valid_ o') then (<[i := None]> overlaps, c)
      else
        let c := skip_nulls overlaps c in
        match overlaps !! c with
        | Some (Some oc) =>
            if negb (q_id_ oc =? q_id_ o')
            then (remove_invalid_overlaps overlaps c i, i)
            else (overlaps, c)
        | _ => (overlaps, c)
        end
  | _ => st (* undefined in the source: a null overlap *)
  end.

(** Lines 337-347. *)
Definition mark_strand (overlaps : list (option Overlap))
  (flags : list bool * list bool) (i : nat) : list bool * list bool :=
  match overlaps !! i with
  | Some (Some o) =>
      if strand_ o
      then (flags.1, <[Z.to_nat (q_id_ o) := true]> flags.2)
      else (<[Z.to_nat (q_id_ o) := true]> flags.1, flags.2)
  | _ => flags
  end.

Record normalizer : Type := {
  overlaps_ : list (option Overlap);
  has_data : list bool;
  has_reverse_data : list bool;
  l_ : Z }.

(** One round of the [while (true)] loop of lines 312-355: the parser
    has appended [chunk] and returned [status]. *)
Definition normalize_chunk (chunk : list Overlap) (status : bool)
  (st : normalizer) : normalizer :=
  let overlaps := overlaps_ st ++ (Some <$> chunk) in
  let l := Z.to_nat (l_ st) in
  let '(overlaps, c) :=
    foldl scan_overlap (overlaps, l) (seq l (length overlaps - l)) in
  let '(overlaps, c) :=
    if status then (overlaps, c)
    else (remove_invalid_overlaps overlaps c (length overlaps),
          length overlaps) in
  let '(hd, hrd) :=
    foldl (mark_strand overlaps) (has_data st, has_reverse_data st)
      (seq l (c - l)) in
  let '(overlaps, n) := shrinkToFit overlaps l in
  {| overlaps_ := overlaps; has_data := hd; has_reverse_data := hrd;
     l_ := wrap64 (Z.of_nat c - n) |}.

Fixpoint normalize_chunks (chunks : list (list Overlap))
  (st : normalizer) : normalizer :=
  match chunks with
  | [] => normalize_chunk [] false st
  | [chunk] => normalize_chunk chunk false st
  | chunk :: rest => normalize_chunks rest (normalize_chunk chunk true st)
  end.

End Normalize.

(** Lines 272-274 and 310-355, after the sequences have been loaded: the
    overlaps that are left and the strands met for each sequence. *)
Definition normalized_overlaps (targets_size : nat) (st : loader)
  (chunks : list (list Overlap)) : normalizer :=
  let flags (b : bool) :=
    replicate targets_size b
      ++ replicate (length (sequences_ st) - targets_size) false in
  normalize_chunks
    (Overlap_transmute (sequences_ st) (name_to_id st) (id_to_id st))
    chunks
    {| overlaps_ := []; has_data := flags true;
       has_reverse_data := flags false; l_ := 0 |}.

(** Lines 360-364. *)
Definition load_overlaps (targets_size : nat) (st : loader)
  (chunks : list (list Overlap)) : outcome normalizer :=
  let r := normalized_overlaps targets_size st chunks in
  if (length (overlaps_ r) =? 0)%nat then Exit 1 empty_overlaps_message
  else Done r.

(** *** Windows ([window.hpp]; [Polisher::initialize], lines 384-406) *)

(** The arguments of one call of [Window::add_layer]. *)
Record Layer : Type := {
  layer_sequence : string;
  layer_sequence_length : Z;
  layer_quality : option string;
  layer_quality_length : Z;
  layer_begin : Z;
  layer_end : Z;
  layer_q_id : Z }.

(** Modelled from the spec: the constructor of [Window] and [add_layer]
    are in window.cpp, which is not among the sources.  A window is seeded
    with its backbone, the slice [backbone_start_, backbone_start_ +
    backbone_length_) of its target (quality alike, or the filler when the
    target has none), and keeps its layers in the order they were added. *)
Record Window : Type := {
  id_ : Z;
  rank_ : Z;
  window_type_ : WindowType;
  overlap_ : bool;
  backbone_start_ : Z;
  backbone_length_ : Z;
  backbone_has_quality_ : bool;
  layers_ : list Layer;
  consensus_ : string;
  summary_ : list Z;
  coder_ : list Z }.

Definition createWindow (id rank : Z) (type : WindowType) (overlap : bool)
  (backbone_start backbone_length : Z) (has_quality : bool) : Window :=
  {| id_ := id; rank_ := rank; window_type_ := type; overlap_ := overlap;
     backbone_start_ := backbone_start; backbone_length_ := backbone_length;
     backbone_has_quality_ := has_quality; layers_ := [];
     consensus_ := ""; summary_ := []; coder_ := [] |}.

Definition add_layer (layer : Layer) (w : Window) : Window :=
  {| id_ := id_ w; rank_ := rank_ w; window_type_ := window_type_ w;
     overlap_ := overlap_ w; backbone_start_ := backbone_start_ w;
     backbone_length_ := backbone_length_ w;
     backbone_has_quality_ := backbone_has_quality_ w;
     layers_ := layers_ w ++ [layer];
     consensus_ := consensus_ w; summary_ := summary_ w;
     coder_ := coder_ w |}.

(** Line 384: [uint32_t offset = window_length_ * overlap_percentage_], the
    product being a [double]. *)
Definition offset : Z :=
  wrap32 (trunc (round_double (inject_Z window_length_ * overlap_percentage_))).

(** Lines 389-403 for one target: [sz] is [data().size()], [j] and [k] are
    the [uint32_t] loop variables.  The loop has no bound of its own when
    [j] wraps around or [window_length_] is zero: [None] is a run that has
    not left the loop after [fuel] rounds. *)
Fixpoint window_loop (fuel : nat) (window_type : WindowType) (i : Z)
  (sz : Z) (has_quality : bool) (j k : Z) (windows : list Window) :
  option (list Window * Z) :=
  if negb (j <? sz) then Some (windows, k)
  else
    match fuel with
    | O => None
    | S fuel' =>
        let start := if 0 <? j then wrap32 (j - offset) else j in
        let expansion := if 0 <? j then wrap32 (offset + offset) else offset in
        let length :=
          wrap32 (Z.min (wrap32 (start + window_length_ + expansion))
                    (wrap32 sz) - start) in
        window_loop fuel' window_type i sz has_quality
          (wrap32 (j + window_length_)) (wrap32 (k + 1))
          (windows ++
             [createWindow i k window_type
                (negb (Qeq_bool overlap_percentage_ 0))
                start length has_quality])
    end.

(** Lines 386-406: the windows of all targets and the table
    [id_to_first_window_id]. *)
Fixpoint build_windows (window_type : WindowType)
  (targets : list Sequence) (i : Z) (windows : list Window)
  (id_to_first_window_id : list Z) : option (list Window * list Z) :=
  match targets with
  | [] => Some (windows, id_to_first_window_id)
  | t :: rest =>
      let sz := size (data_ t) in
      '(windows', k) ←
        window_loop (Z.to_nat sz) window_type i sz
          (negb (String.eqb (quality_ t) "")) 0 0 windows;
      build_windows window_type rest (i + 1) windows'
        (id_to_first_window_id
           ++ [wrap64 (List.last id_to_first_window_id 0 + k)])
  end.

(** *** Layers ([Polisher::initialize], lines 410-508) *)

(** [static_cast<uint32_t>(c)] for a [char], which is signed. *)
Definition char_to_uint32 (c : ascii) : Z :=
  let n := Z.of_nat (nat_of_ascii c) in
  if n <? 128 then n else wrap32 (n - 256).

(** [breaking_points[j]]; reading past the end is undefined in the source. *)
Definition bp_at (breaking_points : list (Z * Z)) (j : nat) : Z * Z :=
  default (0, 0) (breaking_points !! j).

(** Line 420. *)
Definition too_short (breaking_points : list (Z * Z)) (j : nat) : bool :=
  Qltb
    (inject_Z (wrap32 ((bp_at breaking_points (j + 1)).2
                       - (bp_at breaking_points j).2)))
    ((2 # 100) * inject_Z window_length_).

(** Lines 430-434. *)
Definition average_quality (quality : string)
  (breaking_points : list (Z * Z)) (j : nat) : Q :=
  let lo := (bp_at breaking_points j).2 in
  let hi := (bp_at breaking_points (j + 1)).2 in
  foldl
    (λ acc k, acc + inject_Z (wrap32 (char_to_uint32 (char_at quality k) - 33)))%Q
    (inject_Z 0) (seq (Z.to_nat lo) (Z.to_nat (hi - lo)))
  / inject_Z (wrap32 (hi - lo)).

(** Lines 425-426 and 436. *)
Definition low_quality (o : Overlap) (sequence : Sequence) (j : nat) : bool :=
  (negb (String.eqb (quality_ sequence) "")
   || negb (String.eqb (reverse_quality_ sequence) ""))
  && Qltb
       (average_quality
          (if strand_ o then reverse_quality_ sequence else quality_ sequence)
          (breaking_points_ o) j)
       quality_threshold_.

(** Lines 437-449: what a skipped fragment leaves in [prev_window_id]. *)
Definition skipped_window_id (first : Z) (breaking_points : list (Z * Z))
  (j : nat) (prev_window_id : Z) : Z :=
  let bpw1 := (bp_at breaking_points j).1 / window_length_ in
  let bpw2 := (bp_at breaking_points (j + 1)).1 / window_length_ in
  let prev_window_id_n := wrap64 (first + bpw1) in
  if 1 <? wrap64 (bpw2 - bpw1) then wrap64 (prev_window_id_n + 1)
  else if prev_window_id_n =? prev_window_id then wrap64 (prev_window_id_n + 1)
  else if ((bp_at breaking_points j).1 <? wrap64 (wrap64 (bpw1 * window_length_) + offset))
          && (Nat.ltb (j + 2) (length breaking_points)
              && ((bp_at breaking_points j).1 =? (bp_at breaking_points (j + 2)).1))
  then wrap64 (prev_window_id_n - 1)
  else prev_window_id_n.

(** Lines 462-473: the window an assigned fragment goes to. *)
Definition assigned_window_id (first : Z) (breaking_points : list (Z * Z))
  (j : nat) (prev_window_id : Z) : Z :=
  let bpw1 := (bp_at breaking_points j).1 / window_length_ in
  let bpw2 := (bp_at breaking_points (j + 1)).1 / window_length_ in
  let window_id := wrap64 (first + bpw1) in
  if 1 <? wrap64 (bpw2 - bpw1) then wrap64 (window_id + 1)
  else if window_id =? prev_window_id then wrap64 (window_id + 1)
  else if ((bp_at breaking_points j).1 <? wrap64 (wrap64 (bpw1 * window_length_) + offset))
          && (Nat.ltb (j + 2) (length breaking_points)
              && ((bp_at breaking_points j).1 =? (bp_at breaking_points (j + 2)).1))
  then wrap64 (window_id - 1)
  else window_id.

(** Lines 476-504: the layer a fragment becomes in window [window_id]. *)
Definition make_layer (o : Overlap) (sequence : Sequence) (first : Z)
  (j : nat) (window_id : Z) : Layer :=
  let bp := breaking_points_ o in
  let window_start0 :=
    wrap32 (wrap64 (wrap64 (window_id - first) * window_length_)) in
  let window_start :=
    if 0 <? window_start0 then wrap32 (window_start0 - offset)
    else window_start0 in
  let data_length := wrap32 ((bp_at bp (j + 1)).2 - (bp_at bp j).2) in
  let source :=
    if strand_ o then reverse_complement_ sequence else data_ sequence in
  let quality_source :=
    if strand_ o then reverse_quality_ sequence else quality_ sequence in
  let quality :=
    if String.eqb quality_source "" then None
    else Some (substr quality_source (bp_at bp j).2 data_length) in
  {| layer_sequence := substr source (bp_at bp j).2 data_length;
     layer_sequence_length := data_length;
     layer_quality := quality;
     layer_quality_length :=
       match quality with Some _ => data_length | None => 0 end;
     layer_begin := wrap32 ((bp_at bp j).1 - window_start);
     layer_end := wrap32 ((bp_at bp (j + 1)).1 - window_start - 1);
     layer_q_id := q_id_ o |}.

(** The state of the loop over the breaking points of one overlap. *)
Record assigner : Type := {
  prev_window_id : Z;
  layered_windows : list Window }.

(** Lines 419-505: the body of the loop for the fragment at [j]. *)
Definition assign_fragment (o : Overlap) (sequence : Sequence) (first : Z)
  (st : assigner) (j : nat) : assigner :=
  if too_short (breaking_points_ o) j then st
  else if low_quality o sequence j
  then {| prev_window_id :=
            skipped_window_id first (breaking_points_ o) j (prev_window_id st);
          layered_windows := layered_windows st |}
  else
    let window_id :=
      assigned_window_id first (breaking_points_ o) j (prev_window_id st) in
    {| prev_window_id := window_id;
       layered_windows :=
         alter (add_layer (make_layer o sequence first j window_id))
           (Z.to_nat window_id) (layered_windows st) |}.

(** Lines 410-508 for one overlap: the coverage of its target grows by
    one and its fragments are assigned, [j] going over the even
    positions of [breaking_points]. *)
Definition assign_overlap (sequences : list (option Sequence))
  (id_to_first_window_id : list Z) (st : list Window * list Z)
  (o : Overlap) : list Window * list Z :=
  let '(windows, targets_coverages) := st in
  let sequence :=
    default (createSequence "" "") (mjoin (sequences !! Z.to_nat (q_id_ o))) in
  let first := default 0 (id_to_first_window_id !! Z.to_nat (t_id_ o)) in
  let r :=
    foldl (assign_fragment o sequence first)
      {| prev_window_id := wrap64 (-1); layered_windows := windows |}
      ((λ k, 2 * k)%nat <$> seq 0 ((length (breaking_points_ o) + 1) / 2)) in
  (layered_windows r,
   alter (λ c, wrap32 (c + 1)) (Z.to_nat (t_id_ o)) targets_coverages).

(** *** [Polisher::initialize] (lines 192-511) *)

(** The members of [Polisher] that change. *)
Record Polisher : Type := {
  windows_ : list Window;
  polisher_sequences_ : list (option Sequence);
  targets_coverages_ : list Z }.

(** [v.resize(n, x)] *)
Definition resize {A : Type} (n : nat) (x : A) (v : list A) : list A :=
  take n v ++ replicate (n - length v) x.

Definition already_initialized_message : string :=
  ("[racon::Polisher::initialize] warning: object already initialized!"
     ++ endl)%string.

(** A call made on [logger_]: [log()], [log(msg)] or [bar(msg)]. *)
Inductive logger_call : Type :=
  | log_time
  | log_message (msg : string)
  | log_bar (msg : string).

(** [Polisher::find_overlap_breaking_points] (lines 513-535): the overlaps
    afterwards and the calls made on [logger_]. *)
Definition find_overlap_breaking_points (sequences : list (option Sequence))
  (overlaps : list Overlap) : list Overlap * list logger_call :=
  let n := Z.of_nat (length overlaps) in
  let logger_step := wrap32 (n / 20) in
  let bars :=
    List.filter
      (λ i, negb (logger_step =? 0) && ((i + 1) mod logger_step =? 0)
            && ((i + 1) / logger_step <? 20))
      (seqZ 0 n) in
  (Overlap_find_breaking_points sequences window_length_
     overlap_percentage_ <$> overlaps,
   ((λ _, log_bar "[racon::Polisher::initialize] aligning overlaps")
      <$> bars)
     ++ [if logger_step =? 0
         then log_message "[racon::Polisher::initialize] aligned overlaps"
         else log_bar "[racon::Polisher::initialize] aligning overlaps"]).

(** [targets] is what [tparser_] yields, [sequences] and [overlaps] are the
    chunks [sparser_] and [oparser_] yield.  A normal return carries the
    polisher, what [initialize] itself has printed on [stderr], and the
    calls it has made on [logger_]; an exit keeps its diagnostic only. *)
Definition initialize (p : Polisher) (targets : list Sequence)
  (sequences : list (list Sequence)) (overlaps : list (list Overlap)) :
  outcome (Polisher * string * list logger_call) :=
  if negb (length (windows_ p) =? 0)%nat
  then Done (p, already_initialized_message, [])
  else
    st ← load_sequences targets sequences;
    let targets_size := length targets in
    let window_type := window_type_of st in
    r ← load_overlaps targets_size st overlaps;
    let has_name :=
      replicate targets_size true
        ++ replicate (length (sequences_ st) - targets_size) false in
    let sequences' :=
      imap (λ j s,
              Sequence_transmute (default false (has_name !! j))
                (default false (has_data r !! j))
                (default false (has_reverse_data r !! j)) <$> s)
        (sequences_ st) in
    let aligned :=
      find_overlap_breaking_points sequences' (omap id (overlaps_ r)) in
    let overlaps' := aligned.1 in
    match
      build_windows window_type (omap id (take targets_size sequences'))
        0 [] [0]
    with
    | None => Hang
    | Some (windows, id_to_first_window_id) =>
        let '(windows', coverages) :=
          foldl (assign_overlap sequences' id_to_first_window_id)
            (windows, resize targets_size 0 (targets_coverages_ p))
            overlaps' in
        Done ({| windows_ := windows'; polisher_sequences_ := sequences';
                 targets_coverages_ := coverages |}, "",
              [log_time;
               log_message
                 "[racon::Polisher::initialize] loaded target sequences";
               log_time;
               log_message "[racon::Polisher::initialize] loaded sequences";
               log_time;
               log_message "[racon::Polisher::initialize] loaded overlaps";
               log_time]
                ++ aligned.2
                ++ [log_time;
                    log_message
                      ("[racon::Polisher::initialize] "
                         ++ "transformed data into windows")%string])
    end.

(** *** [Polisher::polish] (lines 537-749) *)

(** [Window::generate_consensus(engine, trim)]: the window afterwards and
    the returned flag. *)
Variable generate_consensus : Window → bool → Window * bool.
(** The rows of the alignment spoa builds for a graph seeded with the
    first argument to which the second is aligned (lines 627-632). *)
Variable generate_multiple_sequence_alignment : string → string → list string.
(** [std::to_string] of the [double] nearest to a rational. *)
Variable double_to_string : Q → string.

(** [v[i]]; reading past the end is undefined in the source. *)
Definition vec_at (v : list Z) (i : Z) : Z :=
  if i <? 0 then 0 else default 0 (v !! Z.to_nat i).

Definition window_at (windows : list Window) (i : nat) : Window :=
  default (createWindow 0 0 kNGS false 0 0 false) (windows !! i).

(** Lines 570, 623 and 713: the window at [i] is the last of its target. *)
Definition is_last (windows : list Window) (i : nat) : bool :=
  (Z.of_nat i =? wrap64 (Z.of_nat (length windows) - 1))
  || (rank_ (window_at windows (i + 1)) =? 0).

Record polish_state : Type := {
  polished_data : string;
  num_polished_windows : Z;
  dst : list Sequence }.

(** Lines 571-584 and 716-729. *)
Definition emit (p : Polisher) (drop_unpolished_sequences : bool)
  (w : Window) (st : polish_state) : polish_state :=
  let polished_ratio :=
    (inject_Z (num_polished_windows st) / inject_Z (wrap32 (rank_ w + 1)))%Q in
  let tags :=
    ((if decide (type_ = kF) then "r" else "")
       ++ " LN:i:" ++ pretty (size (polished_data st))
       ++ " RC:i:" ++ pretty (vec_at (targets_coverages_ p) (id_ w))
       ++ " XC:f:" ++ double_to_string polished_ratio)%string in
  let name :=
    name_ (default (createSequence "" "")
             (mjoin (polisher_sequences_ p !! Z.to_nat (id_ w)))) in
  {| polished_data := "";
     num_polished_windows := 0;
     dst :=
       if negb drop_unpolished_sequences || Qltb 0 polished_ratio
       then dst st ++ [createSequence (name ++ tags) (polished_data st)]
       else dst st |}.

(** Lines 564-591: default mode, the body of the loop at [i]. *)
Definition polish_default_step (p : Polisher)
  (drop_unpolished_sequences : bool) (results : list (Window * bool))
  (st : polish_state) (i : nat) : polish_state :=
  let windows := fst <$> results in
  let w := window_at windows i in
  let st' :=
    {| polished_data := (polished_data st ++ consensus_ w)%string;
       num_polished_windows :=
         wrap32 (num_polished_windows st
                 + if default false (snd <$> results !! i) then 1 else 0);
       dst := dst st |} in
  if is_last windows i then emit p drop_unpolished_sequences w st' else st'.

(** Line 594; twice a [double] is a [double]. *)
Definition total_overlap : Q := 2 * overlap_percentage_.

(** [consensus.size() * total_overlap], a [double], as [uint32_t] (lines
    614, 621). *)
Definition overlap_length (consensus : string) : Z :=
  wrap32 (trunc (round_double (inject_Z (size consensus) * total_overlap))).

(** [consensus.size() - total_overlap * consensus.size()], a [double], as
    [size_t] (line 608): the product is rounded, then the difference. *)
Definition overlap_start (consensus : string) : Z :=
  trunc
    (round_double
       (inject_Z (size consensus)
        - round_double (total_overlap * inject_Z (size consensus)))).

Record scan : Type := {
  overlap : string;
  l_pos : Z;
  r_pos : Z }.

Definition gap : ascii := "-"%char.

(** Lines 642-656: the scan for the first matching column, entered at
    [j] with [n] columns left; the second component is
    [first_match_pos]. *)
Fixpoint scan_first_match (n : nat) (j : nat) (m0 m1 : string) (st : scan) :
  scan * Z :=
  match n with
  | O => (st, wrap32 (-1))
  | S n' =>
      if Ascii.eqb (char_at m0 j) (char_at m1 j) then (st, Z.of_nat j)
      else
        let st1 :=
          if negb (Ascii.eqb (char_at m0 j) gap)
          then {| overlap := push_back (overlap st) (char_at m0 j);
                  l_pos := wrap32 (l_pos st + 1); r_pos := r_pos st |}
          else st in
        let st2 :=
          if negb (Ascii.eqb (char_at m1 j) gap)
          then {| overlap := overlap st1; l_pos := l_pos st1;
                  r_pos := wrap32 (r_pos st1 + 1) |}
          else st1 in
        scan_first_match n' (S j) m0 m1 st2
  end.

(** Lines 657-667: the scan for the last matching column, from [j] down
    to 1; the second component is [last_match_pos]. *)
Fixpoint scan_last_match (j : nat) (m0 m1 : string) (right : string) :
  string * Z :=
  match j with
  | O => (right, wrap32 (-1))
  | S j' =>
      if Ascii.eqb (char_at m0 j) (char_at m1 j) then (right, Z.of_nat j)
      else
        scan_last_match j' m0 m1
          (if negb (Ascii.eqb (char_at m1 j) gap)
           then push_back right (char_at m1 j) else right)
  end.

(** Lines 672-704: the columns from [first_match_pos] to
    [last_match_pos], entered at [j] with [n] columns left. *)
Fixpoint merge_columns (n : nat) (j : nat) (m0 m1 : string)
  (wl wr : Window) (st : scan) : scan :=
  match n with
  | O => st
  | S n' =>
      let c0 := char_at m0 j in
      let c1 := char_at m1 j in
      let st' :=
        if Ascii.eqb c0 c1
        then {| overlap := push_back (overlap st) c0;
                l_pos := wrap32 (l_pos st + 1);
                r_pos := wrap32 (r_pos st + 1) |}
        else if Ascii.eqb c0 gap
        then {| overlap := overlap st; l_pos := l_pos st;
                r_pos := wrap32 (r_pos st + 1) |}
        else if Ascii.eqb c1 gap
        then {| overlap := overlap st; l_pos := wrap32 (l_pos st + 1);
                r_pos := r_pos st |}
        else
          let gap_line_l :=
            wrap32 (wrap64 (Z.of_nat (length (summary_ wl))
                            / size (consensus_ wl) - 1)) in
          let gap_line_r :=
            wrap32 (wrap64 (Z.of_nat (length (summary_ wr))
                            / size (consensus_ wr) - 1)) in
          let has_l := negb (length (summary_ wl) =? 0)%nat in
          let has_r := negb (length (summary_ wr) =? 0)%nat in
          let gaps_l :=
            if has_l
            then vec_at (summary_ wl)
                   (wrap64 (gap_line_l * size (consensus_ wl) + l_pos st))
            else 0 in
          let l :=
            if has_l
            then vec_at (summary_ wl)
                   (wrap64 (wrap64 (vec_at (coder_ wl)
                                      (Z.of_nat (nat_of_ascii c0)))
                            * size (consensus_ wl) + l_pos st))
            else 0 in
          let gaps_r :=
            if has_r
            then vec_at (summary_ wr)
                   (wrap64 (gap_line_r * size (consensus_ wr) + r_pos st))
            else 0 in
          let r :=
            if has_r
            then vec_at (summary_ wr)
                   (wrap64 (wrap64 (vec_at (coder_ wr)
                                      (Z.of_nat (nat_of_ascii c1)))
                            * size (consensus_ wr) + r_pos st))
            else 0 in
          let gaps := wrap32 (gaps_l + gaps_r) in
          if Z.max gaps (Z.max l r) =? gaps then st
          else {| overlap := push_back (overlap st) (if r <? l then c0 else c1);
                  l_pos := l_pos st; r_pos := r_pos st |} in
      merge_columns n' (S j) m0 m1 wl wr st'
  end.

(** Line 614: [len_l]. *)
Definition left_length (wl : Window) : Z := overlap_length (consensus_ wl).

(** Lines 621-625: [len_r]; the whole window when it is the last one of its
    target. *)
Definition right_length (wr : Window) (last : bool) : Z :=
  if last then wrap32 (size (consensus_ wr)) else overlap_length (consensus_ wr).

(** Lines 610-708: what the window [wr], which follows [wl] in the same
    target, adds to [polished_data]; [last] says that [wr] is the last
    window of the target. *)
Definition stitch (wl wr : Window) (last : bool) : string :=
  let consensus_l := consensus_ wl in
  let len_l := left_length wl in
  let start_l := wrap32 (size consensus_l - len_l) in
  let consensus_r := consensus_ wr in
  let len_r := right_length wr last in
  let msa :=
    generate_multiple_sequence_alignment
      (substr consensus_l start_l len_l) (substr consensus_r 0 len_r) in
  let m0 := nth 0 msa ""%string in
  let m1 := nth 1 msa ""%string in
  let len_msa := Z.to_nat (wrap32 (size m0)) in
  let '(st, first_match_pos) :=
    scan_first_match len_msa 0 m0 m1
      {| overlap := ""; l_pos := start_l; r_pos := 0 |} in
  let '(right_, last_match_pos) :=
    scan_last_match (len_msa - 1) m0 m1 "" in
  let '(overlap', right') :=
    if (first_match_pos =? wrap32 (-1)) || (last_match_pos =? wrap32 (-1))
    then (substr consensus_l start_l len_l, substr consensus_r 0 len_r)
    else
      (overlap
         (merge_columns (Z.to_nat (last_match_pos - first_match_pos + 1))
            (Z.to_nat first_match_pos) m0 m1 wl wr st),
       String.rev right_) in
  (overlap' ++ right'
     ++ substr consensus_r len_r
          (wrap64 (size consensus_r - wrap32 (2 * len_r))))%string.

(** Lines 601-736: overlap mode, the body of the loop at [i].
    ([windows_[i - 1]] is read only when the rank is not zero; for [i = 0]
    that read is undefined in the source.) *)
Definition polish_overlap_step (p : Polisher)
  (drop_unpolished_sequences : bool) (results : list (Window * bool))
  (st : polish_state) (i : nat) : polish_state :=
  let windows := fst <$> results in
  let w := window_at windows i in
  let consensus := consensus_ w in
  let data :=
    if rank_ w =? 0
    then (polished_data st ++ substr consensus 0 (overlap_start consensus))%string
    else (polished_data st
            ++ stitch (window_at windows (i - 1)) w (is_last windows i))%string in
  let num :=
    wrap32 (num_polished_windows st
            + if default false (snd <$> results !! i) then 1 else 0) in
  if is_last windows i
  then
    emit p drop_unpolished_sequences w
      {| polished_data :=
           (data ++ substr_from consensus
                      (trunc
                         (round_double
                            (inject_Z (size consensus)
                             - round_double
                                 (inject_Z (size consensus)
                                  * total_overlap)))))%string;
         num_polished_windows := num; dst := dst st |}
  else {| polished_data := data; num_polished_windows := num; dst := dst st |}.

(** [Polisher::polish(dst, drop_unpolished_sequences)]: the sequences in
    [dst] afterwards; the windows and the sequences are released. *)
Definition polish (p : Polisher) (dst0 : list Sequence)
  (drop_unpolished_sequences : bool) : Polisher * list Sequence :=
  let default_mode := Qeq_bool overlap_percentage_ 0 in
  let results :=
    (λ w, generate_consensus w (if default_mode then trim_ else false))
      <$> windows_ p in
  let step :=
    if default_mode then polish_default_step else polish_overlap_step in
  let st :=
    foldl (step p drop_unpolished_sequences results)
      {| polished_data := ""; num_polished_windows := 0; dst := dst0 |}
      (seq 0 (length results)) in
  ({| windows_ := []; polisher_sequences_ := [];
      targets_coverages_ := targets_coverages_ p |}, dst st).

(** * Part II: properties *)

(** ** [double] rounding *)

Section RoundingProperties.

Lemma Qnum_pos (q : Q) : (0 < q)%Q ↔ 0 < Qnum q.
Proof. unfold Qlt. simpl. lia. Qed.

Lemma Qnum_neg (q : Q) : (q < 0)%Q ↔ Qnum q < 0.
Proof. unfold Qlt. simpl. lia. Qed.

Lemma two_power_pos (e : Z) : (0 < 2 ^ e)%Q.
Proof. by apply Qpower_0_lt. Qed.

Lemma two_power_add (a b : Z) : (2 ^ (a + b) == 2 ^ a * 2 ^ b)%Q.
Proof. by apply Qpower_plus. Qed.

Lemma two_power_cancel (e : Z) : (2 ^ (- e) * 2 ^ e == 1)%Q.
Proof. rewrite <- two_power_add. by replace (- e + e) with 0 by lia. Qed.

Lemma two_power_Z (n : Z) : 0 ≤ n → (2 ^ n == inject_Z (2 ^ n))%Q.
Proof. intros Hn. by rewrite Zpower_Qpower. Qed.

Lemma ilog2_spec (q : Q) :
  (0 < q)%Q → (2 ^ ilog2 q <= q)%Q ∧ (q < 2 ^ (ilog2 q + 1))%Q.
Proof.
  intros Hq. unfold ilog2.
  set (n := Qnum q). set (d := Z.pos (Qden q)).
  assert (Hn : 0 < n) by by apply Qnum_pos.
  assert (Hd : 0 < d) by done.
  destruct (Z.log2_spec n Hn) as [Hn1 Hn2].
  destruct (Z.log2_spec d Hd) as [Hd1 Hd2].
  pose proof (Z.log2_nonneg n) as Ha. pose proof (Z.log2_nonneg d) as Hb.
  set (a := Z.log2 n) in *. set (b := Z.log2 d) in *.
  assert (Hqe : (q == inject_Z n / inject_Z d)%Q).
  { destruct q as [qn qd]. subst n d. simpl. apply Qmake_Qdiv. }
  assert (Hdq : (0 < inject_Z d)%Q)
    by (change 0%Q with (inject_Z 0); by rewrite <- Zlt_Qlt).
  assert (Hnq : (0 < inject_Z n)%Q)
    by (change 0%Q with (inject_Z 0); by rewrite <- Zlt_Qlt).
  assert (Hmul : (q * inject_Z d == inject_Z n)%Q).
  { rewrite Hqe. field. lra. }
  pose proof (two_power_pos a) as Hpa. pose proof (two_power_pos b) as Hpb.
  assert (Ha1 : (2 ^ a <= inject_Z n)%Q).
  { rewrite two_power_Z by done. by rewrite <- Zle_Qle. }
  assert (Ha2 : (inject_Z n < 2 ^ (a + 1))%Q).
  { rewrite two_power_Z by lia. by rewrite <- Zlt_Qlt. }
  assert (Hb1 : (2 ^ b <= inject_Z d)%Q).
  { rewrite two_power_Z by done. by rewrite <- Zle_Qle. }
  assert (Hb2 : (inject_Z d < 2 ^ (b + 1))%Q).
  { rewrite two_power_Z by lia. by rewrite <- Zlt_Qlt. }
  assert (Hup : (q < 2 ^ (a - b + 1))%Q).
  { assert (Hs : (2 ^ (a + 1) == 2 ^ (a - b + 1) * 2 ^ b)%Q).
    { rewrite <- two_power_add. by replace (a - b + 1 + b) with (a + 1) by lia. }
    pose proof (two_power_pos (a - b + 1)) as Hp.
    set (x := (2 ^ (a - b + 1))%Q) in *. set (y := (2 ^ b)%Q) in *.
    set (z := (2 ^ (a + 1))%Q) in *.
    set (N := inject_Z n) in *. set (D := inject_Z d) in *.
    nra. }
  assert (Hlow : (2 ^ (a - b - 1) <= q)%Q).
  { assert (Hs : (2 ^ a == 2 ^ (a - b - 1) * 2 ^ (b + 1))%Q).
    { rewrite <- two_power_add. by replace (a - b - 1 + (b + 1)) with a by lia. }
    pose proof (two_power_pos (a - b - 1)) as Hp.
    set (x := (2 ^ (a - b - 1))%Q) in *. set (y := (2 ^ (b + 1))%Q) in *.
    set (z := (2 ^ a)%Q) in *.
    set (N := inject_Z n) in *. set (D := inject_Z d) in *.
    nra. }
  destruct (Qle_bool (2 ^ (a - b)) q) eqn:Hc.
  - apply Qle_bool_iff in Hc. done.
  - split; [done|]. replace (a - b - 1 + 1) with (a - b) by lia.
    apply Qnot_le_lt. intros Hle. apply Qle_bool_iff in Hle. congruence.
Qed.

Lemma ilog2_mono (a b : Q) : (0 < a)%Q → (a <= b)%Q → ilog2 a ≤ ilog2 b.
Proof.
  intros Ha Hab.
  destruct (ilog2_spec a Ha) as [Ha1 _].
  destruct (ilog2_spec b ltac:(lra)) as [_ Hb2].
  assert (H : (2 ^ ilog2 a < 2 ^ (ilog2 b + 1))%Q) by lra.
  apply Qpower_lt_compat_l_inv in H; [lia|lra].
Qed.

Lemma rne_floor (q : Q) : Qfloor q ≤ rne q ≤ Qfloor q + 1.
Proof.
  unfold rne. destruct (_ ?= _)%Q; [destruct (Z.even _)|..]; lia.
Qed.

Lemma Qcompare_cases (a b : Q) :
  match (a ?= b)%Q with
  | Eq => (a == b)%Q
  | Lt => (a < b)%Q
  | Gt => (b < a)%Q
  end.
Proof.
  destruct (a ?= b)%Q eqn:E.
  - exact (proj2 (Qeq_alt a b) E).
  - exact (proj2 (Qlt_alt a b) E).
  - exact (proj2 (Qgt_alt a b) E).
Qed.

Lemma rne_Z (z : Z) : rne (inject_Z z) = z.
Proof.
  unfold rne. rewrite Qfloor_Z.
  pose proof (Qcompare_cases (inject_Z z - inject_Z z) (1 # 2)) as H.
  destruct (_ ?= _)%Q; [exfalso; lra|done|exfalso; lra].
Qed.

Lemma rne_mono (x y : Q) : (x <= y)%Q → rne x ≤ rne y.
Proof.
  intros Hxy. pose proof (Qfloor_resp_le x y Hxy) as Hf.
  pose proof (rne_floor x) as Hx. pose proof (rne_floor y) as Hy.
  destruct (decide (Qfloor x = Qfloor y)) as [He|Hne]; [|lia].
  unfold rne in *. rewrite <- He in *.
  pose proof (Qcompare_cases (x - inject_Z (Qfloor x)) (1 # 2)) as Hcx.
  pose proof (Qcompare_cases (y - inject_Z (Qfloor x)) (1 # 2)) as Hcy.
  destruct (x - inject_Z (Qfloor x) ?= 1 # 2)%Q;
    destruct (y - inject_Z (Qfloor x) ?= 1 # 2)%Q;
    try destruct (Z.even (Qfloor x)); try lia; exfalso; lra.
Qed.

Lemma rne_proper (x y : Q) : (x == y)%Q → rne x = rne y.
Proof.
  intros H. apply Z.le_antisymm; apply rne_mono; lra.
Qed.

Lemma rne_lower (x : Q) (n : Z) : (inject_Z n <= x)%Q → n ≤ rne x.
Proof. intros H. rewrite <- (rne_Z n). by apply rne_mono. Qed.

Lemma rne_upper (x : Q) (n : Z) : (x <= inject_Z n)%Q → rne x ≤ n.
Proof. intros H. rewrite <- (rne_Z n). by apply rne_mono. Qed.

(** *** Rounding a positive rational *)

Lemma ulp_exponent_spec (q : Q) :
  (0 < q)%Q →
  (q * 2 ^ (- ulp_exponent q) < inject_Z (2 ^ 53))%Q
  ∧ (-1074 < ulp_exponent q →
     (inject_Z (2 ^ 52) <= q * 2 ^ (- ulp_exponent q))%Q).
Proof.
  intros Hq. destruct (ilog2_spec q Hq) as [Hl Hu].
  unfold ulp_exponent. set (l := ilog2 q) in *.
  set (e := Z.max (l - 52) (-1074)).
  pose proof (two_power_pos (- e)) as Hpe.
  split.
  - assert (H : (2 ^ (l + 1) * 2 ^ (- e) <= inject_Z (2 ^ 53))%Q).
    { rewrite <- two_power_add, <- two_power_Z by lia.
      apply Qpower_le_compat_l; [lia|lra]. }
    set (x := (2 ^ (l + 1))%Q) in *. set (y := (2 ^ (- e))%Q) in *. nra.
  - intros He. assert (e = l - 52) as -> by lia.
    assert (H : (inject_Z (2 ^ 52) == 2 ^ l * 2 ^ (- (l - 52)))%Q).
    { rewrite <- two_power_add, <- two_power_Z by lia.
      by replace (l + - (l - 52)) with 52 by lia. }
    rewrite H. set (x := (2 ^ l)%Q) in *.
    pose proof (two_power_pos (- (l - 52))).
    set (y := (2 ^ (- (l - 52)))%Q) in *. nra.
Qed.

Lemma round_positive_upper (q : Q) :
  (0 < q)%Q → (round_positive q <= 2 ^ (ulp_exponent q + 53))%Q.
Proof.
  intros Hq. destruct (ulp_exponent_spec q Hq) as [Hu _].
  unfold round_positive. set (e := ulp_exponent q) in *.
  assert (Hr : rne (q * 2 ^ (- e)) ≤ 2 ^ 53) by (apply rne_upper; lra).
  rewrite Zle_Qle in Hr. rewrite (Z.add_comm e 53), two_power_add.
  rewrite (two_power_Z 53) by done.
  pose proof (two_power_pos e). set (y := (2 ^ e)%Q) in *.
  set (m := inject_Z (rne _)) in *. set (c := inject_Z (2 ^ 53)) in *. nra.
Qed.

Lemma round_positive_lower (q : Q) :
  (0 < q)%Q → -1074 < ulp_exponent q →
  (2 ^ (ulp_exponent q + 52) <= round_positive q)%Q.
Proof.
  intros Hq He. destruct (ulp_exponent_spec q Hq) as [_ Hl].
  specialize (Hl He).
  unfold round_positive. set (e := ulp_exponent q) in *.
  assert (Hr : 2 ^ 52 ≤ rne (q * 2 ^ (- e))) by (by apply rne_lower).
  rewrite Zle_Qle in Hr. rewrite (Z.add_comm e 52), two_power_add.
  rewrite (two_power_Z 52) by done.
  pose proof (two_power_pos e). set (y := (2 ^ e)%Q) in *.
  set (m := inject_Z (rne _)) in *. set (c := inject_Z (2 ^ 52)) in *. nra.
Qed.

Lemma round_positive_nonneg (q : Q) : (0 < q)%Q → (0 <= round_positive q)%Q.
Proof.
  intros Hq. unfold round_positive. set (e := ulp_exponent q).
  pose proof (two_power_pos e) as He. pose proof (two_power_pos (- e)) as He'.
  assert (Hr : 0 ≤ rne (q * 2 ^ (- e))).
  { apply rne_lower. change (inject_Z 0) with 0%Q.
    set (y := (2 ^ (- e))%Q) in *. nra. }
  rewrite Zle_Qle in Hr. change (inject_Z 0) with 0%Q in Hr.
  set (y := (2 ^ e)%Q) in *. set (m := inject_Z (rne _)) in *. nra.
Qed.

Lemma round_positive_mono (a b : Q) :
  (0 < a)%Q → (a <= b)%Q → (round_positive a <= round_positive b)%Q.
Proof.
  intros Ha Hab. assert (Hb : (0 < b)%Q) by lra.
  assert (He : ulp_exponent a ≤ ulp_exponent b).
  { unfold ulp_exponent. pose proof (ilog2_mono a b Ha Hab). lia. }
  destruct (decide (ulp_exponent a = ulp_exponent b)) as [Heq|Hne].
  - unfold round_positive. rewrite Heq. set (e := ulp_exponent b).
    pose proof (two_power_pos e) as Hp. pose proof (two_power_pos (- e)) as Hp'.
    assert (Hr : rne (a * 2 ^ (- e)) ≤ rne (b * 2 ^ (- e))).
    { apply rne_mono. set (y := (2 ^ (- e))%Q) in *. nra. }
    rewrite Zle_Qle in Hr.
    set (y := (2 ^ e)%Q) in *. set (m := inject_Z (rne (a * _))) in *.
    set (m' := inject_Z (rne (b * _))) in *. nra.
  - pose proof (round_positive_upper a Ha) as Hu.
    assert (Hn : -1074 < ulp_exponent b).
    { unfold ulp_exponent in *. lia. }
    pose proof (round_positive_lower b Hb Hn) as Hl.
    assert (Hp : (2 ^ (ulp_exponent a + 53) <= 2 ^ (ulp_exponent b + 52))%Q).
    { apply Qpower_le_compat_l; [lia|lra]. }
    lra.
Qed.

(** *** Rounding any rational *)

Lemma round_double_mono (a b : Q) :
  (a <= b)%Q → (round_double a <= round_double b)%Q.
Proof.
  intros Hab. unfold round_double.
  destruct (Qnum a) as [|pa|pa] eqn:Hna; destruct (Qnum b) as [|pb|pb] eqn:Hnb.
  - lra.
  - apply round_positive_nonneg, Qnum_pos. lia.
  - exfalso. assert (Hb : (b < 0)%Q) by (apply Qnum_neg; lia).
    assert (Ha : ¬ (a < 0)%Q) by (rewrite Qnum_neg; lia). lra.
  - exfalso. assert (Ha : (0 < a)%Q) by (apply Qnum_pos; lia).
    assert (Hb : ¬ (0 < b)%Q) by (rewrite Qnum_pos; lia). lra.
  - apply round_positive_mono; [apply Qnum_pos; lia|done].
  - exfalso. assert (Ha : (0 < a)%Q) by (apply Qnum_pos; lia).
    assert (Hb : (b < 0)%Q) by (apply Qnum_neg; lia). lra.
  - assert (Ha : (0 < - a)%Q).
    { assert (a < 0)%Q by (apply Qnum_neg; lia). lra. }
    pose proof (round_positive_nonneg _ Ha). lra.
  - assert (Ha : (0 < - a)%Q).
    { assert (a < 0)%Q by (apply Qnum_neg; lia). lra. }
    assert (Hb : (0 < b)%Q) by (apply Qnum_pos; lia).
    pose proof (round_positive_nonneg _ Ha).
    pose proof (round_positive_nonneg _ Hb). lra.
  - assert (Hb : (0 < - b)%Q).
    { assert (b < 0)%Q by (apply Qnum_neg; lia). lra. }
    pose proof (round_positive_mono (- b) (- a) Hb ltac:(lra)). lra.
Qed.

Lemma round_double_proper (a b : Q) :
  (a == b)%Q → (round_double a == round_double b)%Q.
Proof.
  intros H. apply Qle_antisym; apply round_double_mono; lra.
Qed.

Lemma round_positive_exact (q : Q) (m k : Z) :
  (q == inject_Z m * 2 ^ k)%Q → 0 < m < 2 ^ 53 → -1074 ≤ k →
  (round_positive q == q)%Q.
Proof.
  intros Hq Hm Hk.
  assert (Hmq : (0 < inject_Z m)%Q)
    by (change 0%Q with (inject_Z 0); rewrite <- Zlt_Qlt; lia).
  assert (Hmq' : (inject_Z m < inject_Z (2 ^ 53))%Q) by (rewrite <- Zlt_Qlt; lia).
  pose proof (two_power_pos k) as Hpk.
  assert (Hpos : (0 < q)%Q).
  { rewrite Hq. set (y := (2 ^ k)%Q) in *. set (x := inject_Z m) in *. nra. }
  destruct (ilog2_spec q Hpos) as [Hl _].
  assert (Hlt : (2 ^ ilog2 q < 2 ^ (53 + k))%Q).
  { rewrite two_power_add, (two_power_Z 53) by done.
    set (y := (2 ^ k)%Q) in *. set (x := inject_Z m) in *.
    set (c := inject_Z (2 ^ 53)) in *. set (z := (2 ^ ilog2 q)%Q) in *. nra. }
  apply Qpower_lt_compat_l_inv in Hlt; [|lra].
  unfold round_positive, ulp_exponent.
  set (e := Z.max (ilog2 q - 52) (-1074)).
  assert (He : e ≤ k) by lia.
  assert (Hs : (q * 2 ^ (- e) == inject_Z (m * 2 ^ (k - e)))%Q).
  { rewrite inject_Z_mult, <- two_power_Z by lia. rewrite Hq.
    replace (k - e) with (k + - e) by lia. rewrite two_power_add. ring. }
  rewrite (rne_proper _ _ Hs), rne_Z.
  rewrite inject_Z_mult, <- two_power_Z by lia.
  rewrite Hq, <- Qmult_assoc, <- two_power_add.
  by replace (k - e + e) with k by lia.
Qed.

Lemma round_double_exact (q : Q) (m k : Z) :
  (q == inject_Z m * 2 ^ k)%Q → Z.abs m < 2 ^ 53 → -1074 ≤ k →
  (round_double q == q)%Q.
Proof.
  intros Hq Hm Hk. pose proof (two_power_pos k) as Hpk.
  unfold round_double. destruct (Qnum q) as [|p|p] eqn:Hn.
  - destruct q as [n d]. simpl in Hn. subst n. done.
  - assert (Hpos : (0 < q)%Q) by (apply Qnum_pos; lia).
    apply (round_positive_exact q m k); [done| |done].
    split; [|lia]. destruct (decide (0 < m)) as [|Hneg]; [done|exfalso].
    assert (Hmq : (inject_Z m <= 0)%Q)
      by (change 0%Q with (inject_Z 0); rewrite <- Zle_Qle; lia).
    set (y := (2 ^ k)%Q) in *. set (x := inject_Z m) in *. nra.
  - assert (Hneg : (q < 0)%Q) by (apply Qnum_neg; lia).
    assert (H : (round_positive (- q) == - q)%Q).
    { apply (round_positive_exact (- q) (- m) k); [|split; [|lia]|done].
      - rewrite inject_Z_opp, Hq. ring.
      - destruct (decide (0 < - m)) as [|Hm']; [done|exfalso].
        assert (Hmq : (0 <= inject_Z m)%Q)
          by (change 0%Q with (inject_Z 0); rewrite <- Zle_Qle; lia).
        set (y := (2 ^ k)%Q) in *. set (x := inject_Z m) in *. nra. }
    rewrite H. ring.
Qed.

Lemma round_double_Z (z : Z) :
  Z.abs z < 2 ^ 53 → (round_double (inject_Z z) == inject_Z z)%Q.
Proof.
  intros Hz. apply (round_double_exact _ z 0); [|done|lia].
  rewrite Qpower_0_r. ring.
Qed.

Lemma round_double_half (z : Z) :
  Z.abs z < 2 ^ 53 →
  (round_double (inject_Z z * (1 # 2)) == inject_Z z * (1 # 2))%Q.
Proof.
  intros Hz. apply (round_double_exact _ z (-1)); [|done|lia]. done.
Qed.

Lemma round_double_0 (q : Q) : (q == 0)%Q → round_double q = 0%Q.
Proof.
  intros H. unfold round_double. destruct q as [n d].
  unfold Qeq in H. simpl in *. by replace n with 0 by lia.
Qed.

End RoundingProperties.

(** ** [shrinkToFit] *)

Section ShrinkToFitProperties.
Context {T : Type}.
Implicit Types src : list (option T).

(** Every position from [i] up to [j] holds a null pointer. *)
Definition nulls_between src (i j : nat) : Prop :=
  ∀ k, (i ≤ k < j)%nat → src !! k = Some None.

Definition count_nulls src : nat :=
  length (filter (λ o, ¬ is_Some o) src).

Lemma is_null_true src i : is_null src i = true ↔ src !! i = Some None.
Proof.
  unfold is_null. destruct (src !! i) as [[x|]|]; split; congruence.
Qed.

Lemma skip_nulls_spec src j :
  (j ≤ length src)%nat →
  (j ≤ skip_nulls src j ≤ length src)%nat ∧
  nulls_between src j (skip_nulls src j) ∧
  ((skip_nulls src j < length src)%nat →
   is_null src (skip_nulls src j) = false).
Proof.
  funelim (skip_nulls src j); intros Hj.
  - split; [lia|]. split; [intros k Hk; lia | lia].
  - destruct H as (Hle & Hnb & Hend); [lia|].
    split; [lia|]. split; [|done].
    intros k Hk. destruct (decide (k = j)) as [->|].
    + by apply is_null_true.
    + apply Hnb. lia.
  - split; [lia|]. split; [intros k Hk; lia | done].
Qed.

Lemma filter_nulls_between src i j :
  (i ≤ j ≤ length src)%nat → nulls_between src i j →
  filter is_Some (drop i src) = filter is_Some (drop j src).
Proof.
  intros Hij Hnb. induction j as [|j IH].
  - by replace i with 0%nat by lia.
  - destruct (decide (i = S j)) as [->|]; [done|].
    rewrite IH; [|lia|intros k Hk; apply Hnb; lia].
    rewrite (drop_S src None j); [|apply Hnb; lia].
    rewrite filter_cons_False; [done|]. by intros [x Hx].
Qed.

Lemma skip_from_inv src i j :
  (i < length src)%nat → is_null src i = true →
  (j ≤ i)%nat ∨ ((j ≤ length src)%nat ∧ nulls_between src i j) →
  (i < skip_nulls src (Nat.max j i) ≤ length src)%nat ∧
  nulls_between src i (skip_nulls src (Nat.max j i)) ∧
  ((skip_nulls src (Nat.max j i) < length src)%nat →
   is_null src (skip_nulls src (Nat.max j i)) = false).
Proof.
  intros Hi Hnull Hinv.
  assert (Hm : (Nat.max j i ≤ length src)%nat) by (destruct Hinv; lia).
  destruct (skip_nulls_spec src _ Hm) as (Hle & Hnb & Hend).
  assert (Hnb' : nulls_between src i (skip_nulls src (Nat.max j i))).
  { intros k Hk. destruct (decide (k < Nat.max j i)%nat).
    - destruct Hinv as [|[_ Hnb0]]; [lia|]. apply Hnb0. lia.
    - apply Hnb. lia. }
  split; [|done]. split; [|lia].
  destruct (decide (skip_nulls src (Nat.max j i) = i)) as [He|]; [|lia].
  rewrite He in Hend. rewrite Hend in Hnull by done. done.
Qed.

(** The loop invariant: the positions before [i] are final, and [j] is
    either behind [i] or reached through null pointers only. *)
Lemma shrink_loop_spec src i j :
  (j ≤ i)%nat ∨ ((j ≤ length src)%nat ∧ nulls_between src i j) →
  length (shrink_loop src i j).1 = length src ∧
  take (shrink_loop src i j).2 (shrink_loop src i j).1
    = take i src ++ filter is_Some (drop i src) ∧
  ((i ≤ length src)%nat → (i ≤ (shrink_loop src i j).2 ≤ length src)%nat) ∧
  ((length src ≤ i)%nat → shrink_loop src i j = (src, i)).
Proof.
  funelim (shrink_loop src i j); intros Hinv.
  - simpl. rewrite drop_ge by lia. rewrite filter_nil, app_nil_r.
    repeat split; try done; lia.
  - assert (Hj : (j ≤ i)%nat).
    { destruct Hinv as [|[_ Hnb]]; [done|].
      destruct (decide (j ≤ i)%nat); [done|].
      assert (is_null src i = true) by (apply is_null_true, Hnb; lia).
      congruence. }
    destruct H as (Hlen & Htake & Hle & _); [left; lia|].
    destruct (lookup_lt_is_Some_2 src i l) as [[x|] Hx];
      [|apply is_null_true in Hx; congruence].
    split; [done|]. split; [|split; [lia|lia]].
    rewrite Htake, (take_S_r _ _ _ Hx), (drop_S _ _ _ Hx).
    rewrite filter_cons_True by done. by rewrite <- app_assoc.
  - destruct (skip_from_inv src i j) as (Hlt & Hnb & _); [done..|].
    simpl. rewrite (filter_nulls_between src i (length src)); [|lia|].
    + rewrite drop_all, filter_nil, app_nil_r. repeat split; try done; lia.
    + intros k Hk. apply Hnb. lia.
  - destruct (skip_from_inv src i j) as (Hlt & _); [done..|]. lia.
  - destruct (skip_from_inv src i j) as (Hlt & Hnb & Hend); [done..|].
    set (j' := skip_nulls src (Nat.max j i)) in *.
    assert (Hi : src !! i = Some None) by by apply is_null_true.
    destruct (lookup_lt_is_Some_2 src j') as [[x|] Hx]; [lia| |].
    2:{ apply is_null_true in Hx. rewrite Hend in Hx by lia. done. }
    assert (Hsw : swap src i j' = <[j':=None]> (<[i:=Some x]> src)).
    { unfold swap. by rewrite Hi, Hx. }
    rewrite Hsw in *. clear Hsw.
    set (src2 := <[j':=None]> (<[i:=Some x]> src)) in *.
    assert (Hlen2 : length src2 = length src).
    { unfold src2. by rewrite !length_insert. }
    assert (Hnb2 : nulls_between src2 (S i) (S j')).
    { intros k Hk. unfold src2. destruct (decide (k = j')) as [->|].
      - apply list_lookup_insert_eq. rewrite length_insert. lia.
      - rewrite !list_lookup_insert_ne by lia. apply Hnb. lia. }
    destruct H as (Hlen & Htake & Hle & _).
    { right. split; [lia|]. intros k Hk. apply Hnb2. lia. }
    split; [lia|]. split; [|split; [lia|lia]].
    rewrite Htake.
    rewrite (filter_nulls_between src2 (S i) (S j')) by (done || lia).
    rewrite (filter_nulls_between src i j') by (done || lia).
    rewrite (drop_S _ _ _ Hx), filter_cons_True by done.
    unfold src2. rewrite !drop_insert_lt by lia.
    rewrite take_insert_ge by lia.
    rewrite (take_S_r _ i (Some x)).
    2:{ apply list_lookup_insert_eq. lia. }
    rewrite take_insert_ge by lia. by rewrite <- app_assoc.
Qed.

Lemma shrinkToFit_vector src begin :
  (shrinkToFit src begin).1
    = take begin src ++ filter is_Some (drop begin src).
Proof.
  unfold shrinkToFit.
  destruct (shrink_loop_spec src begin begin) as (Hlen & Htake & Hle & Hge);
    [left; lia|].
  destruct (shrink_loop src begin begin) as [src' i]; simpl in *.
  destruct (Nat.ltb_spec i (length src')); simpl; [done|].
  rewrite <- Htake. by rewrite take_ge by lia.
Qed.

Lemma count_nulls_filter src :
  (count_nulls src + length (filter is_Some src) = length src)%nat.
Proof.
  unfold count_nulls. induction src as [|o src IH]; [done|].
  rewrite !filter_cons. destruct (decide (is_Some o)).
  - rewrite decide_False by (intros H; by apply H). simpl. lia.
  - rewrite decide_True by done. simpl. lia.
Qed.

Lemma shrinkToFit_count src begin :
  (begin ≤ length src)%nat → Z.of_nat (length src) < 2 ^ 64 →
  (shrinkToFit src begin).2 = Z.of_nat (count_nulls (drop begin src)).
Proof.
  intros Hb Hsz. unfold shrinkToFit.
  destruct (shrink_loop_spec src begin begin) as (Hlen & Htake & Hle & Hge);
    [left; lia|].
  destruct (shrink_loop src begin begin) as [src' i]; simpl in *.
  specialize (Hle Hb).
  apply (f_equal length) in Htake.
  rewrite length_app, !length_take in Htake.
  pose proof (count_nulls_filter (drop begin src)) as Hc.
  rewrite length_drop in Hc.
  unfold wrap64. rewrite Z.mod_small; lia.
Qed.

Lemma shrinkToFit_count_past_end src begin :
  (length src < begin)%nat →
  (shrinkToFit src begin).2
    = wrap64 (Z.of_nat (length src) - Z.of_nat begin).
Proof.
  intros Hb. unfold shrinkToFit.
  destruct (shrink_loop_spec src begin begin) as (_ & _ & _ & Hge);
    [left; lia|].
  rewrite Hge by lia. done.
Qed.

Local Ltac follow_clauses :=
  repeat match goal with
         | H : lt_dec _ _ = _ |- _ => rewrite H; simpl
         | H : le_dec _ _ = _ |- _ => rewrite H; simpl
         | H : Nat.eq_dec _ _ = _ |- _ => rewrite H; simpl
         | H : is_null _ _ = _ |- _ => rewrite H; simpl
         end.

Lemma legacy_skip_nulls src j : Legacy.skip_nulls src j = skip_nulls src j.
Proof.
  funelim (skip_nulls src j); clear Heqcall;
    rewrite Legacy.skip_nulls_equation_1; follow_clauses; done.
Qed.

Lemma legacy_shrink_loop src i j :
  Legacy.shrink_loop src i j = shrink_loop src i j.
Proof.
  funelim (shrink_loop src i j); clear Heqcall;
    rewrite Legacy.shrink_loop_equation_1; follow_clauses;
    rewrite ?legacy_skip_nulls; follow_clauses;
    try unfold Legacy.shrink_loop_unfold_clause_1_clause_2_clause_2;
    follow_clauses; done.
Qed.

Lemma legacy_shrinkToFit src begin :
  Legacy.shrinkToFit src begin = (shrinkToFit src begin).1.
Proof.
  unfold Legacy.shrinkToFit, shrinkToFit. rewrite legacy_shrink_loop.
  by destruct (shrink_loop src begin begin).
Qed.

(** C10, as the code has it.  Whatever [begin] is, [shrinkToFit] keeps
    the elements before [begin] and replaces the rest by its non-null
    elements in their order, and the older variant yields the same
    vector.  The count the newer variant returns is the number of null
    entries removed when [begin] does not exceed the size of the vector;
    past the end it is [src.size() - begin] reduced modulo [2 ^ 64]. *)
Theorem shrinkToFit_stable_compaction src begin :
  (shrinkToFit src begin).1
    = take begin src ++ filter is_Some (drop begin src)
  ∧ Legacy.shrinkToFit src begin = (shrinkToFit src begin).1
  ∧ ((begin ≤ length src)%nat → Z.of_nat (length src) < 2 ^ 64 →
     (shrinkToFit src begin).2 = Z.of_nat (count_nulls (drop begin src))
     ∧ (shrinkToFit src begin).2
       = Z.of_nat (length src) - Z.of_nat (length (shrinkToFit src begin).1))
  ∧ ((length src < begin)%nat →
     (shrinkToFit src begin).2
       = wrap64 (Z.of_nat (length src) - Z.of_nat begin)).
Proof.
  split; [apply shrinkToFit_vector|].
  split; [apply legacy_shrinkToFit|].
  split; [|apply shrinkToFit_count_past_end].
  intros Hb Hsz. split; [by apply shrinkToFit_count|].
  rewrite shrinkToFit_count, shrinkToFit_vector by done.
  pose proof (count_nulls_filter (drop begin src)) as Hc.
  rewrite length_drop in Hc.
  rewrite length_app, length_take. lia.
Qed.

End ShrinkToFitProperties.

(** ** [Polisher::polish] *)

Section PolishProperties.

(** The name of [e] carries the tag [LN:i:] followed by the length of the
    data of [e] in decimal, between the optional [r] and the tag [RC:i:]. *)
Definition has_length_tag (e : Sequence) : Prop :=
  ∃ name r coverage ratio : string,
    name_ e = (name ++ r ++ " LN:i:" ++ pretty (size (data_ e))
                 ++ " RC:i:" ++ coverage ++ " XC:f:" ++ ratio)%string.

(** [st] has appended to [dst0] only sequences that satisfy [P]. *)
Definition extends (P : Sequence → Prop) (dst0 : list Sequence)
  (st : polish_state) : Prop :=
  ∃ emitted, dst st = dst0 ++ emitted ∧ Forall P emitted.

Lemma foldl_invariant {A B : Type} (I : A → Prop) (f : A → B → A)
  (l : list B) (a : A) :
  I a → (∀ a b, I a → I (f a b)) → I (foldl f a l).
Proof.
  intros Ha Hf. revert a Ha. induction l as [|b l IH]; intros a Ha; simpl.
  - done.
  - apply IH, Hf, Ha.
Qed.

Lemma emit_extends (P : Sequence → Prop) p drop w st dst0 :
  extends P dst0 st →
  (∀ name, P (createSequence name (polished_data st))) →
  extends P dst0 (emit p drop w st).
Proof.
  intros (emitted & Hdst & Hall) HP. unfold emit, extends. simpl.
  destruct (negb drop || _).
  - eexists (emitted ++ [_]). rewrite Hdst, <- app_assoc. split; [done|].
    apply Forall_app. split; [done|]. apply Forall_singleton, HP.
  - by exists emitted.
Qed.

Lemma emit_has_length_tag p drop w st dst0 :
  extends has_length_tag dst0 st →
  extends has_length_tag dst0 (emit p drop w st).
Proof.
  intros (emitted & Hdst & Hall). unfold emit, extends. simpl.
  destruct (negb drop || _).
  - eexists (emitted ++ [_]). rewrite Hdst, <- app_assoc. split; [done|].
    apply Forall_app. split; [done|]. apply Forall_singleton.
    unfold has_length_tag. simpl. by eexists _, _, _, _.
  - by exists emitted.
Qed.

Lemma polish_default_step_has_length_tag p drop results dst0 st i :
  extends has_length_tag dst0 st →
  extends has_length_tag dst0 (polish_default_step p drop results st i).
Proof.
  intros H. unfold polish_default_step.
  destruct (is_last _ _); [by apply emit_has_length_tag|done].
Qed.

Lemma polish_overlap_step_has_length_tag p drop results dst0 st i :
  extends has_length_tag dst0 st →
  extends has_length_tag dst0 (polish_overlap_step p drop results st i).
Proof.
  intros H. unfold polish_overlap_step.
  destruct (is_last _ _); [by apply emit_has_length_tag|done].
Qed.

(** C7.  In default mode and in overlap mode alike, [polish] appends to
    [dst] only sequences whose name carries [LN:i:] followed by the length
    of their data. *)
Theorem polish_length_tag (p : Polisher) (dst0 : list Sequence) (drop : bool) :
  ∃ emitted,
    (polish p dst0 drop).2 = dst0 ++ emitted
    ∧ Forall has_length_tag emitted.
Proof.
  unfold polish. simpl.
  apply (foldl_invariant (extends has_length_tag dst0)).
  - exists []. simpl. by rewrite app_nil_r.
  - intros st i Hst. destruct (Qeq_bool overlap_percentage_ 0).
    + by apply polish_default_step_has_length_tag.
    + by apply polish_overlap_step_has_length_tag.
Qed.

(** *** Strings and truncation *)

Lemma append_nil_l (s : string) : ("" ++ s)%string = s.
Proof. reflexivity. Qed.

Lemma append_cons (c : ascii) (s t : string) :
  (String c s ++ t)%string = String c (s ++ t)%string.
Proof. reflexivity. Qed.

Lemma substring_all (s : string) : substring 0 (String.length s) s = s.
Proof. induction s; simpl; [done|]. by f_equal. Qed.

Lemma substring_split (s : string) (n : nat) :
  (n ≤ String.length s)%nat →
  (substring 0 n s ++ substring n (String.length s - n) s)%string = s.
Proof.
  revert n. induction s as [|c s IH]; intros [|n] H; simpl in *;
    try lia; try done.
  - by rewrite append_nil_l, substring_all.
  - rewrite append_cons. f_equal. apply IH. lia.
Qed.

Lemma length_substring_0 (s : string) (n : nat) :
  (n ≤ String.length s)%nat → String.length (substring 0 n s) = n.
Proof.
  revert n. induction s as [|c s IH]; intros [|n] H; simpl in *;
    try lia; try done.
  f_equal. apply IH. lia.
Qed.

Lemma substr_prefix_tail (s : string) (k : Z) :
  0 ≤ k ≤ size s → (substr s 0 k ++ substr_from s k)%string = s.
Proof.
  intros Hk. unfold substr_from, substr, size in *.
  rewrite Z.sub_0_r, Z.min_l, Z.min_id by lia.
  replace (Z.to_nat 0) with 0%nat by done.
  replace (Z.to_nat (Z.of_nat (String.length s) - k))
    with (String.length s - Z.to_nat k)%nat by lia.
  apply substring_split. lia.
Qed.

Lemma size_substr_prefix (s : string) (k : Z) :
  0 ≤ k ≤ size s → size (substr s 0 k) = k.
Proof.
  intros Hk. unfold substr, size in *.
  rewrite Z.sub_0_r, Z.min_l by lia.
  replace (Z.to_nat 0) with 0%nat by done.
  rewrite length_substring_0; lia.
Qed.

Lemma trunc_floor (q : Q) : (0 <= q)%Q → trunc q = Qfloor q.
Proof.
  destruct q as [n d]. unfold Qle, trunc, Qfloor. simpl. intros H.
  apply Z.quot_div_nonneg; lia.
Qed.

Lemma Qmult_comm_eq (x y : Q) : (x * y)%Q = (y * x)%Q.
Proof. unfold Qmult. f_equal; [apply Z.mul_comm | apply Pos.mul_comm]. Qed.

Lemma round_double_between (x n : Q) (z : Z) :
  (n == inject_Z z)%Q → 0 ≤ z < 2 ^ 53 → (0 <= x)%Q → (x <= n)%Q →
  (0 <= round_double x)%Q ∧ (round_double x <= n)%Q.
Proof.
  intros Hn Hz H0 H1. split.
  - change 0%Q with (round_double 0). by apply round_double_mono.
  - pose proof (round_double_mono x n H1) as H.
    pose proof (round_double_proper _ _ Hn) as Hp.
    pose proof (round_double_Z z ltac:(lia)) as He. lra.
Qed.

Lemma overlap_start_bounds (c : string) :
  (0 <= overlap_percentage_)%Q → (overlap_percentage_ <= 1 # 2)%Q →
  size c < 2 ^ 53 →
  overlap_start c
    = Qfloor
        (round_double
           (inject_Z (size c)
            - round_double (2 * overlap_percentage_ * inject_Z (size c))))
  ∧ 0 ≤ overlap_start c ≤ size c.
Proof.
  intros H0 H1 Hsz. unfold overlap_start, total_overlap.
  assert (Hn : (0 <= inject_Z (size c))%Q).
  { rewrite <- (Zle_Qle 0). unfold size. lia. }
  assert (Hz : 0 ≤ size c < 2 ^ 53) by (unfold size in *; lia).
  set (n := inject_Z (size c)) in *.
  destruct (round_double_between (2 * overlap_percentage_ * n) n (size c))
    as [Hp0 Hp1]; [done|done|nra|nra|].
  set (prod := round_double (2 * overlap_percentage_ * n)) in *.
  destruct (round_double_between (n - prod) n (size c))
    as [Hd0 Hd1]; [done|done|lra|lra|].
  rewrite trunc_floor by done. split; [done|]. split.
  - change 0 with (Qfloor 0). by apply Qfloor_resp_le.
  - rewrite <- (Qfloor_Z (size c)). by apply Qfloor_resp_le.
Qed.

(** The state of the loop of the overlap mode (lines 601-736) once the
    windows before position [n] have been visited. *)
Definition overlap_mode_visited (p : Polisher) (dst0 : list Sequence)
  (drop : bool) (results : list (Window * bool)) (n : nat) : polish_state :=
  foldl (polish_overlap_step p drop results)
    {| polished_data := ""; num_polished_windows := 0; dst := dst0 |}
    (seq 0 n).

Lemma overlap_mode_visited_S p dst0 drop results (n : nat) :
  overlap_mode_visited p dst0 drop results (S n)
  = polish_overlap_step p drop results
      (overlap_mode_visited p dst0 drop results n) n.
Proof. unfold overlap_mode_visited. by rewrite seq_S, foldl_app. Qed.

Lemma polish_overlap_step_dst p drop results st (i : nat) :
  ∃ emitted, dst (polish_overlap_step p drop results st i) = dst st ++ emitted.
Proof.
  unfold polish_overlap_step, emit.
  destruct (is_last _ _); simpl.
  - destruct (negb drop || _); [by eexists|].
    exists []. by rewrite app_nil_r.
  - exists []. by rewrite app_nil_r.
Qed.

Lemma overlap_mode_visited_dst p dst0 drop results (n m : nat) :
  (n ≤ m)%nat →
  ∃ rest,
    dst (overlap_mode_visited p dst0 drop results m)
    = dst (overlap_mode_visited p dst0 drop results n) ++ rest.
Proof.
  induction 1 as [|m Hle [rest IH]].
  - exists []. by rewrite app_nil_r.
  - rewrite overlap_mode_visited_S.
    destruct (polish_overlap_step_dst p drop results
                (overlap_mode_visited p dst0 drop results m) m)
      as [emitted ->].
    exists (rest ++ emitted). by rewrite IH, app_assoc.
Qed.

Lemma is_last_before_rank_0 (windows : list Window) (i : nat) (w : Window) :
  windows !! S i = Some w → rank_ w = 0 → is_last windows i = true.
Proof.
  intros Hw Hrank. unfold is_last, window_at.
  rewrite Nat.add_1_r, Hw. simpl. rewrite Hrank.
  apply orb_true_r.
Qed.

(** C9, as the code has it.  In overlap mode a target that has a single
    window, a window of rank 0 that is the last of the vector or is
    followed by a window of rank 0, is emitted with the consensus [c] of
    that window as its body.  The prefix taken for rank 0 is made of the
    first ⌊|c| − 2·overlap_percentage·|c|⌋ characters of [c], the product
    and the difference being rounded to [double]; the tail taken for the
    last window starts at the same position, and the two make up [c].  The
    loop reaches the window with no data pending, appends at most one
    sequence to [dst] while it visits the window, and that sequence stays
    in what [polish] returns. *)
Theorem single_window_body (p : Polisher) (dst0 : list Sequence)
  (drop : bool) (i : nat) (w : Window) :
  Qeq_bool overlap_percentage_ 0 = false →
  (0 <= overlap_percentage_)%Q → (overlap_percentage_ <= 1 # 2)%Q →
  let results := (λ w, generate_consensus w false) <$> windows_ p in
  let windows := fst <$> results in
  windows !! i = Some w → rank_ w = 0 → is_last windows i = true →
  size (consensus_ w) < 2 ^ 53 →
  let c := consensus_ w in
  let start :=
    Qfloor
      (round_double
         (inject_Z (size c)
          - round_double (2 * overlap_percentage_ * inject_Z (size c)))) in
  let reached := overlap_mode_visited p dst0 drop results i in
  let left := overlap_mode_visited p dst0 drop results (S i) in
  overlap_start c = start
  ∧ size (substr c 0 start) = start
  ∧ (substr c 0 start ++ substr_from c start)%string = c
  ∧ polished_data reached = ""%string
  ∧ (∃ emitted,
       dst left = dst reached ++ emitted
       ∧ Forall (λ e, data_ e = c) emitted
       ∧ (length emitted ≤ 1)%nat
       ∧ (drop = false → length emitted = 1%nat))
  ∧ ∃ rest, (polish p dst0 drop).2 = dst left ++ rest.
Proof.
  intros Hmode H0 H1 results windows Hw Hrank Hlast Hsz c start reached left.
  destruct (overlap_start_bounds c H0 H1 Hsz) as [Hfloor Hbounds].
  fold start in Hfloor.
  assert (Hdata : polished_data reached = ""%string).
  { unfold reached. destruct i as [|j]; [done|].
    rewrite overlap_mode_visited_S. unfold polish_overlap_step.
    fold windows. by rewrite (is_last_before_rank_0 windows j w). }
  split; [done|]. rewrite <- Hfloor.
  split; [by apply size_substr_prefix|].
  split; [by apply substr_prefix_tail|].
  split; [done|]. split.
  - unfold left. rewrite overlap_mode_visited_S. fold reached.
    unfold polish_overlap_step. fold windows. rewrite Hlast.
    unfold window_at. rewrite Hw. simpl. rewrite Hrank. simpl.
    rewrite Hdata, append_nil_l. fold c.
    rewrite (Qmult_comm_eq (inject_Z (size c)) total_overlap).
    fold (overlap_start c).
    rewrite (substr_prefix_tail c (overlap_start c) Hbounds).
    unfold emit. simpl.
    destruct (negb drop || _) eqn:Hemit.
    + eexists [_]. split; [done|]. split; [by apply Forall_singleton|].
      split; simpl; [lia|done].
    + exists []. split; [by rewrite app_nil_r|]. split; [done|].
      split; simpl; [lia|]. intros ->. done.
  - assert (Hi : (S i ≤ length results)%nat).
    { apply lookup_lt_Some in Hw. unfold windows in Hw.
      rewrite length_fmap in Hw. lia. }
    destruct (overlap_mode_visited_dst p dst0 drop results _ _ Hi)
      as [rest Hrest].
    exists rest. unfold left. rewrite <- Hrest. unfold polish.
    by rewrite Hmode.
Qed.

(** *** The junction of two windows *)

(** The data accumulated once the windows at positions 0 and 1 have been
    visited in overlap mode. *)
Definition after_first_stitch (p : Polisher) (drop : bool)
  (results : list (Window * bool)) : polish_state :=
  foldl (polish_overlap_step p drop results)
    {| polished_data := ""; num_polished_windows := 0; dst := [] |}
    [0; 1]%nat.

Lemma is_last_inner (windows : list Window) (i : nat) (x : Window) :
  windows !! (i + 1)%nat = Some x → rank_ x ≠ 0 →
  Z.of_nat (length windows) < 2 ^ 64 →
  is_last windows i = false.
Proof.
  intros Hx Hrank Hlen. unfold is_last, window_at. rewrite Hx. simpl.
  apply lookup_lt_Some in Hx.
  apply orb_false_iff. split.
  - apply Z.eqb_neq. unfold wrap64. rewrite Z.mod_small; lia.
  - by apply Z.eqb_neq.
Qed.

(** C1, as the code has it.  With [overlap_percentage = 0.25], a first
    window of consensus AAAAGGGG and a next window of consensus GGGGTTTT:
    [len_l] is 4; [len_r] is 4 when a further window of the target follows
    and 8, the whole window, when none does.  When a further window follows
    and the alignment of the two tails GGGG is the perfect match, the data
    accumulated after the stitch is AAAAGGGG, the junction GGGG being taken
    once, nothing is emitted yet, and the last four characters TTTT of the
    second window are the left tail of the next stitch. *)
Theorem stitch_boundary (p : Polisher) (drop : bool) (wl wr x : Window)
  (bl br bx : bool) (rest : list (Window * bool)) :
  overlap_percentage_ = 1 # 4 →
  generate_multiple_sequence_alignment "GGGG" "GGGG" = ["GGGG"; "GGGG"]%string →
  consensus_ wl = "AAAAGGGG"%string → rank_ wl = 0 →
  consensus_ wr = "GGGGTTTT"%string → rank_ wr ≠ 0 →
  rank_ x ≠ 0 → Z.of_nat (length rest) + 3 < 2 ^ 64 →
  let st :=
    after_first_stitch p drop ((wl, bl) :: (wr, br) :: (x, bx) :: rest) in
  left_length wl = 4
  ∧ right_length wr false = 4
  ∧ right_length wr true = 8
  ∧ polished_data st = "AAAAGGGG"%string
  ∧ dst st = []
  ∧ substr (consensus_ wr) (wrap32 (size (consensus_ wr) - left_length wr))
      (left_length wr) = "TTTT"%string.
Proof.
  intros Hp Hmsa Hcl Hrl Hcr Hrr Hrx Hlen st.
  assert (Hll : left_length wl = 4).
  { unfold left_length, overlap_length, total_overlap. by rewrite Hcl, Hp. }
  assert (Hlr : left_length wr = 4).
  { unfold left_length, overlap_length, total_overlap. by rewrite Hcr, Hp. }
  assert (Hrf : right_length wr false = 4).
  { unfold right_length, overlap_length, total_overlap. by rewrite Hcr, Hp. }
  assert (Hrt : right_length wr true = 8).
  { unfold right_length. by rewrite Hcr. }
  assert (Hstitch : stitch wl wr false = "GGGG"%string).
  { unfold stitch. rewrite Hll, Hrf, Hcl, Hcr.
    change (substr "AAAAGGGG" (wrap32 (size "AAAAGGGG" - 4)) 4)
      with "GGGG"%string.
    change (substr "GGGGTTTT" 0 4) with "GGGG"%string.
    rewrite Hmsa. by vm_compute. }
  repeat (split; [done|]). split; [|split].
  - unfold st, after_first_stitch. simpl.
    unfold polish_overlap_step at 2. simpl.
    rewrite (is_last_inner _ 0 wr); [|done|done|simpl; rewrite length_fmap; lia].
    unfold window_at at 1. simpl. rewrite Hrl. simpl.
    unfold polish_overlap_step. simpl.
    rewrite (is_last_inner _ 1 x); [|done|done|simpl; rewrite length_fmap; lia].
    unfold window_at. simpl. apply Z.eqb_neq in Hrr. rewrite Hrr. simpl.
    rewrite Hstitch, Hcl. unfold overlap_start, total_overlap. rewrite Hp.
    by vm_compute.
  - unfold st, after_first_stitch. simpl.
    unfold polish_overlap_step at 2. simpl.
    rewrite (is_last_inner _ 0 wr); [|done|done|simpl; rewrite length_fmap; lia].
    unfold polish_overlap_step. simpl.
    by rewrite (is_last_inner _ 1 x); [|done|done|simpl; rewrite length_fmap; lia].
  - by rewrite Hlr, Hcr.
Qed.


End PolishProperties.


(** ** The window builder *)

Section WindowProperties.

(** ⌈[sz] / [window_length_]⌉ *)
Definition window_count (sz : Z) : Z :=
  (sz + window_length_ - 1) / window_length_.

(** Where window [k] of a target of length [sz] starts and ends. *)
Definition window_start (k : Z) : Z :=
  if k =? 0 then 0 else k * window_length_ - offset.
Definition window_end (sz k : Z) : Z :=
  Z.min ((k + 1) * window_length_ + offset) sz.

Definition nth_window (window_type : WindowType) (i sz : Z)
  (has_quality : bool) (k : Z) : Window :=
  createWindow i k window_type (negb (Qeq_bool overlap_percentage_ 0))
    (window_start k) (window_end sz k - window_start k) has_quality.

Lemma wrap32_small (z : Z) : 0 ≤ z < 2 ^ 32 → wrap32 z = z.
Proof. intros H. unfold wrap32. by rewrite Z.mod_small. Qed.

Lemma wrap64_small (z : Z) : 0 ≤ z < 2 ^ 64 → wrap64 z = z.
Proof. intros H. unfold wrap64. by rewrite Z.mod_small. Qed.

Local Ltac unwrap32 :=
  repeat match goal with
         | |- context [wrap32 ?z] => rewrite (wrap32_small z) by (lia || nia)
         end.

Lemma offset_floor :
  0 < window_length_ < 2 ^ 32 →
  (0 <= overlap_percentage_)%Q → (overlap_percentage_ <= 1 # 2)%Q →
  (0 <= round_double (inject_Z window_length_ * overlap_percentage_))%Q
  ∧ (round_double (inject_Z window_length_ * overlap_percentage_)
     <= inject_Z window_length_ * (1 # 2))%Q
  ∧ offset
    = Qfloor (round_double (inject_Z window_length_ * overlap_percentage_)).
Proof.
  intros Hwl H0 H1. unfold offset.
  set (product :=
         round_double (inject_Z window_length_ * overlap_percentage_)).
  assert (Hn : (0 < inject_Z window_length_)%Q).
  { rewrite <- (Zlt_Qlt 0). lia. }
  set (n := inject_Z window_length_) in *.
  assert (Hp0 : (0 <= product)%Q).
  { change 0%Q with (round_double 0). apply round_double_mono. nra. }
  assert (Hp1 : (product <= n * (1 # 2))%Q).
  { pose proof (round_double_mono (n * overlap_percentage_) (n * (1 # 2))
                  ltac:(nra)) as H.
    pose proof (round_double_half window_length_ ltac:(lia)) as He.
    fold n in He. fold product in H. lra. }
  split; [done|]. split; [done|].
  rewrite trunc_floor by done.
  assert (0 ≤ Qfloor product ≤ window_length_).
  { split.
    - change 0 with (Qfloor 0). by apply Qfloor_resp_le.
    - rewrite <- (Qfloor_Z window_length_). apply Qfloor_resp_le.
      fold n. lra. }
  by rewrite wrap32_small by lia.
Qed.

Lemma offset_bounds :
  0 < window_length_ < 2 ^ 32 →
  (0 <= overlap_percentage_)%Q → (overlap_percentage_ <= 1 # 2)%Q →
  offset
    = Qfloor (round_double (inject_Z window_length_ * overlap_percentage_))
  ∧ 0 ≤ offset ≤ window_length_.
Proof.
  intros Hwl H0 H1. destruct (offset_floor Hwl H0 H1) as (Hp0 & Hp1 & Ho).
  split; [done|]. rewrite Ho. split.
  - change 0 with (Qfloor 0). by apply Qfloor_resp_le.
  - assert (Hn : (0 < inject_Z window_length_)%Q).
    { rewrite <- (Zlt_Qlt 0). lia. }
    assert (Hle : (round_double (inject_Z window_length_ * overlap_percentage_)
                   <= inject_Z window_length_)%Q) by lra.
    apply Qfloor_resp_le in Hle. by rewrite Qfloor_Z in Hle.
Qed.

Lemma window_count_spec (sz k : Z) :
  0 < window_length_ → 0 ≤ sz →
  (k * window_length_ < sz ↔ k < window_count sz).
Proof.
  intros Hwl Hsz. unfold window_count.
  pose proof (Z.div_mod (sz + window_length_ - 1) window_length_) as Hdm.
  pose proof (Z.mod_pos_bound (sz + window_length_ - 1) window_length_) as Hm.
  split; intros H; nia.
Qed.

(** The loop from its [k]-th round on. *)
Lemma window_loop_run (fuel : nat) (window_type : WindowType) (i sz : Z)
  (has_quality : bool) (k : Z) (windows : list Window) :
  0 < window_length_ → 0 ≤ offset ≤ window_length_ →
  0 ≤ sz → sz + 2 * window_length_ < 2 ^ 32 →
  0 ≤ k ≤ window_count sz → window_count sz - k ≤ Z.of_nat fuel →
  window_loop fuel window_type i sz has_quality (k * window_length_) k windows
  = Some (windows
            ++ (nth_window window_type i sz has_quality
                  <$> seqZ k (window_count sz - k)),
          window_count sz).
Proof.
  intros Hwl Ho Hsz Hmax. revert k windows.
  induction fuel as [|fuel IH]; intros k windows Hk Hfuel.
  - assert (k = window_count sz) as -> by lia.
    simpl. rewrite Z.sub_diag. simpl. rewrite app_nil_r.
    destruct (Z.ltb_spec (window_count sz * window_length_) sz) as [Hlt|]; [|done].
    apply window_count_spec in Hlt; lia.
  - simpl. destruct (Z.ltb_spec (k * window_length_) sz) as [Hlt|Hge]; simpl.
    + apply window_count_spec in Hlt as Hkn; [|lia..].
      assert (Hn : window_count sz ≤ sz).
      { destruct (Z.le_gt_cases (window_count sz) sz) as [|Hgt]; [done|].
        assert (sz < window_count sz) as Hc by lia.
        apply window_count_spec in Hc; [|lia..]. nia. }
      rewrite (wrap32_small (k * window_length_ + window_length_)) by nia.
      rewrite (wrap32_small (k + 1)) by lia.
      replace (k * window_length_ + window_length_)
        with ((k + 1) * window_length_) by lia.
      rewrite IH by lia.
      f_equal. f_equal. rewrite <- app_assoc. f_equal.
      replace (window_count sz - k) with (Z.succ (window_count sz - (k + 1)))
        by lia.
      rewrite (seqZ_cons k) by lia. rewrite fmap_cons.
      replace (Z.succ k) with (k + 1) by lia.
      replace (Z.pred (Z.succ (window_count sz - (k + 1))))
        with (window_count sz - (k + 1)) by lia.
      simpl. f_equal. unfold nth_window, window_start, window_end.
      destruct (Z.eqb_spec k 0) as [->|Hk0].
      * simpl. unwrap32. f_equal; lia.
      * destruct (Z.ltb_spec 0 (k * window_length_)) as [Hpos|]; [|nia].
        unwrap32. f_equal; lia.
    + assert (k = window_count sz) as ->.
      { destruct (Z.eq_dec k (window_count sz)) as [|Hne]; [done|].
        assert (k < window_count sz) as Hc by lia.
        apply window_count_spec in Hc; lia. }
      rewrite Z.sub_diag. simpl. by rewrite app_nil_r.
Qed.

Lemma window_count_le (sz : Z) :
  0 < window_length_ → 0 ≤ sz → 0 ≤ window_count sz ≤ sz.
Proof.
  intros Hwl Hsz. split.
  - apply Z.div_pos; lia.
  - destruct (Z.le_gt_cases (window_count sz) sz) as [|Hgt]; [done|].
    assert (sz < window_count sz) as Hc by lia.
    apply window_count_spec in Hc; [|lia..]. nia.
Qed.

Lemma nth_window_lookup (window_type : WindowType) (i sz : Z)
  (has_quality : bool) (n : Z) (k : nat) (w : Window) :
  (nth_window window_type i sz has_quality <$> seqZ 0 n) !! k = Some w →
  Z.of_nat k < n ∧ w = nth_window window_type i sz has_quality (Z.of_nat k).
Proof.
  rewrite list_lookup_fmap. intros H.
  destruct (seqZ 0 n !! k) as [z|] eqn:Hz; [|done].
  apply lookup_seqZ in Hz as [-> Hk]. simpl in H. split; [lia|].
  by injection H as <-.
Qed.

(** C4, as the code has it.  For a target of length [sz] the builder adds
    ⌈sz / window_length⌉ windows.  With offset = ⌊window_length ·
    overlap_percentage⌋, the product being rounded to [double], window [k]
    ends at (k + 1) · window_length + offset, clipped at the end of the
    target, whatever [k] is; it starts at k · window_length, moved left by
    offset only when [k > 0].  Two consecutive windows thus share
    2 · offset positions unless the first one is clipped. *)
Theorem window_builder_spans (window_type : WindowType) (i sz : Z)
  (has_quality : bool) (windows : list Window) :
  0 < window_length_ →
  (0 <= overlap_percentage_)%Q → (overlap_percentage_ <= 1 # 2)%Q →
  0 ≤ sz → sz + 2 * window_length_ < 2 ^ 32 →
  ∃ new,
    window_loop (Z.to_nat sz) window_type i sz has_quality 0 0 windows
      = Some (windows ++ new, window_count sz)
    ∧ Z.of_nat (length new) = window_count sz
    ∧ offset
      = Qfloor
          (round_double (inject_Z window_length_ * overlap_percentage_))
    ∧ (∀ (k : nat) w, new !! k = Some w →
         id_ w = i ∧ rank_ w = Z.of_nat k
         ∧ backbone_start_ w
           = (if decide (k = 0%nat) then 0
              else Z.of_nat k * window_length_ - offset)
         ∧ backbone_start_ w + backbone_length_ w
           = Z.min ((Z.of_nat k + 1) * window_length_ + offset) sz)
    ∧ (∀ (k : nat) w w', new !! k = Some w → new !! S k = Some w' →
         (Z.of_nat k + 1) * window_length_ + offset ≤ sz →
         backbone_start_ w + backbone_length_ w - backbone_start_ w'
         = 2 * offset).
Proof.
  intros Hwl H0 H1 Hsz Hmax.
  destruct (offset_bounds ltac:(lia) H0 H1) as [Hfloor Ho].
  pose proof (window_count_le sz Hwl Hsz) as Hn.
  exists (nth_window window_type i sz has_quality <$> seqZ 0 (window_count sz)).
  split; [|split; [|split; [done|split]]].
  - pose proof (window_loop_run (Z.to_nat sz) window_type i sz has_quality 0
                  windows Hwl Ho Hsz Hmax) as Hrun.
    rewrite Z.mul_0_l, Z.sub_0_r in Hrun. apply Hrun; lia.
  - rewrite length_fmap, length_seqZ. lia.
  - intros k w Hw. apply nth_window_lookup in Hw as [Hk ->].
    unfold nth_window, window_start, window_end. simpl.
    repeat split; [|lia].
    destruct (decide (k = 0%nat)) as [->|Hk0]; [done|].
    destruct (Z.eqb_spec (Z.of_nat k) 0); [lia|done].
  - intros k w w' Hw Hw' Hfit.
    apply nth_window_lookup in Hw as [Hk ->].
    apply nth_window_lookup in Hw' as [Hk' ->].
    unfold nth_window, window_start, window_end. simpl.
    destruct (Z.eqb_spec (Z.of_nat (S k)) 0); [lia|]. lia.
Qed.


End WindowProperties.


(** ** The layer assigner *)

Section LayerProperties.


Lemma Qltb_lt (a b : Q) : Qltb a b = true ↔ (a < b)%Q.
Proof.
  unfold Qltb. rewrite negb_true_iff. split.
  - intros H. apply Qnot_le_lt. intros Hle.
    apply Qle_bool_iff in Hle. congruence.
  - intros H. destruct (Qle_bool b a) eqn:Hle; [|done].
    apply Qle_bool_iff in Hle. by apply Qlt_not_le in H.
Qed.








End LayerProperties.


(** ** [Polisher::initialize]: the fatal conditions *)

Section InitializeProperties.

Lemma register_target_size (i : nat) (st : loader) :
  sequences_size (register_target i st) = sequences_size st
  ∧ sequences_ (register_target i st) = sequences_ st.
Proof. unfold register_target. by repeat case_match. Qed.

Lemma register_targets_size (targets : list Sequence) :
  sequences_size (register_targets targets) = 0
  ∧ sequences_ (register_targets targets) = Some <$> targets.
Proof.
  unfold register_targets.
  apply (foldl_invariant
           (λ st, sequences_size st = 0 ∧ sequences_ st = Some <$> targets)).
  - done.
  - intros st i [H1 H2].
    destruct (register_target_size i st) as [-> ->]. done.
Qed.

Lemma load_chunk_nil (st : loader) :
  ∃ st', load_chunk [] st = Done st'
         ∧ sequences_size st' = sequences_size st.
Proof. unfold load_chunk. simpl. by eexists. Qed.

Lemma load_chunks_empty (chunks : list (list Sequence)) (st : loader) :
  concat chunks = [] →
  ∃ st', load_chunks chunks st = Done st'
         ∧ sequences_size st' = sequences_size st.
Proof.
  revert st. induction chunks as [|chunk rest IH]; intros st Hc.
  - apply load_chunk_nil.
  - simpl in Hc. apply app_eq_nil in Hc as [-> Hrest].
    destruct (load_chunk_nil st) as (st1 & H1 & Hs1).
    destruct rest as [|chunk' rest'].
    + simpl. eauto.
    + change (load_chunks ([] :: chunk' :: rest') st)
        with (load_chunk [] st ≫= load_chunks (chunk' :: rest')).
      rewrite H1. simpl.
      destruct (IH st1 Hrest) as (st' & H' & Hs'). exists st'.
      split; [done|congruence].
Qed.

(** C8.  On a polisher that holds no windows yet, [initialize] ends the
    run with [exit(1)] and a message on the standard error stream when the
    set of targets is empty, when the set of sequences is empty, and when
    no overlap is left after filtering; it never returns in these cases. *)
Theorem initialize_fatal_on_empty_input (p : Polisher)
  (targets : list Sequence) (sequences : list (list Sequence))
  (overlaps : list (list Overlap)) :
  windows_ p = [] →
  (targets = [] →
   initialize p targets sequences overlaps = Exit 1 empty_targets_message)
  ∧ (targets ≠ [] → concat sequences = [] →
     initialize p targets sequences overlaps = Exit 1 empty_sequences_message)
  ∧ (∀ st, load_sequences targets sequences = Done st →
     overlaps_ (normalized_overlaps (length targets) st overlaps) = [] →
     initialize p targets sequences overlaps = Exit 1 empty_overlaps_message)
  ∧ empty_targets_message ≠ ""%string
  ∧ empty_sequences_message ≠ ""%string
  ∧ empty_overlaps_message ≠ ""%string.
Proof.
  intros Hw. unfold initialize. rewrite Hw. simpl.
  split; [|split; [|split]].
  - intros ->. done.
  - intros Ht Hs. unfold load_sequences.
    destruct targets as [|t targets]; [done|]. simpl.
    destruct (load_chunks_empty sequences (register_targets (t :: targets)) Hs)
      as (st' & -> & Hsz). simpl.
    rewrite Hsz. by destruct (register_targets_size (t :: targets)) as [-> _].
  - intros st -> Hov. simpl. unfold load_overlaps. by rewrite Hov.
  - done.
Qed.

End InitializeProperties.


(** ** Overlap normalization *)

Section NormalizeProperties.

Implicit Types ov : list (option Overlap).

(** The overlap passes the filters of lines 289-290. *)
Definition passes_filters (o : Overlap) : bool :=
  negb (Qltb error_threshold_ (error_ o) || (q_id_ o =? t_id_ o)).

(** Position [k] holds an overlap (not a null pointer). *)
Definition live ov (k : nat) : Prop := ∃ o, ov !! k = Some (Some o).

(** [ov'] is [ov] with some positions of [[b, e)] reset to null. *)
Definition only_nulled (b e : nat) ov ov' : Prop :=
  length ov' = length ov
  ∧ ∀ k, ov' !! k = ov !! k ∨ ((b ≤ k < e)%nat ∧ ov' !! k = Some None).

(** Every overlap of [ov] in [[b, e)] is at most as long as one that is
    left in [ov'] in [[b, e)]. *)
Definition dominated (b e : nat) ov ov' : Prop :=
  ∀ k o, (b ≤ k < e)%nat → ov !! k = Some (Some o) →
    ∃ m om, (b ≤ m < e)%nat ∧ ov' !! m = Some (Some om)
            ∧ length_ o ≤ length_ om.

Lemma only_nulled_refl b e ov : only_nulled b e ov ov.
Proof. split; [done|]. intros k. by left. Qed.

Lemma only_nulled_trans b e b1 e1 b2 e2 ov ov1 ov2 :
  (b ≤ b1)%nat → (e1 ≤ e)%nat → (b ≤ b2)%nat → (e2 ≤ e)%nat →
  only_nulled b1 e1 ov ov1 → only_nulled b2 e2 ov1 ov2 →
  only_nulled b e ov ov2.
Proof.
  intros ? ? ? ? [Hl1 H1] [Hl2 H2]. split; [congruence|].
  intros k. destruct (H2 k) as [->|[? ?]].
  - destruct (H1 k) as [->|[? ?]]; [by left|right]. split; [lia|done].
  - right. split; [lia|done].
Qed.

Lemma only_nulled_insert b e ov k :
  (b ≤ k < e)%nat → only_nulled b e ov (<[k := None]> ov).
Proof.
  intros Hk. split; [by rewrite length_insert|].
  intros k'. destruct (decide (k' = k)) as [->|Hne].
  - destruct (decide (k < length ov)%nat).
    + right. split; [done|]. by apply list_lookup_insert_eq.
    + left. by rewrite list_insert_ge by lia.
  - left. by rewrite list_lookup_insert_ne.
Qed.

Lemma only_nulled_live b e ov ov' k o :
  only_nulled b e ov ov' → ov' !! k = Some (Some o) → ov !! k = Some (Some o).
Proof. intros [_ H] Hk. destruct (H k) as [<-|[_ ?]]; congruence. Qed.

Lemma only_nulled_outside b e ov ov' k :
  only_nulled b e ov ov' → ¬ (b ≤ k < e)%nat → ov' !! k = ov !! k.
Proof. intros [_ H] Hk. destruct (H k) as [|[? _]]; [done|lia]. Qed.

Lemma only_nulled_dead b e ov ov' k :
  only_nulled b e ov ov' → ¬ live ov k → ¬ live ov' k.
Proof.
  intros Hn Hk [o Ho]. apply Hk. exists o. by eapply only_nulled_live.
Qed.

Lemma dominated_trans b e ov ov1 ov2 :
  dominated b e ov ov1 → dominated b e ov1 ov2 → dominated b e ov ov2.
Proof.
  intros H1 H2 k o Hk Ho.
  destruct (H1 k o Hk Ho) as (m & om & Hm & Hom & Hle).
  destruct (H2 m om Hm Hom) as (m' & om' & Hm' & Hom' & Hle').
  exists m', om'. repeat split; try done; lia.
Qed.

(** The inner loop: only positions [i] and [[j, j + n)] are reset, each
    reset overlap is dominated, and in the end either [i] is reset or
    nothing is left in [[j, j + n)]. *)
Lemma remove_shorter_spec (n j i b e : nat) ov oi :
  (b ≤ i)%nat → (i < j)%nat → (j + n ≤ e)%nat →
  ov !! i = Some (Some oi) →
  only_nulled i (j + n) ov (remove_shorter n j i ov)
  ∧ dominated b e ov (remove_shorter n j i ov)
  ∧ (remove_shorter n j i ov !! i = Some None
     ∨ ∀ k, (j ≤ k < j + n)%nat → ¬ live (remove_shorter n j i ov) k).
Proof.
  intros Hb. revert j ov. induction n as [|n IH]; intros j ov Hij He Hi.
  - simpl. split; [apply only_nulled_refl|]. split.
    + intros k o Hk Ho. exists k, o. split; [done|]. split; [done|lia].
    + right. intros k Hk. lia.
  - simpl. rewrite Hi.
    destruct (ov !! j) as [[oj|]|] eqn:Hj.
    + destruct (Z.gtb_spec (length_ oi) (length_ oj)) as [Hgt|Hle].
      * assert (Hi' : <[j := None]> ov !! i = Some (Some oi)).
        { by rewrite list_lookup_insert_ne by lia. }
        destruct (IH (S j) (<[j := None]> ov)) as (Hn & Hd & Hx);
          [lia|lia|done|].
        split; [|split].
        -- apply (only_nulled_trans i (j + S n) i (j + S n) i (S j + n)
                    ov (<[j := None]> ov)); [lia..| |done].
           apply only_nulled_insert. lia.
        -- eapply dominated_trans; [|exact Hd].
           intros k o Hk Ho. destruct (decide (k = j)) as [->|Hne].
           ++ exists i, oi. rewrite Hj in Ho. injection Ho as <-.
              split; [lia|]. split; [done|lia].
           ++ exists k, o. split; [done|].
              rewrite list_lookup_insert_ne by done. split; [done|lia].
        -- destruct Hx as [Hx|Hx]; [by left|right].
           intros k Hk. destruct (decide (k = j)) as [->|Hne].
           ++ apply (only_nulled_dead _ _ _ _ _ Hn).
              intros [o Ho]. apply lookup_lt_Some in Hj.
              rewrite list_lookup_insert_eq in Ho by done. done.
           ++ apply Hx. lia.
      * split; [|split].
        -- apply (only_nulled_trans i (j + S n) i (S i) i (S i)
                    ov (<[i := None]> ov));
             [lia..|apply only_nulled_insert; lia|apply only_nulled_refl].
        -- intros k o Hk Ho. destruct (decide (k = i)) as [->|Hne].
           ++ exists j, oj. rewrite Hi in Ho. injection Ho as <-.
              split; [lia|]. rewrite list_lookup_insert_ne by lia.
              split; [done|lia].
           ++ exists k, o. split; [done|].
              rewrite list_lookup_insert_ne by done. split; [done|lia].
        -- left. apply lookup_lt_Some in Hi.
           by rewrite list_lookup_insert_eq.
    + destruct (IH (S j) ov) as (Hn & Hd & Hx); [lia|lia|done|].
      split; [|split; [done|]].
      * apply (only_nulled_trans i (j + S n) i (S j + n) i (S j + n)
                 ov (remove_shorter n (S j) i ov));
          [lia..|done|apply only_nulled_refl].
      * destruct Hx as [Hx|Hx]; [by left|right].
        intros k Hk. destruct (decide (k = j)) as [->|Hne].
        -- apply (only_nulled_dead _ _ _ _ _ Hn). intros [o Ho]. congruence.
        -- apply Hx. lia.
    + destruct (IH (S j) ov) as (Hn & Hd & Hx); [lia|lia|done|].
      split; [|split; [done|]].
      * apply (only_nulled_trans i (j + S n) i (S j + n) i (S j + n)
                 ov (remove_shorter n (S j) i ov));
          [lia..|done|apply only_nulled_refl].
      * destruct Hx as [Hx|Hx]; [by left|right].
        intros k Hk. destruct (decide (k = j)) as [->|Hne].
        -- apply (only_nulled_dead _ _ _ _ _ Hn). intros [o Ho]. congruence.
        -- apply Hx. lia.
Qed.

Lemma dominated_extend (i e : nat) ov ov' :
  only_nulled (S i) e ov ov' → dominated (S i) e ov ov' → dominated i e ov ov'.
Proof.
  intros Hn Hd k o Hk Ho. destruct (decide (k = i)) as [->|Hne].
  - exists i, o. split; [done|]. split; [|lia].
    rewrite (only_nulled_outside _ _ _ _ _ Hn) by lia. done.
  - destruct (Hd k o) as (m & om & Hm & Hom & Hle); [lia|done|].
    exists m, om. split; [lia|done].
Qed.

Lemma dominated_refl (b e : nat) ov : dominated b e ov ov.
Proof. intros k o Hk Ho. exists k, o. split; [done|]. split; [done|lia]. Qed.

Definition all_pass (b e : nat) ov : Prop :=
  ∀ k o, (b ≤ k < e)%nat → ov !! k = Some (Some o) → passes_filters o = true.

Lemma all_pass_nulled (b e b' e' bn en : nat) ov ov' :
  (b ≤ b')%nat → (e' ≤ e)%nat →
  only_nulled bn en ov ov' → all_pass b e ov → all_pass b' e' ov'.
Proof.
  intros ? ? Hn Hp k o Hk Ho. apply (Hp k o); [lia|].
  by eapply only_nulled_live.
Qed.

(** The outer loop of [remove_invalid_overlaps] on [[i, e)]. *)
Lemma remove_invalid_loop_spec (n i e : nat) ov :
  (i + n = e)%nat →
  only_nulled i e ov (remove_invalid_loop n i e ov)
  ∧ all_pass i e (remove_invalid_loop n i e ov)
  ∧ (type_ = kC → ∀ m, (i ≤ m < e)%nat →
       live (remove_invalid_loop n i e ov) m →
       ∀ k, (m < k < e)%nat → ¬ live (remove_invalid_loop n i e ov) k)
  ∧ (all_pass i e ov → dominated i e ov (remove_invalid_loop n i e ov))
  ∧ (type_ = kF → ∀ k o, ov !! k = Some (Some o) →
       passes_filters o = true →
       remove_invalid_loop n i e ov !! k = Some (Some o)).
Proof.
  revert i ov. induction n as [|n IH]; intros i ov Hie.
  - simpl. split; [apply only_nulled_refl|].
    split; [intros k o Hk; lia|]. split; [intros _ m Hm; lia|].
    split; [intros _; apply dominated_refl|]. by intros _ k o Ho _.
  - simpl.
    assert (Hstep : ∀ ov1,
      only_nulled i e ov ov1 →
      (∀ o, ov1 !! i = Some (Some o) → passes_filters o = true) →
      (type_ = kC → live ov1 i → ∀ k, (S i ≤ k < e)%nat → ¬ live ov1 k) →
      (all_pass i e ov → dominated i e ov ov1) →
      (type_ = kF → ∀ k o, ov !! k = Some (Some o) →
         passes_filters o = true → ov1 !! k = Some (Some o)) →
      only_nulled i e ov (remove_invalid_loop n (S i) e ov1)
      ∧ all_pass i e (remove_invalid_loop n (S i) e ov1)
      ∧ (type_ = kC → ∀ m, (i ≤ m < e)%nat →
           live (remove_invalid_loop n (S i) e ov1) m →
           ∀ k, (m < k < e)%nat →
             ¬ live (remove_invalid_loop n (S i) e ov1) k)
      ∧ (all_pass i e ov →
         dominated i e ov (remove_invalid_loop n (S i) e ov1))
      ∧ (type_ = kF → ∀ k o, ov !! k = Some (Some o) →
           passes_filters o = true →
           remove_invalid_loop n (S i) e ov1 !! k = Some (Some o))).
    { intros ov1 Hn1 Hgood1 Hex1 Hdom1 Hf1.
      destruct (IH (S i) ov1) as (Hn & Hp & Hex & Hdom & Hf); [lia|].
      split; [|split; [|split; [|split]]].
      - apply (only_nulled_trans i e i e (S i) e ov ov1); (lia || done).
      - intros k o Hk Ho. destruct (decide (k = i)) as [->|Hne].
        + apply Hgood1.
          rewrite <- (only_nulled_outside _ _ _ _ i Hn) by lia. done.
        + apply (Hp k o); [lia|done].
      - intros HC m Hm Hlive k Hk. destruct (decide (m = i)) as [->|Hne].
        + apply (only_nulled_dead _ _ _ _ _ Hn). apply Hex1; [done| |lia].
          destruct Hlive as [o Ho]. exists o.
          rewrite <- (only_nulled_outside _ _ _ _ i Hn) by lia. done.
        + apply (Hex HC m); [lia|done|lia].
      - intros Hall. eapply dominated_trans; [by apply Hdom1|].
        apply dominated_extend; [done|]. apply Hdom.
        eapply (all_pass_nulled i e (S i) e); [| |exact Hn1|exact Hall]; lia.
      - intros HF k o Ho Hgo. apply Hf; [done| |done]. by apply Hf1. }
    destruct (ov !! i) as [[o|]|] eqn:Hi.
    + destruct (Qltb error_threshold_ (error_ o) || (q_id_ o =? t_id_ o))
        eqn:Hbad.
      * apply Hstep.
        -- apply only_nulled_insert. lia.
        -- intros o'. apply lookup_lt_Some in Hi.
           by rewrite list_lookup_insert_eq.
        -- intros _ [o' Ho']. apply lookup_lt_Some in Hi.
           by rewrite list_lookup_insert_eq in Ho'.
        -- intros Hall. specialize (Hall i o ltac:(lia) Hi).
           unfold passes_filters in Hall. by rewrite Hbad in Hall.
        -- intros _ k o' Ho' Hgo. destruct (decide (k = i)) as [->|Hne].
           ++ rewrite Hi in Ho'. injection Ho' as <-.
              unfold passes_filters in Hgo. by rewrite Hbad in Hgo.
           ++ by rewrite list_lookup_insert_ne.
      * destruct (decide (type_ = kC)) as [HC|HC].
        -- destruct (remove_shorter_spec (e - S i) (S i) i i e ov o)
             as (Hn1 & Hd1 & Hx1); [lia..|done|].
           replace (S i + (e - S i))%nat with e in * by lia.
           apply Hstep.
           ++ done.
           ++ intros o' Ho'.
              apply (only_nulled_live _ _ _ _ _ _ Hn1) in Ho'.
              rewrite Hi in Ho'. injection Ho' as <-.
              unfold passes_filters. by rewrite Hbad.
           ++ intros _ [o' Ho'] k Hk.
              destruct Hx1 as [Hx1|Hx1]; [congruence|]. by apply Hx1.
           ++ by intros _.
           ++ intros HF. congruence.
        -- apply Hstep.
           ++ apply only_nulled_refl.
           ++ intros o' Ho'. rewrite Hi in Ho'. injection Ho' as <-.
              unfold passes_filters. by rewrite Hbad.
           ++ done.
           ++ intros _. apply dominated_refl.
           ++ by intros _ k o' Ho' _.
    + apply Hstep.
      * apply only_nulled_refl.
      * intros o' Ho'. congruence.
      * intros _ [o' Ho']. congruence.
      * intros _. apply dominated_refl.
      * by intros _ k o' Ho' _.
    + apply Hstep.
      * apply only_nulled_refl.
      * intros o' Ho'. congruence.
      * intros _ [o' Ho']. congruence.
      * intros _. apply dominated_refl.
      * by intros _ k o' Ho' _.
Qed.


(** *** The scan of one chunk *)

Section Scan.

Variable transmute : Overlap → Overlap.
Variable chunk : list Overlap.



Lemma remove_invalid_overlaps_spec ov (b e : nat) :
  (b ≤ e)%nat →
  only_nulled b e ov (remove_invalid_overlaps ov b e)
  ∧ all_pass b e (remove_invalid_overlaps ov b e)
  ∧ (type_ = kC → ∀ m, (b ≤ m < e)%nat →
       live (remove_invalid_overlaps ov b e) m →
       ∀ k, (m < k < e)%nat → ¬ live (remove_invalid_overlaps ov b e) k)
  ∧ (all_pass b e ov → dominated b e ov (remove_invalid_overlaps ov b e))
  ∧ (type_ = kF → ∀ k o, ov !! k = Some (Some o) →
       passes_filters o = true →
       remove_invalid_overlaps ov b e !! k = Some (Some o)).
Proof.
  intros Hbe. unfold remove_invalid_overlaps.
  apply remove_invalid_loop_spec. lia.
Qed.





End Scan.


Lemma omap_filter_is_Some {A : Type} (l : list (option A)) :
  omap id (filter is_Some l) = omap id l.
Proof.
  induction l as [|[a|] l IH]; [done| |].
  - rewrite filter_cons_True by done. simpl. by f_equal.
  - rewrite filter_cons_False by (by intros [? ?]). done.
Qed.

(** The overlaps [normalize_chunks] leaves when the parser yields all
    overlaps in one chunk. *)
Lemma normalize_single_chunk (transmute : Overlap → Overlap)
  (chunk : list Overlap) (st : normalizer) :
  overlaps_ st = [] → l_ st = 0 →
  ∃ ov c,
    foldl (scan_overlap transmute) (Some <$> chunk, 0%nat)
      (seq 0 (length chunk)) = (ov, c)
    ∧ overlaps_ (normalize_chunks transmute [chunk] st)
      = filter is_Some (remove_invalid_overlaps ov c (length ov)).
Proof.
  intros Hov Hl. simpl. unfold normalize_chunk. rewrite Hov, Hl.
  change (Z.to_nat 0) with 0%nat. rewrite app_nil_l.
  rewrite length_fmap, Nat.sub_0_r.
  destruct (foldl (scan_overlap transmute) (Some <$> chunk, 0%nat)
              (seq 0 (length chunk))) as [ov c] eqn:Hscan.
  exists ov, c. split; [done|].
  destruct (foldl (mark_strand _) _ _) as [hd hrd].
  pose proof (shrinkToFit_vector
                (remove_invalid_overlaps ov c (length ov)) 0) as Hs.
  destruct (shrinkToFit _ 0) as [ov' n]. simpl in *.
  by rewrite Hs.
Qed.






End NormalizeProperties.


(** ** Loading the sequences *)

Section LoadProperties.

Variable targets : list Sequence.

(** The id of the target under whose name the sequence [s] arrives, if
    any: what line 237 finds. *)
Definition names_target (s : Sequence) : option Z :=
  name_to_id (register_targets targets) !! (name_ s ++ "t")%string.

Definition same_lengths (s t : Sequence) : Prop :=
  size (data_ s) = size (data_ t) ∧ size (quality_ s) = size (quality_ t).

(** What becomes of a loaded sequence in [sequences_]: it is reset when
    it has the name of a target. *)
Definition mark (s : Sequence) : option Sequence :=
  match names_target s with
  | Some _ => None
  | None => Some s
  end.

Lemma append_char_inj (s1 s2 : string) (c1 c2 : ascii) :
  (s1 ++ String c1 "")%string = (s2 ++ String c2 "")%string →
  s1 = s2 ∧ c1 = c2.
Proof.
  revert s2. induction s1 as [|a s1 IH]; intros [|b s2] H.
  - rewrite !append_nil_l in H. by injection H.
  - rewrite append_nil_l, append_cons in H. injection H as _ H.
    destruct s2; rewrite ?append_nil_l, ?append_cons in H; done.
  - rewrite append_nil_l, append_cons in H. injection H as _ H.
    destruct s1; rewrite ?append_nil_l, ?append_cons in H; done.
  - rewrite !append_cons in H. injection H as -> H.
    destruct (IH s2 H) as [-> ->]. done.
Qed.

Lemma register_prefix (n : nat) :
  (n ≤ length targets)%nat →
  let st :=
    foldl (λ st i, register_target i st)
      {| sequences_ := Some <$> targets; name_to_id := ∅; id_to_id := ∅;
         sequences_size := 0; total_sequences_length := 0 |}
      (seq 0 n) in
  sequences_ st = Some <$> targets
  ∧ (∀ key tid, name_to_id st !! key = Some tid →
       ∃ (i : nat) t, (i < n)%nat ∧ tid = Z.of_nat i
                      ∧ targets !! i = Some t
                      ∧ key = (name_ t ++ "t")%string)
  ∧ (∀ (i : nat) t, (i < n)%nat → targets !! i = Some t →
       is_Some (name_to_id st !! (name_ t ++ "t")%string)).
Proof.
  induction n as [|n IH]; intros Hn.
  - simpl. split; [done|]. split; [|intros i t Hi; lia].
    intros key tid H. by rewrite lookup_empty in H.
  - rewrite seq_S, foldl_app. simpl.
    destruct IH as (Hseq & Hkeys & Hall); [lia|].
    set (st := foldl _ _ (seq 0 n)) in *.
    destruct (lookup_lt_is_Some_2 targets n) as [t Ht]; [lia|].
    unfold register_target. rewrite Hseq, list_lookup_fmap, Ht. simpl.
    split; [done|]. split.
    + intros key tid H.
      destruct (decide (key = (name_ t ++ "t")%string)) as [->|Hne].
      * rewrite lookup_insert_eq in H. injection H as <-.
        exists n, t. split; [lia|done].
      * rewrite lookup_insert_ne in H by done.
        destruct (Hkeys key tid H) as (i & t' & Hi & Hrest).
        exists i, t'. split; [lia|done].
    + intros i t' Hi Ht'.
      destruct (decide ((name_ t' ++ "t")%string = (name_ t ++ "t")%string))
        as [->|Hne].
      * rewrite lookup_insert_eq. by eexists.
      * rewrite lookup_insert_ne by done. apply (Hall i); [|done].
        destruct (decide (i = n)) as [->|]; [|lia]. congruence.
Qed.

(** [name_to_id] after the targets are registered: a key is bound exactly
    when it is the name of a target followed by ["t"], and it is bound to
    the position of a target of that name. *)
Lemma register_targets_lookup :
  sequences_ (register_targets targets) = Some <$> targets
  ∧ (∀ key tid, name_to_id (register_targets targets) !! key = Some tid →
       ∃ (i : nat) t, tid = Z.of_nat i ∧ targets !! i = Some t
                      ∧ key = (name_ t ++ "t")%string)
  ∧ (∀ t, t ∈ targets →
       is_Some (name_to_id (register_targets targets)
                  !! (name_ t ++ "t")%string)).
Proof.
  destruct (register_prefix (length targets)) as (Hseq & Hkeys & Hall);
    [lia|].
  split; [done|]. split.
  - intros key tid H. destruct (Hkeys key tid H) as (i & t & _ & Hrest).
    by exists i, t.
  - intros t Ht. apply list_elem_of_lookup in Ht as [i Hi].
    apply (Hall i); [|done]. by apply lookup_lt_Some in Hi.
Qed.

Lemma names_target_inv (s : Sequence) (tid : Z) :
  names_target s = Some tid →
  ∃ (i : nat) t, tid = Z.of_nat i ∧ targets !! i = Some t
                 ∧ name_ t = name_ s.
Proof.
  intros H. destruct register_targets_lookup as (_ & Hkeys & _).
  destruct (Hkeys _ _ H) as (i & t & -> & Ht & Hkey).
  exists i, t. split; [done|]. split; [done|].
  by apply append_char_inj in Hkey as [-> _].
Qed.

(** The sequence does not have the name of a target. *)
Definition is_query (s : Sequence) : Prop := names_target s = None.

(** The sequences of [qs] that stay in [sequences_]. *)
Definition kept (qs : list Sequence) : list Sequence := filter is_query qs.

(** Every sequence of [qs] that has the name of a target is redirected to
    that target, in both tables, and has the lengths of that target. *)
Definition redirected (qs : list Sequence) (st : loader) : Prop :=
  ∀ (k : nat) s tid, qs !! k = Some s → names_target s = Some tid →
    id_to_id st !! (2 * Z.of_nat k) = Some tid
    ∧ name_to_id st !! (name_ s ++ "q")%string = Some tid
    ∧ ∃ t, targets !! Z.to_nat tid = Some t ∧ name_ t = name_ s
           ∧ same_lengths s t.

Definition target_keys_kept (st : loader) : Prop :=
  ∀ nm, name_to_id st !! (nm ++ "t")%string
        = name_to_id (register_targets targets) !! (nm ++ "t")%string.

(** [sequences_] when the first [m] sequences of [chunk] have been
    visited, [qs] having been loaded before. *)
Definition expected (qs chunk : list Sequence) (m : nat) :
  list (option Sequence) :=
  (Some <$> targets ++ kept qs)
    ++ (mark <$> take m chunk) ++ (Some <$> drop m chunk).

Definition processing (qs chunk : list Sequence) (m : nat)
  (st : loader) : Prop :=
  sequences_ st = expected qs chunk m
  ∧ sequences_size st = Z.of_nat (length qs + m)
  ∧ target_keys_kept st
  ∧ redirected (qs ++ take m chunk) st.

(** A sequence of the name of a target whose lengths differ from it. *)
Definition unequal_duplicate (s : Sequence) : Prop :=
  ∃ tid t, names_target s = Some tid ∧ targets !! Z.to_nat tid = Some t
           ∧ ¬ same_lengths s t.

Lemma expected_lookup_target qs chunk m (i : nat) t :
  targets !! i = Some t → expected qs chunk m !! i = Some (Some t).
Proof.
  intros Ht. unfold expected.
  rewrite lookup_app_l.
  2:{ rewrite length_fmap, length_app. apply lookup_lt_Some in Ht. lia. }
  rewrite list_lookup_fmap, lookup_app_l by (by apply lookup_lt_Some in Ht).
  by rewrite Ht.
Qed.

Lemma expected_lookup_current qs chunk m s :
  chunk !! m = Some s →
  expected qs chunk m !! (length targets + length (kept qs) + m)%nat
  = Some (Some s).
Proof.
  intros Hs. unfold expected. apply lookup_lt_Some in Hs as Hm.
  rewrite lookup_app_r by (rewrite length_fmap, length_app; lia).
  rewrite length_fmap, length_app.
  rewrite lookup_app_r by (rewrite length_fmap, length_take; lia).
  rewrite length_fmap, length_take.
  replace (length targets + length (kept qs) + m
           - (length targets + length (kept qs)) - m `min` length chunk)%nat
    with 0%nat by lia.
  rewrite list_lookup_fmap, lookup_drop, Nat.add_0_r, Hs. done.
Qed.

Lemma expected_step qs chunk m s :
  chunk !! m = Some s →
  expected qs chunk (S m)
  = <[(length targets + length (kept qs) + m)%nat := mark s]>
      (expected qs chunk m).
Proof.
  intros Hs. unfold expected. apply lookup_lt_Some in Hs as Hm.
  rewrite (take_S_r _ _ _ Hs), (drop_S _ _ _ Hs), (fmap_app mark). simpl.
  rewrite insert_app_r_alt by (rewrite length_fmap, length_app; lia).
  rewrite length_fmap, length_app. f_equal.
  rewrite insert_app_r_alt by (rewrite length_fmap, length_take; lia).
  rewrite length_fmap, length_take.
  replace (length targets + length (kept qs) + m
           - (length targets + length (kept qs)) - m `min` length chunk)%nat
    with 0%nat by lia.
  by rewrite <- app_assoc.
Qed.

Lemma query_key_fresh (nm nm' : string) :
  (nm ++ "q")%string ≠ (nm' ++ "t")%string.
Proof. intros H. by apply append_char_inj in H as [_ ?]. Qed.

Lemma shiftl_key (k : Z) : 0 ≤ k < 2 ^ 63 → wrap64 (Z.shiftl k 1) = 2 * k.
Proof.
  intros Hk. rewrite Z.shiftl_mul_pow2 by lia.
  rewrite wrap64_small; lia.
Qed.


Lemma redirected_snoc_query qs s st :
  names_target s = None → redirected qs st → redirected (qs ++ [s]) st.
Proof.
  intros Hs Hr k s' tid Hk Htid.
  destruct (decide (k < length qs)%nat) as [Hlt|Hge].
  - rewrite lookup_app_l in Hk by done. by apply (Hr k).
  - rewrite lookup_app_r in Hk by lia.
    destruct (k - length qs)%nat; simpl in Hk; [|done].
    injection Hk as <-. congruence.
Qed.

(** One round of the loop of lines 234-257. *)
Lemma load_sequence_processing qs chunk (m : nat) (st : loader) (n : Z) s :
  processing qs chunk m st → chunk !! m = Some s →
  Z.of_nat (length qs + length chunk) < 2 ^ 63 →
  (unequal_duplicate s
   ∧ load_sequence (length targets + length (kept qs) + m) (st, n)
     = Exit 1 (duplicate_message s))
  ∨ (∃ st' n',
       load_sequence (length targets + length (kept qs) + m) (st, n)
       = Done (st', n')
       ∧ processing qs chunk (S m) st').
Proof.
  intros (Hseq & Hsize & Hkeys & Hred) Hs Hbound.
  apply lookup_lt_Some in Hs as Hm.
  unfold load_sequence.
  rewrite Hseq, (expected_lookup_current qs chunk m s Hs).
  rewrite Hkeys. fold (names_target s).
  assert (Hkey : wrap64 (Z.shiftl (sequences_size st) 1)
                 = 2 * Z.of_nat (length qs + m)).
  { rewrite Hsize. apply shiftl_key. lia. }
  assert (Hnext : wrap64 (sequences_size st + 1)
                  = Z.of_nat (length qs + S m)).
  { rewrite Hsize, wrap64_small; lia. }
  assert (Hold : ∀ k : nat, (k < length qs + m)%nat →
            2 * Z.of_nat (length qs + m) ≠ 2 * Z.of_nat k) by (intros; lia).
  assert (Hlen : length (qs ++ take m chunk) = (length qs + m)%nat).
  { rewrite length_app, length_take. lia. }
  destruct (names_target s) as [tid|] eqn:Htid.
  - destruct (names_target_inv s tid Htid) as (i0 & t & -> & Ht & Hname).
    rewrite Nat2Z.id, (expected_lookup_target qs chunk m i0 t Ht).
    destruct (negb (size (data_ s) =? size (data_ t))
              || negb (size (quality_ s) =? size (quality_ t))) eqn:Hcmp.
    + left. split; [|done]. exists (Z.of_nat i0), t.
      rewrite Nat2Z.id. split; [done|]. split; [done|].
      intros [Hd Hq]. apply orb_true_iff in Hcmp as [H|H];
        apply negb_true_iff, Z.eqb_neq in H; done.
    + right. eexists _, _. split; [done|].
      apply orb_false_iff in Hcmp as [Hd Hq].
      apply negb_false_iff, Z.eqb_eq in Hd, Hq.
      unfold processing, target_keys_kept;
        cbn [sequences_ name_to_id id_to_id sequences_size fst];
        split; [|split; [|split]].
      * rewrite (expected_step qs chunk m s Hs). unfold mark.
        by rewrite Htid.
      * done.
      * intros nm. rewrite lookup_insert_ne by apply query_key_fresh.
        apply Hkeys.
      * rewrite (take_S_r _ _ _ Hs), app_assoc.
        intros k s' tid' Hk Htid'.
        cbn [sequences_ name_to_id id_to_id sequences_size]. rewrite Hkey.
        destruct (decide (k < length qs + m)%nat) as [Hlt|Hge].
        -- rewrite lookup_app_l in Hk by lia.
           destruct (Hred k s' tid' Hk Htid') as (H1 & H2 & H3).
           split; [by rewrite lookup_insert_ne by (by apply Hold)|].
           split; [|done].
           destruct (decide (name_ s = name_ s')) as [Heq|Hne].
           ++ rewrite Heq, lookup_insert_eq. unfold names_target in *.
              rewrite Heq in Htid. congruence.
           ++ rewrite lookup_insert_ne; [done|].
              intros Hq'. by apply append_char_inj in Hq' as [? _].
        -- rewrite lookup_app_r in Hk by lia. rewrite Hlen in Hk.
           destruct (k - (length qs + m))%nat eqn:Hd0; simpl in Hk; [|done].
           injection Hk as <-. assert (k = (length qs + m)%nat) as -> by lia.
           rewrite lookup_insert_eq. rewrite Htid in Htid'.
           injection Htid' as <-. split; [done|].
           rewrite lookup_insert_eq. split; [done|].
           exists t. rewrite Nat2Z.id. done.
  - right. eexists _, _. split; [done|].
    unfold processing, target_keys_kept;
      cbn [sequences_ name_to_id id_to_id sequences_size fst];
      split; [|split; [|split]].
    + rewrite (expected_step qs chunk m s Hs). unfold mark. rewrite Htid.
      rewrite list_insert_id; [done|].
      rewrite <- Hseq. rewrite Hseq.
      apply (expected_lookup_current qs chunk m s Hs).
    + done.
    + intros nm. rewrite lookup_insert_ne by apply query_key_fresh.
      apply Hkeys.
    + rewrite (take_S_r _ _ _ Hs), app_assoc.
      apply redirected_snoc_query; [done|].
      intros k s' tid' Hk Htid'.
      destruct (Hred k s' tid' Hk Htid') as (H1 & H2 & H3).
      apply lookup_lt_Some in Hk as Hklt. rewrite Hlen in Hklt.
      cbn [sequences_ name_to_id id_to_id sequences_size]. rewrite Hkey. split; [by rewrite lookup_insert_ne by (by apply Hold)|].
      split; [|done].
      rewrite lookup_insert_ne; [done|].
      intros Hq'. apply append_char_inj in Hq' as [Hq' _].
      unfold names_target in *. rewrite Hq' in Htid. congruence.
Qed.


Lemma for_range_S {S : Type} (lo n : nat) (body : nat → S → outcome S)
  (s : S) :
  for_range lo (Datatypes.S n) body s
  = body lo s ≫= for_range (Datatypes.S lo) n body.
Proof. reflexivity. Qed.

Lemma bind_Done {A B : Type} (a : A) (k : A → outcome B) :
  Done a ≫= k = k a.
Proof. reflexivity. Qed.

Lemma bind_Exit {A B : Type} (code : Z) (msg : string) (k : A → outcome B) :
  Exit code msg ≫= k = Exit code msg.
Proof. reflexivity. Qed.

Lemma for_range_processing qs chunk (r m : nat) (st : loader) (n : Z) :
  (m + r = length chunk)%nat → processing qs chunk m st →
  Z.of_nat (length qs + length chunk) < 2 ^ 63 →
  (∃ s, s ∈ chunk ∧ unequal_duplicate s
        ∧ for_range (length targets + length (kept qs) + m) r load_sequence
            (st, n) = Exit 1 (duplicate_message s))
  ∨ (∃ st' n',
       for_range (length targets + length (kept qs) + m) r load_sequence
         (st, n) = Done (st', n')
       ∧ processing qs chunk (length chunk) st').
Proof.
  revert m st n. induction r as [|r IH]; intros m st n Hmr Hp Hbound.
  - right. exists st, n. split; [done|]. by replace (length chunk) with m by lia.
  - destruct (lookup_lt_is_Some_2 chunk m) as [s Hs]; [lia|].
    rewrite for_range_S.
    destruct (load_sequence_processing qs chunk m st n s Hp Hs Hbound)
      as [[Hdup ->]|(st' & n' & -> & Hp')].
    + left. exists s. split; [by eapply list_elem_of_lookup_2|done].
    + rewrite bind_Done.
      replace (S (length targets + length (kept qs) + m))
        with (length targets + length (kept qs) + S m)%nat by lia.
      apply IH; (lia || done).
Qed.

(** What holds of the loader when the sequences [qs] have been loaded. *)
Definition loaded (qs : list Sequence) (st : loader) : Prop :=
  sequences_ st = Some <$> targets ++ kept qs
  ∧ sequences_size st = Z.of_nat (length qs)
  ∧ target_keys_kept st
  ∧ redirected qs st.

Lemma filter_mark (chunk : list Sequence) :
  filter is_Some (mark <$> chunk) = Some <$> kept chunk.
Proof.
  unfold kept. induction chunk as [|s chunk IH]; [done|].
  rewrite fmap_cons. destruct (names_target s) as [tid|] eqn:Hs.
  - assert (Hm : mark s = None) by (unfold mark; by rewrite Hs).
    rewrite Hm, filter_cons_False by (by intros [? ?]).
    rewrite filter_cons_False; [done|]. unfold is_query. congruence.
  - assert (Hm : mark s = Some s) by (unfold mark; by rewrite Hs).
    rewrite Hm, filter_cons_True by done.
    rewrite filter_cons_True by done. rewrite fmap_cons. by f_equal.
Qed.

Lemma load_chunk_loaded qs chunk (st : loader) :
  loaded qs st → Z.of_nat (length qs + length chunk) < 2 ^ 63 →
  (∃ s, s ∈ chunk ∧ unequal_duplicate s
        ∧ load_chunk chunk st = Exit 1 (duplicate_message s))
  ∨ (∃ st', load_chunk chunk st = Done st' ∧ loaded (qs ++ chunk) st').
Proof.
  intros (Hseq & Hsize & Hkeys & Hred) Hbound. unfold load_chunk.
  set (st0 := {| sequences_ := sequences_ st ++ (Some <$> chunk);
                 name_to_id := name_to_id st; id_to_id := id_to_id st;
                 sequences_size := sequences_size st;
                 total_sequences_length := total_sequences_length st |}).
  assert (Hl : length (sequences_ st)
               = (length targets + length (kept qs) + 0)%nat).
  { rewrite Hseq, length_fmap, length_app. lia. }
  assert (Hp0 : processing qs chunk 0 st0).
  { split; [|split; [|split]]; simpl.
    - by rewrite Hseq.
    - rewrite Hsize. f_equal. lia.
    - done.
    - by rewrite app_nil_r. }
  rewrite Hl.
  destruct (for_range_processing qs chunk (length chunk) 0 st0 0
              ltac:(lia) Hp0 Hbound)
    as [(s & Hin & Hdup & ->)|(st1 & n1 & -> & Hp1)].
  - left. by exists s.
  - right. simpl. eexists. split; [done|].
    destruct Hp1 as (Hseq1 & Hsize1 & Hkeys1 & Hred1).
    split; [|split; [|split]]; simpl.
    + rewrite shrinkToFit_vector, Hseq1. unfold expected.
      rewrite (take_ge chunk (length chunk)), (drop_ge chunk (length chunk))
        by lia.
      rewrite fmap_nil, app_nil_r.
      replace (length targets + length (kept qs) + 0)%nat
        with (length (Some <$> targets ++ kept qs))
        by (rewrite length_fmap, length_app; lia).
      rewrite take_app_length, drop_app_length, filter_mark.
      unfold kept. rewrite filter_app, !fmap_app. by rewrite <- !app_assoc.
    + rewrite Hsize1, length_app. done.
    + done.
    + by rewrite take_ge in Hred1 by lia.
Qed.

Lemma load_chunks_loaded chunks qs (st : loader) :
  loaded qs st → Z.of_nat (length qs + length (concat chunks)) < 2 ^ 63 →
  (∃ s, s ∈ concat chunks ∧ unequal_duplicate s
        ∧ load_chunks chunks st = Exit 1 (duplicate_message s))
  ∨ (∃ st', load_chunks chunks st = Done st'
            ∧ loaded (qs ++ concat chunks) st').
Proof.
  revert qs st. induction chunks as [|chunk rest IH]; intros qs st Hl Hbound.
  - simpl. destruct (load_chunk_loaded qs [] st Hl) as [(s & Hin & _)|H].
    + simpl. lia.
    + by apply elem_of_nil in Hin.
    + right. done.
  - simpl in Hbound. rewrite length_app in Hbound.
    destruct (load_chunk_loaded qs chunk st Hl ltac:(lia))
      as [(s & Hin & Hdup & He)|(st1 & H1 & Hl1)].
    + left. exists s. split; [simpl; apply elem_of_app; by left|].
      split; [done|]. destruct rest; simpl; by rewrite He.
    + destruct rest as [|chunk' rest'].
      * right. exists st1. simpl. by rewrite app_nil_r.
      * change (load_chunks (chunk :: chunk' :: rest') st)
          with (load_chunk chunk st ≫= load_chunks (chunk' :: rest')).
        rewrite H1. simpl mbind.
        destruct (IH (qs ++ chunk) st1 Hl1) as [(s & Hin & Hdup & He)|H].
        -- rewrite length_app. lia.
        -- left. exists s. split; [|done].
           change (concat (chunk :: chunk' :: rest'))
             with (chunk ++ concat (chunk' :: rest')).
           apply elem_of_app. by right.
        -- right. destruct H as (st' & H' & Hl').
           exists st'. split; [done|].
           change (concat (chunk :: chunk' :: rest'))
             with (chunk ++ concat (chunk' :: rest')).
           by rewrite app_assoc.
Qed.


Lemma loaded_initially : loaded [] (register_targets targets).
Proof.
  destruct register_targets_lookup as (Hseq & _ & _).
  split; [|split; [|split]].
  - rewrite Hseq. unfold kept. by rewrite filter_nil, app_nil_r.
  - by destruct (register_targets_size targets) as [-> _].
  - done.
  - intros k s tid Hk. by rewrite lookup_nil in Hk.
Qed.

(** C2, as the code has it.  A loaded sequence that has the name of a
    target is compared with that target by the length of its data and the
    length of its quality only.  If some loaded sequence has the name of a
    target and a different data length or quality length, the run ends with
    [exit(1)] and the message naming such a sequence.  If loading returns,
    every sequence of the name of a target has the lengths of that target,
    is redirected to the id of that target in [id_to_id] and [name_to_id],
    and is gone from [sequences_]; the other sequences are kept in their
    order after the targets. *)
Theorem duplicate_names_elided_or_fatal (chunks : list (list Sequence)) :
  targets ≠ [] → Z.of_nat (length (concat chunks)) < 2 ^ 63 →
  ((∃ s, s ∈ concat chunks ∧ unequal_duplicate s) →
   ∃ s, s ∈ concat chunks ∧ unequal_duplicate s
        ∧ load_sequences targets chunks = Exit 1 (duplicate_message s))
  ∧ (∀ st, load_sequences targets chunks = Done st →
       sequences_ st = Some <$> targets ++ kept (concat chunks)
       ∧ redirected (concat chunks) st).
Proof.
  intros Hne Hbound. unfold load_sequences.
  destruct targets as [|t0 ts] eqn:Hts; [done|]. rewrite <- Hts in *.
  replace (length targets =? 0)%nat with false
    by (by rewrite Hts).
  destruct (load_chunks_loaded chunks [] (register_targets targets)
              loaded_initially ltac:(simpl; lia))
    as [(s & Hin & Hdup & ->)|(st' & -> & Hl)].
  - split; [|by intros st H]. intros _. by exists s.
  - rewrite bind_Done. rewrite app_nil_l in Hl.
    destruct Hl as (Hseq & Hsize & Hkeys & Hred). split.
    + intros (s & Hin & tid & t & Htid & Ht & Hdiff). exfalso.
      apply list_elem_of_lookup in Hin as [k Hk].
      destruct (Hred k s tid Hk Htid) as (_ & _ & t' & Ht' & _ & Hsame).
      rewrite Ht in Ht'. injection Ht' as <-. done.
    + intros st H. destruct (sequences_size st' =? 0); [done|].
      by injection H as <-.
Qed.


End LoadProperties.


(** ** The windows of all targets *)

Section WindowLayout.

Local Ltac unwrap32 :=
  repeat match goal with
         | |- context [wrap32 ?z] => rewrite (wrap32_small z) by (lia || nia)
         end.

Lemma offset_half :
  0 < window_length_ < 2 ^ 32 →
  (0 <= overlap_percentage_)%Q → (overlap_percentage_ <= 1 # 2)%Q →
  0 ≤ offset ∧ 2 * offset ≤ window_length_.
Proof.
  intros Hwl H0 H1.
  destruct (offset_bounds Hwl H0 H1) as [_ Ho]. split; [lia|].
  destruct (offset_floor Hwl H0 H1) as (Hp0 & Hp1 & Hfloor).
  pose proof (Qfloor_le
                (round_double (inject_Z window_length_ * overlap_percentage_)))
    as Hf.
  rewrite <- Hfloor in Hf.
  rewrite Zle_Qle, inject_Z_mult.
  set (n := inject_Z window_length_) in *. set (o := inject_Z offset) in *.
  change (inject_Z 2) with 2%Q. lra.
Qed.

(** With [window_length_ = 0] the loop over a target that has data does
    not end: [j] stays 0, whatever the number of rounds, and so the
    windows of the targets are never finished. *)
Theorem window_loop_zero_length (fuel : nat) (window_type : WindowType)
  (i sz : Z) (has_quality : bool) (k : Z) (windows : list Window)
  (t : Sequence) (rest : list Sequence) (ids : list Z) :
  window_length_ = 0 → 0 < sz → 0 < size (data_ t) →
  window_loop fuel window_type i sz has_quality 0 k windows = None
  ∧ build_windows window_type (t :: rest) i windows ids = None.
Proof.
  intros Hwl Hsz Ht.
  assert (Hloop : ∀ fuel sz has_quality k windows, 0 < sz →
            window_loop fuel window_type i sz has_quality 0 k windows = None).
  { clear fuel sz has_quality k windows Hsz.
    induction fuel as [|fuel IH]; intros sz has_quality k windows Hsz; simpl;
      destruct (Z.ltb_spec 0 sz) as [_|]; try lia; simpl; [done|].
    rewrite Hwl. change (wrap32 (0 + 0)) with 0. by apply IH. }
  split; [by apply Hloop|]. simpl. by rewrite Hloop.
Qed.

(** The slices the windows of a target take from it.  Each window starts
    inside the target, is not empty, ends inside the target and is at most
    [2 * window_length_] long, the length of the filler quality; and every
    position of the target is in the window whose rank is the quotient of
    the position by [window_length_]. *)
Theorem window_slices_in_bounds (window_type : WindowType) (i sz : Z)
  (has_quality : bool) (windows : list Window) :
  0 < window_length_ →
  (0 <= overlap_percentage_)%Q → (overlap_percentage_ <= 1 # 2)%Q →
  0 ≤ sz → sz + 2 * window_length_ < 2 ^ 32 →
  ∃ new,
    window_loop (Z.to_nat sz) window_type i sz has_quality 0 0 windows
      = Some (windows ++ new, window_count sz)
    ∧ Forall (λ w, 0 ≤ backbone_start_ w
                   ∧ 0 < backbone_length_ w ≤ 2 * window_length_
                   ∧ backbone_start_ w + backbone_length_ w ≤ sz) new
    ∧ ∀ pos, 0 ≤ pos < sz →
        ∃ w, new !! Z.to_nat (pos / window_length_) = Some w
             ∧ rank_ w = pos / window_length_
             ∧ backbone_start_ w ≤ pos < backbone_start_ w + backbone_length_ w.
Proof.
  intros Hwl H0 H1 Hsz Hmax.
  destruct (offset_bounds ltac:(lia) H0 H1) as [_ Ho].
  destruct (offset_half ltac:(lia) H0 H1) as [_ Hhalf].
  pose proof (window_count_le sz Hwl Hsz) as Hn.
  exists (nth_window window_type i sz has_quality <$> seqZ 0 (window_count sz)).
  split; [|split].
  - pose proof (window_loop_run (Z.to_nat sz) window_type i sz has_quality 0
                  windows Hwl Ho Hsz Hmax) as Hrun.
    rewrite Z.mul_0_l, Z.sub_0_r in Hrun. apply Hrun; lia.
  - apply Forall_fmap, Forall_forall. intros k Hk.
    apply elem_of_seqZ in Hk. simpl.
    assert (Hlt : k * window_length_ < sz) by (apply window_count_spec; lia).
    assert (Hk1 : k ≠ 0 → window_length_ ≤ k * window_length_) by nia.
    unfold window_start, window_end.
    destruct (Z.min_spec ((k + 1) * window_length_ + offset) sz)
      as [[? ->]|[? ->]];
      destruct (Z.eqb_spec k 0) as [->|Hk0]; lia.
  - intros pos Hpos.
    pose proof (Z.div_mod pos window_length_ ltac:(lia)) as Hdm.
    pose proof (Z.mod_pos_bound pos window_length_ Hwl) as Hm.
    set (k := pos / window_length_) in *.
    assert (Hk0 : 0 ≤ k) by (apply Z.div_pos; lia).
    assert (Hk : k < window_count sz) by (apply window_count_spec; nia).
    exists (nth_window window_type i sz has_quality k).
    split.
    + rewrite list_lookup_fmap.
      rewrite (proj2 (lookup_seqZ 0 (window_count sz) (Z.to_nat k) k)); [done|].
      lia.
    + simpl. split; [done|]. unfold window_start, window_end.
      assert (Hk1 : k ≠ 0 → window_length_ ≤ k * window_length_) by nia.
      destruct (Z.min_spec ((k + 1) * window_length_ + offset) sz)
        as [[? ->]|[? ->]];
        destruct (Z.eqb_spec k 0) as [Hkz|Hkz]; lia.
Qed.

(** The windows of the targets [ts], the first of which has id [i]. *)
Fixpoint all_windows (window_type : WindowType) (i : Z)
  (ts : list Sequence) : list Window :=
  match ts with
  | [] => []
  | t :: rest =>
      (nth_window window_type i (size (data_ t))
         (negb (String.eqb (quality_ t) ""))
         <$> seqZ 0 (window_count (size (data_ t))))
        ++ all_windows window_type (i + 1) rest
  end.

(** The number of windows of the targets [ts]. *)
Definition windows_of (ts : list Sequence) : Z :=
  foldr (λ t n, window_count (size (data_ t)) + n) 0 ts.

Lemma windows_of_app (ts1 ts2 : list Sequence) :
  windows_of (ts1 ++ ts2) = windows_of ts1 + windows_of ts2.
Proof.
  unfold windows_of. induction ts1 as [|t ts1 IH]; simpl; [done|].
  rewrite IH. lia.
Qed.

Lemma windows_of_bounds (ts : list Sequence) :
  0 < window_length_ →
  Forall (λ t, size (data_ t) + 2 * window_length_ < 2 ^ 32) ts →
  0 ≤ windows_of ts ≤ Z.of_nat (length ts) * 2 ^ 32.
Proof.
  intros Hwl. induction 1 as [|t ts Ht Hts IH]; simpl; [lia|].
  pose proof (window_count_le (size (data_ t)) Hwl ltac:(unfold size; lia)).
  lia.
Qed.

Lemma length_all_windows (window_type : WindowType) (i : Z)
  (ts : list Sequence) :
  0 < window_length_ →
  Z.of_nat (length (all_windows window_type i ts)) = windows_of ts.
Proof.
  intros Hwl. revert i. induction ts as [|t ts IH]; intros i; simpl; [done|].
  rewrite length_app, length_fmap, length_seqZ, Nat2Z.inj_add, IH.
  pose proof (window_count_le (size (data_ t)) Hwl ltac:(unfold size; lia)).
  lia.
Qed.

(** The loop over the targets from target [i] on. *)
Lemma build_windows_run (window_type : WindowType) (ts : list Sequence)
  (i : Z) (windows : list Window) (ids : list Z) (first : Z) :
  0 < window_length_ → 0 ≤ offset ≤ window_length_ →
  Forall (λ t, size (data_ t) + 2 * window_length_ < 2 ^ 32) ts →
  0 ≤ first → first + windows_of ts < 2 ^ 64 →
  build_windows window_type ts i windows (ids ++ [first])
  = Some (windows ++ all_windows window_type i ts,
          (ids ++ [first])
            ++ ((λ n, first + windows_of (take (S n) ts))
                  <$> seq 0 (length ts))).
Proof.
  intros Hwl Ho Hts. revert i windows ids first.
  induction Hts as [|t ts Ht Hts IH]; intros i windows ids first Hf Hsum.
  - simpl. by rewrite !app_nil_r.
  - cbn [build_windows].
    pose proof (window_count_le (size (data_ t)) Hwl ltac:(unfold size; lia))
      as Hn.
    pose proof (windows_of_bounds ts Hwl Hts) as Hb.
    pose proof (window_loop_run (Z.to_nat (size (data_ t))) window_type i
                  (size (data_ t)) (negb (String.eqb (quality_ t) "")) 0
                  windows Hwl Ho ltac:(unfold size; lia) Ht) as Hrun.
    rewrite Z.mul_0_l, Z.sub_0_r in Hrun. rewrite Hrun by lia. simpl.
    rewrite List.last_last.
    simpl in Hsum.
    rewrite wrap64_small by lia.
    rewrite (IH (i + 1) _ (ids ++ [first])) by lia.
    f_equal. f_equal.
    + by rewrite <- app_assoc.
    + rewrite <- !app_assoc. f_equal. f_equal. simpl. f_equal.
      * lia.
      * rewrite <- fmap_S_seq, <- list_fmap_compose.
        apply list_fmap_ext. intros _ n _. simpl. lia.
Qed.

(** The table [id_to_first_window_id] and the windows after lines 386-406:
    the table has one entry more than there are targets, starts with 0,
    and the entry after that of target [j] is larger by the number of
    windows of [j]; the window of rank [k] of target [j] is at position
    [id_to_first_window_id[j] + k] of [windows_] and has id [j]. *)
Theorem build_windows_layout (window_type : WindowType)
  (ts : list Sequence) :
  0 < window_length_ < 2 ^ 32 →
  (0 <= overlap_percentage_)%Q → (overlap_percentage_ <= 1 # 2)%Q →
  Forall (λ t, size (data_ t) + 2 * window_length_ < 2 ^ 32) ts →
  Z.of_nat (length ts) < 2 ^ 32 →
  ∃ windows ids,
    build_windows window_type ts 0 [] [0] = Some (windows, ids)
    ∧ Z.of_nat (length windows) = windows_of ts
    ∧ length ids = S (length ts)
    ∧ ids !! 0%nat = Some 0
    ∧ ∀ (j : nat) t, ts !! j = Some t →
        ∃ first,
          ids !! j = Some first
          ∧ ids !! S j = Some (first + window_count (size (data_ t)))
          ∧ ∀ k, 0 ≤ k < window_count (size (data_ t)) →
              ∃ w, windows !! Z.to_nat (first + k) = Some w
                   ∧ id_ w = Z.of_nat j ∧ rank_ w = k.
Proof.
  intros [Hwl Hwl32] H0 H1 Hts Hlen.
  destruct (offset_bounds ltac:(lia) H0 H1) as [_ Ho].
  pose proof (windows_of_bounds ts Hwl Hts) as Hb.
  pose proof (build_windows_run window_type ts 0 [] [] 0 Hwl Ho Hts
                ltac:(lia) ltac:(lia)) as Hrun.
  rewrite !app_nil_l in Hrun.
  eexists _, _. split; [exact Hrun|].
  split; [by apply length_all_windows|].
  split; [simpl; by rewrite length_fmap, length_seq|].
  split; [done|].
  intros j t Hj.
  assert (Hid : ∀ n : nat, (n ≤ length ts)%nat →
            ([0] ++ ((λ n, 0 + windows_of (take (S n) ts))
                       <$> seq 0 (length ts))) !! n
            = Some (windows_of (take n ts))).
  { intros [|n] Hn; [done|]. simpl.
    rewrite list_lookup_fmap, lookup_seq_lt by lia. done. }
  apply lookup_lt_Some in Hj as Hjlt.
  exists (windows_of (take j ts)).
  split; [apply Hid; lia|].
  assert (Hstep : windows_of (take (S j) ts)
                  = windows_of (take j ts) + window_count (size (data_ t))).
  { rewrite (take_S_r _ _ _ Hj), windows_of_app. simpl. lia. }
  split; [rewrite <- Hstep; apply Hid; lia|].
  intros k Hk.
  exists (nth_window window_type (Z.of_nat j) (size (data_ t))
            (negb (String.eqb (quality_ t) "")) k).
  split; [|done].
  clear Hrun Hid Hstep Hb Hlen.
  assert (Hgen : ∀ i pre,
            (pre ++ all_windows window_type i ts)
              !! (length pre + Z.to_nat (windows_of (take j ts) + k))%nat
            = Some (nth_window window_type (i + Z.of_nat j) (size (data_ t))
                      (negb (String.eqb (quality_ t) "")) k)).
  { revert j Hj Hjlt. induction Hts as [|t0 ts Ht0 Hts IH];
      intros j Hj Hjlt i pre; [done|].
    pose proof (window_count_le (size (data_ t0)) Hwl
                  ltac:(unfold size; lia)) as Hn0.
    destruct j as [|j].
    - injection Hj as ->. simpl.
      rewrite lookup_app_r by lia.
      rewrite lookup_app_l by (rewrite length_fmap, length_seqZ; lia).
      rewrite list_lookup_fmap.
      replace (length pre + Z.to_nat (0 + k) - length pre)%nat
        with (Z.to_nat k) by lia.
      rewrite (proj2 (lookup_seqZ 0 _ (Z.to_nat k) k)) by lia.
      simpl. do 2 f_equal. lia.
    - simpl in Hj. cbn [all_windows].
      pose proof (windows_of_bounds (take j ts) Hwl
                    (Forall_take _ j ts Hts)) as Hb.
      rewrite app_assoc.
      specialize (IH j Hj ltac:(simpl in Hjlt; lia) (i + 1)
                    (pre ++ (nth_window window_type i (size (data_ t0))
                               (negb (String.eqb (quality_ t0) ""))
                               <$> seqZ 0 (window_count (size (data_ t0)))))).
      rewrite length_app, length_fmap, length_seqZ in IH.
      replace (length pre + Z.to_nat (windows_of (take (S j) (t0 :: ts)) + k))%nat
        with (length pre + Z.to_nat (window_count (size (data_ t0)))
              + Z.to_nat (windows_of (take j ts) + k))%nat.
      2:{ simpl. lia. }
      rewrite IH. do 2 f_equal. lia. }
  specialize (Hgen 0 []). simpl in Hgen. rewrite Hgen. done.
Qed.

End WindowLayout.


(** ** [Polisher::polish]: what is emitted *)

Section EmissionProperties.

(** The bodies emitted for a vector of windows in default mode when no
    sequence is dropped: the consensuses of the windows of one target,
    which end before the next window of rank 0, are concatenated. *)
Fixpoint grouped_consensus (current : string) (windows : list Window) :
  list string :=
  match windows with
  | [] => []
  | w :: rest =>
      let current := (current ++ consensus_ w)%string in
      match rest with
      | [] => [current]
      | w' :: _ =>
          if rank_ w' =? 0 then current :: grouped_consensus "" rest
          else grouped_consensus current rest
      end
  end.

Fixpoint concat_strings (l : list string) : string :=
  match l with
  | [] => ""
  | s :: rest => (s ++ concat_strings rest)%string
  end.

Lemma append_assoc (a b c : string) :
  ((a ++ b) ++ c)%string = (a ++ b ++ c)%string.
Proof.
  induction a as [|x a IH]; [done|]. rewrite !append_cons. by rewrite IH.
Qed.

Lemma concat_grouped_consensus (current : string) (windows : list Window) :
  windows ≠ [] →
  concat_strings (grouped_consensus current windows)
  = (current ++ concat_strings (consensus_ <$> windows))%string.
Proof.
  revert current. induction windows as [|w rest IH]; intros current Hne;
    [done|].
  cbn [grouped_consensus]. destruct rest as [|w' rest'].
  - simpl. rewrite append_assoc. done.
  - change (consensus_ <$> w :: w' :: rest')
      with (consensus_ w :: (consensus_ <$> w' :: rest')).
    cbn [concat_strings]. destruct (rank_ w' =? 0).
    + cbn [concat_strings]. rewrite IH by done.
      rewrite append_nil_l, append_assoc. done.
    + rewrite IH by done. by rewrite append_assoc.
Qed.

Lemma default_run (p : Polisher) (results : list (Window * bool))
  (n i : nat) (st : polish_state) :
  (i + n = length results)%nat → Z.of_nat (length results) < 2 ^ 64 →
  data_ <$> dst (foldl (polish_default_step p false results) st (seq i n))
  = (data_ <$> dst st)
      ++ grouped_consensus (polished_data st) (drop i (fst <$> results)).
Proof.
  intros Hin Hlen. revert i st Hin.
  induction n as [|n IH]; intros i st Hin.
  - simpl. rewrite drop_ge by (rewrite length_fmap; lia). simpl.
    by rewrite app_nil_r.
  - cbn [seq foldl]. rewrite IH by lia. clear IH.
    assert (Hi : (i < length (fst <$> results))%nat)
      by (rewrite length_fmap; lia).
    destruct (lookup_lt_is_Some_2 _ _ Hi) as [w Hw].
    rewrite (drop_S _ _ _ Hw). cbn [grouped_consensus].
    unfold polish_default_step, is_last, window_at.
    rewrite Hw, length_fmap. simpl default at 1 2.
    rewrite wrap64_small by lia.
    destruct (drop (S i) (fst <$> results)) as [|w' rest'] eqn:Hrest.
    + assert (S i ≥ length (fst <$> results))%nat as Hge.
      { destruct (decide (S i < length (fst <$> results))%nat) as [Hlt|];
          [|lia].
        destruct (lookup_lt_is_Some_2 _ _ Hlt) as [x Hx].
        rewrite (drop_S _ _ _ Hx) in Hrest. done. }
      rewrite length_fmap in Hge.
      replace (Z.of_nat i =? Z.of_nat (length results) - 1) with true
        by (symmetry; apply Z.eqb_eq; lia).
      simpl. rewrite fmap_app. simpl.
      replace n with 0%nat by lia. simpl. by rewrite <- app_assoc.
    + assert (Hw' : (fst <$> results) !! (i + 1)%nat = Some w').
      { replace (i + 1)%nat with (S i + 0)%nat by lia.
        rewrite <- lookup_drop, Hrest. done. }
      apply lookup_lt_Some in Hw' as Hlt. rewrite length_fmap in Hlt.
      rewrite Hw'. simpl default.
      replace (Z.of_nat i =? Z.of_nat (length results) - 1) with false
        by (symmetry; apply Z.eqb_neq; lia).
      simpl orb. destruct (rank_ w' =? 0).
      * simpl. rewrite fmap_app. simpl. by rewrite <- app_assoc.
      * done.
Qed.

(** In default mode, when no sequence is dropped, [polish] emits one
    sequence for each target that has windows, whose body is the
    concatenation of the consensuses of its windows, in the order of the
    windows; all bodies together are the consensuses of all windows, each
    taken once. *)
Theorem polish_default_bodies (p : Polisher) (dst0 : list Sequence) :
  Qeq_bool overlap_percentage_ 0 = true →
  Z.of_nat (length (windows_ p)) < 2 ^ 64 →
  let polished := (λ w, (generate_consensus w trim_).1) <$> windows_ p in
  ∃ emitted,
    (polish p dst0 false).2 = dst0 ++ emitted
    ∧ data_ <$> emitted = grouped_consensus "" polished
    ∧ concat_strings (data_ <$> emitted)
      = concat_strings (consensus_ <$> polished).
Proof.
  intros Hmode Hlen polished.
  assert (Hext : extends (λ _, True) dst0
            (foldl (polish_default_step p false
                      ((λ w, generate_consensus w trim_) <$> windows_ p))
               {| polished_data := ""; num_polished_windows := 0;
                  dst := dst0 |}
               (seq 0 (length (windows_ p))))).
  { apply foldl_invariant.
    - exists []. simpl. by rewrite app_nil_r.
    - intros st i Hst. unfold polish_default_step.
      destruct (is_last _ _); [by apply emit_extends|done]. }
  destruct Hext as (emitted & He & _).
  exists emitted.
  assert (Hpolish : (polish p dst0 false).2 = dst0 ++ emitted).
  { unfold polish. rewrite Hmode. cbn [snd]. by rewrite length_fmap. }
  split; [done|].
  assert (Hd : data_ <$> emitted = grouped_consensus "" polished).
  { pose proof (default_run p
                  ((λ w, generate_consensus w trim_) <$> windows_ p)
                  (length (windows_ p)) 0
                  {| polished_data := ""; num_polished_windows := 0;
                     dst := dst0 |}) as Hrun.
    rewrite length_fmap in Hrun. specialize (Hrun ltac:(lia) Hlen).
    simpl in Hrun. rewrite drop_0, <- list_fmap_compose in Hrun.
    rewrite He, fmap_app in Hrun.
    by apply app_inv_head in Hrun. }
  split; [done|]. rewrite Hd.
  destruct polished as [|w rest] eqn:Hp; [done|].
  by rewrite concat_grouped_consensus.
Qed.

(** With [drop_unpolished_sequences], in both modes: when
    [generate_consensus] has returned [false] for every window, nothing is
    added to [dst]. *)
Theorem polish_drops_unpolished (p : Polisher) (dst0 : list Sequence) :
  Forall (λ w, (generate_consensus w
                  (if Qeq_bool overlap_percentage_ 0 then trim_ else false)).2
               = false) (windows_ p) →
  (polish p dst0 true).2 = dst0.
Proof.
  intros Hall. unfold polish. cbn [snd].
  set (results := _ <$> windows_ p).
  assert (Hres : ∀ i, default false (snd <$> results !! i) = false).
  { intros i. unfold results. rewrite list_lookup_fmap.
    destruct (windows_ p !! i) as [w|] eqn:Hw; [|done]. simpl.
    rewrite Forall_forall in Hall. apply Hall.
    by eapply list_elem_of_lookup_2. }
  assert (Hemit : ∀ w st, num_polished_windows st = 0 →
            num_polished_windows (emit p true w st) = 0
            ∧ dst (emit p true w st) = dst st).
  { intros w st Hn. unfold emit. simpl. split; [done|]. rewrite Hn.
    replace (Qltb 0 _) with false; [done|].
    unfold Qltb, Qle_bool, Qdiv, Qmult. simpl. done. }
  apply (foldl_invariant
           (λ st, num_polished_windows st = 0 ∧ dst st = dst0)); [done|].
  intros st i [Hn Hd].
  destruct (Qeq_bool overlap_percentage_ 0).
  - unfold polish_default_step. rewrite Hres, Hn.
    destruct (is_last _ _); [|done].
    destruct (Hemit (window_at (fst <$> results) i)
                {| polished_data := (polished_data st
                     ++ consensus_ (window_at (fst <$> results) i))%string;
                   num_polished_windows := wrap32 (0 + 0); dst := dst st |}
                eq_refl) as [-> ->]. done.
  - unfold polish_overlap_step. rewrite Hres, Hn.
    destruct (is_last _ _); [|done].
    match goal with
    | |- context [emit p true ?w ?s] =>
        destruct (Hemit w s eq_refl) as [-> ->]
    end. done.
Qed.

(** The backward scan for the last matching column stops before column
    0.  When the alignment is not empty and no column from 1 on matches,
    with a match in column 0 or with none at all, the stitch does not use
    the alignment: it appends the whole left tail and then the first
    [len_r] characters of the right window. *)
Theorem stitch_without_match (wl wr : Window) (last : bool) :
  let consensus_l := consensus_ wl in
  let consensus_r := consensus_ wr in
  let len_l := left_length wl in
  let start_l := wrap32 (size consensus_l - len_l) in
  let len_r := right_length wr last in
  let msa :=
    generate_multiple_sequence_alignment
      (substr consensus_l start_l len_l) (substr consensus_r 0 len_r) in
  let len_msa := Z.to_nat (wrap32 (size (nth 0 msa ""%string))) in
  (1 ≤ len_msa)%nat →
  (∀ j : nat, (1 ≤ j < len_msa)%nat →
     char_at (nth 0 msa ""%string) j ≠ char_at (nth 1 msa ""%string) j) →
  stitch wl wr last
  = (substr consensus_l start_l len_l ++ substr consensus_r 0 len_r
       ++ substr consensus_r len_r
            (wrap64 (size consensus_r - wrap32 (2 * len_r))))%string.
Proof.
  intros consensus_l consensus_r len_l start_l len_r msa len_msa Hlen Hno.
  assert (Hlast : ∀ j right_, (j < len_msa)%nat →
            (scan_last_match j (nth 0 msa ""%string) (nth 1 msa ""%string)
               right_).2 = wrap32 (-1)).
  { induction j as [|j IH]; intros right_ Hj; [done|]. simpl.
    destruct (Ascii.eqb_spec (char_at (nth 0 msa ""%string) (S j))
                (char_at (nth 1 msa ""%string) (S j))) as [Heq|_].
    - exfalso. by apply (Hno (S j)); [lia|].
    - apply IH. lia. }
  unfold stitch.
  fold consensus_l consensus_r len_l len_r start_l msa len_msa.
  destruct (scan_first_match _ _ _ _ _) as [st first_match_pos].
  specialize (Hlast (len_msa - 1)%nat ""%string ltac:(lia)).
  destruct (scan_last_match _ _ _ _) as [right_ last_match_pos].
  simpl in Hlast. rewrite Hlast, Z.eqb_refl, orb_true_r. done.
Qed.

End EmissionProperties.


(** ** [shrinkToFit] once more *)

Section ShrinkToFitAgain.
Context {T : Type}.
Implicit Types src : list (option T).

Lemma filter_is_Some_idemp src :
  filter is_Some (filter is_Some src) = filter is_Some src.
Proof.
  induction src as [|o src IH]; [done|].
  rewrite filter_cons. destruct (decide (is_Some o)); [|done].
  rewrite filter_cons_True by done. by rewrite IH.
Qed.

Lemma count_nulls_filtered src : count_nulls (filter is_Some src) = 0%nat.
Proof.
  pose proof (count_nulls_filter (filter is_Some src)) as H.
  rewrite filter_is_Some_idemp in H. lia.
Qed.

(** After [shrinkToFit] no null pointer is left from [begin] on, the
    vector is shorter by the number returned, and a second call with the
    same [begin] changes nothing and returns 0. *)
Theorem shrinkToFit_idempotent src (begin : nat) :
  (begin ≤ length src)%nat → Z.of_nat (length src) < 2 ^ 64 →
  let r := shrinkToFit src begin in
  (∀ k, (begin ≤ k)%nat → r.1 !! k ≠ Some None)
  ∧ Z.of_nat (length r.1) = Z.of_nat (length src) - r.2
  ∧ shrinkToFit r.1 begin = (r.1, 0).
Proof.
  intros Hb Hsz r.
  assert (Hv : r.1 = take begin src ++ filter is_Some (drop begin src))
    by apply shrinkToFit_vector.
  assert (Hc : r.2 = Z.of_nat (count_nulls (drop begin src)))
    by (by apply shrinkToFit_count).
  pose proof (count_nulls_filter (drop begin src)) as Hn.
  rewrite length_drop in Hn.
  assert (Hlen : length r.1
                 = (begin + length (filter is_Some (drop begin src)))%nat).
  { rewrite Hv, length_app, length_take. lia. }
  split; [|split].
  - intros k Hk Hnull. rewrite Hv in Hnull.
    rewrite lookup_app_r in Hnull by (rewrite length_take; lia).
    apply list_elem_of_lookup_2, list_elem_of_filter in Hnull as [Hs _].
    by destruct Hs.
  - rewrite Hc, Hlen. lia.
  - assert (Htake : take begin r.1 = take begin src).
    { rewrite Hv, take_app_le by (rewrite length_take; lia).
      rewrite take_take. f_equal. lia. }
    assert (Hdrop : drop begin r.1 = filter is_Some (drop begin src)).
    { rewrite Hv, drop_app_ge by (rewrite length_take; lia).
      rewrite length_take.
      replace (begin - begin `min` length src)%nat with 0%nat by lia.
      done. }
    rewrite (surjective_pairing (shrinkToFit r.1 begin)).
    rewrite shrinkToFit_vector, shrinkToFit_count by lia.
    rewrite Htake, Hdrop, filter_is_Some_idemp, count_nulls_filtered.
    by rewrite <- Hv.
Qed.

End ShrinkToFitAgain.

(** ** The layers of one overlap *)

Section LayerFrame.

(** [w'] is [w] with layers added at the end, each of them taken from the
    query of [o]. *)
Definition layered_from (o : Overlap) (w w' : Window) : Prop :=
  id_ w' = id_ w ∧ rank_ w' = rank_ w ∧ window_type_ w' = window_type_ w
  ∧ overlap_ w' = overlap_ w
  ∧ backbone_start_ w' = backbone_start_ w
  ∧ backbone_length_ w' = backbone_length_ w
  ∧ backbone_has_quality_ w' = backbone_has_quality_ w
  ∧ consensus_ w' = consensus_ w
  ∧ ∃ added, layers_ w' = layers_ w ++ added
             ∧ Forall (λ l, layer_q_id l = q_id_ o) added.

Lemma layered_from_refl (o : Overlap) (w : Window) : layered_from o w w.
Proof.
  repeat split. exists []. by rewrite app_nil_r.
Qed.

Lemma layered_from_add (o : Overlap) (w w' : Window) (l : Layer) :
  layered_from o w w' → layer_q_id l = q_id_ o →
  layered_from o w (add_layer l w').
Proof.
  intros (? & ? & ? & ? & ? & ? & ? & ? & added & Hl & Hall) Hq.
  repeat split; simpl; try done.
  exists (added ++ [l]). rewrite Hl, <- app_assoc. split; [done|].
  apply Forall_app. split; [done|]. by apply Forall_singleton.
Qed.

Lemma assign_fragment_frame (o : Overlap) (sequence : Sequence) (first : Z)
  (windows : list Window) (st : assigner) (j : nat) :
  Forall2 (layered_from o) windows (layered_windows st) →
  Forall2 (layered_from o) windows
    (layered_windows (assign_fragment o sequence first st j)).
Proof.
  intros H. unfold assign_fragment.
  destruct (too_short _ _); [done|].
  destruct (low_quality _ _ _); [done|]. simpl.
  apply Forall2_alter_r; [done|].
  intros w w' _ _ Hw. by apply layered_from_add.
Qed.

Lemma assign_overlap_layers (sequences : list (option Sequence))
  (id_to_first_window_id : list Z) (windows : list Window)
  (coverages : list Z) (o : Overlap) :
  let r :=
    assign_overlap sequences id_to_first_window_id (windows, coverages) o in
  Forall2 (layered_from o) windows r.1
  ∧ length r.2 = length coverages
  ∧ ∀ (k : nat) c, coverages !! k = Some c →
      r.2 !! k
      = Some (if decide (k = Z.to_nat (t_id_ o)) then wrap32 (c + 1) else c).
Proof.
  intros r. unfold r, assign_overlap. cbn [fst snd]. split; [|split].
  - apply (foldl_invariant
             (λ st, Forall2 (layered_from o) windows (layered_windows st))).
    + simpl. apply Forall2_same_length_lookup_2; [done|].
      intros i w w' Hw Hw'. rewrite Hw in Hw'. injection Hw' as <-.
      apply layered_from_refl.
    + intros st j Hst. by apply assign_fragment_frame.
  - by rewrite length_alter.
  - intros k c Hk. rewrite list_lookup_alter.
    destruct (decide (Z.to_nat (t_id_ o) = k)) as [Heq|Hne],
      (decide (k = Z.to_nat (t_id_ o))); try congruence.
    by rewrite Heq, Hk.
Qed.

(** One overlap changes the windows only by adding layers at the end of
    some of them, all with the id of its query: no window is added,
    removed or moved, and id, rank, type and backbone of each window stay;
    of the coverages only that of its target changes, by one. *)
Theorem assign_overlap_frame (sequences : list (option Sequence))
  (id_to_first_window_id : list Z) (windows : list Window)
  (coverages : list Z) (o : Overlap) :
  let r :=
    assign_overlap sequences id_to_first_window_id (windows, coverages) o in
  Forall2 (layered_from o) windows r.1
  ∧ length r.2 = length coverages
  ∧ ∀ (k : nat) c, coverages !! k = Some c →
      r.2 !! k
      = Some (if decide (k = Z.to_nat (t_id_ o)) then wrap32 (c + 1) else c).
Proof. apply assign_overlap_layers. Qed.

(** The mean of lines 430-434 lies between the least and the greatest
    Phred value of the span; so a fragment all of whose bases have a
    quality of at least the threshold is not skipped for its quality, and
    one with quality data all of whose bases are below the threshold is
    skipped. *)
Theorem quality_filter_by_bases (o : Overlap) (sequence : Sequence)
  (j : nat) :
  let quality :=
    if strand_ o then reverse_quality_ sequence else quality_ sequence in
  let lo := (bp_at (breaking_points_ o) j).2 in
  let hi := (bp_at (breaking_points_ o) (j + 1)).2 in
  let phred (k : nat) :=
    inject_Z (wrap32 (char_to_uint32 (char_at quality k) - 33)) in
  0 ≤ lo < hi → hi - lo < 2 ^ 32 →
  ((∀ k : nat, lo ≤ Z.of_nat k < hi → (quality_threshold_ <= phred k)%Q) →
   low_quality o sequence j = false)
  ∧ ((∀ k : nat, lo ≤ Z.of_nat k < hi → (phred k < quality_threshold_)%Q) →
     quality_ sequence ≠ ""%string ∨ reverse_quality_ sequence ≠ ""%string →
     low_quality o sequence j = true).
Proof.
  intros quality lo hi phred Hlo Hhi.
  assert (Hsum : ∀ (l : list nat) (a t : Q),
            (∀ k, k ∈ l → (t <= phred k)%Q) →
            (a + inject_Z (Z.of_nat (length l)) * t
             <= foldl (λ acc k, acc + phred k) a l)%Q).
  { induction l as [|k l IH]; intros a t Hall.
    - simpl. change (inject_Z (Z.of_nat 0)) with 0%Q. lra.
    - cbn [foldl length]. rewrite Nat2Z.inj_succ. unfold Z.succ.
      rewrite inject_Z_plus. change (inject_Z 1) with 1%Q.
      pose proof (IH (a + phred k)%Q t
                    (λ k' Hk', Hall k' (list_elem_of_further _ _ _ Hk')))
        as IH'.
      pose proof (Hall k (list_elem_of_here _ _)) as Hk. lra. }
  assert (Hsum' : ∀ (l : list nat) (a t : Q), l ≠ [] →
            (∀ k, k ∈ l → (phred k < t)%Q) →
            (foldl (λ acc k, acc + phred k) a l
             < a + inject_Z (Z.of_nat (length l)) * t)%Q).
  { induction l as [|k l IH]; intros a t Hne Hall; [done|].
    cbn [foldl length]. rewrite Nat2Z.inj_succ. unfold Z.succ.
    rewrite inject_Z_plus. change (inject_Z 1) with 1%Q.
    pose proof (Hall k (list_elem_of_here _ _)) as Hk.
    destruct l as [|k' l'].
    - simpl. change (inject_Z (Z.of_nat 0)) with 0%Q. lra.
    - pose proof (IH (a + phred k)%Q t ltac:(done)
                    (λ k' Hk', Hall k' (list_elem_of_further _ _ _ Hk')))
        as IH'.
      lra. }
  assert (Hn : (0 < inject_Z (hi - lo))%Q) by (rewrite <- (Zlt_Qlt 0); lia).
  assert (Hin : ∀ k, k ∈ seq (Z.to_nat lo) (Z.to_nat (hi - lo)) →
            lo ≤ Z.of_nat k < hi).
  { intros k Hk. apply list_elem_of_In, in_seq in Hk. lia. }
  assert (Havg : average_quality quality (breaking_points_ o) j
                 = (foldl (λ acc k, acc + phred k) 0
                      (seq (Z.to_nat lo) (Z.to_nat (hi - lo)))
                    / inject_Z (hi - lo))%Q).
  { unfold average_quality. fold lo hi. by rewrite wrap32_small by lia. }
  unfold low_quality. fold quality. rewrite Havg.
  split.
  - intros Hall. apply andb_false_iff. right.
    destruct (Qltb _ _) eqn:Hlt; [|done]. apply Qltb_lt in Hlt.
    pose proof (Hsum (seq (Z.to_nat lo) (Z.to_nat (hi - lo))) 0%Q
                  quality_threshold_ (λ k Hk, Hall k (Hin k Hk))) as Hs.
    rewrite length_seq, Z2Nat.id in Hs by lia.
    apply Qlt_not_le in Hlt. exfalso. apply Hlt.
    apply Qle_shift_div_l; [done|]. lra.
  - intros Hall Hq. apply andb_true_iff. split.
    + apply orb_true_iff.
      destruct Hq as [Hq|Hq]; [left|right];
        by apply negb_true_iff, String.eqb_neq.
    + apply Qltb_lt.
      pose proof (Hsum' (seq (Z.to_nat lo) (Z.to_nat (hi - lo))) 0%Q
                    quality_threshold_) as Hs.
      rewrite length_seq, Z2Nat.id in Hs by lia.
      apply Qlt_shift_div_r; [done|].
      assert (Hne : seq (Z.to_nat lo) (Z.to_nat (hi - lo)) ≠ []).
      { destruct (Z.to_nat (hi - lo)) eqn:Hz; [lia|done]. }
      specialize (Hs Hne (λ k Hk, Hall k (Hin k Hk))). lra.
Qed.

End LayerFrame.


(** ** The ids of the loaded sequences *)

Section LoadIndex.

Variable targets : list Sequence.

(** The position in [sequences_], once the null pointers are removed, of
    the sequence loaded as number [k]. *)
Definition final_position (qs : list Sequence) (k : nat) : Z :=
  Z.of_nat (length targets + length (kept targets (take k qs))).

(** The key of a target and the key of a loaded sequence in [id_to_id]:
    [i << 1 | 1] and [k << 1 | 0]. *)
Definition target_key (i : nat) : Z := 2 * Z.of_nat i + 1.
Definition sequence_key (k : nat) : Z := 2 * Z.of_nat k.

(** [id_to_id] holds every target under its key, and every sequence of
    [qs] that has not the name of a target under its key, with its final
    position. *)
Definition placed (qs : list Sequence) (st : loader) : Prop :=
  (∀ (i : nat) t, targets !! i = Some t →
     id_to_id st !! target_key i = Some (Z.of_nat i))
  ∧ ∀ (k : nat) s, qs !! k = Some s → is_query targets s →
      id_to_id st !! sequence_key k = Some (final_position qs k).

Lemma lor_one (z : Z) : 0 ≤ z → Z.lor (2 * z) 1 = 2 * z + 1.
Proof. intros Hz. destruct z as [|p|p]; [reflexivity|reflexivity|lia]. Qed.

Lemma register_prefix_ids (n : nat) :
  (n ≤ length targets)%nat → Z.of_nat (length targets) < 2 ^ 63 →
  let st :=
    foldl (λ st i, register_target i st)
      {| sequences_ := Some <$> targets; name_to_id := ∅; id_to_id := ∅;
         sequences_size := 0; total_sequences_length := 0 |}
      (seq 0 n) in
  sequences_ st = Some <$> targets
  ∧ ∀ (i : nat), (i < n)%nat → id_to_id st !! target_key i = Some (Z.of_nat i).
Proof.
  intros Hn Hbound. induction n as [|n IH].
  - simpl. split; [done|]. intros i Hi. lia.
  - rewrite seq_S, foldl_app. simpl.
    destruct IH as (Hseq & Hids); [lia|].
    set (st := foldl _ _ (seq 0 n)) in *.
    destruct (lookup_lt_is_Some_2 targets n) as [t Ht]; [lia|].
    unfold register_target. rewrite Hseq, list_lookup_fmap, Ht. simpl.
    split; [done|]. intros i Hi.
    rewrite shiftl_key by lia. rewrite lor_one by lia.
    destruct (decide (i = n)) as [->|Hne].
    + by rewrite lookup_insert_eq.
    + rewrite lookup_insert_ne by (unfold target_key; lia).
      apply Hids. lia.
Qed.

Lemma placed_initially :
  Z.of_nat (length targets) < 2 ^ 63 → placed [] (register_targets targets).
Proof.
  intros Hbound.
  destruct (register_prefix_ids (length targets) ltac:(lia) Hbound)
    as (_ & Hids).
  split.
  - intros i t Ht. apply Hids. by apply lookup_lt_Some in Ht.
  - intros k s Hk. by rewrite lookup_nil in Hk.
Qed.

Lemma kept_snoc (qs : list Sequence) (s : Sequence) :
  kept targets (qs ++ [s])
  = kept targets qs
      ++ match names_target targets s with Some _ => [] | None => [s] end.
Proof.
  unfold kept. rewrite filter_app. f_equal.
  destruct (names_target targets s) as [tid|] eqn:Hs.
  - rewrite filter_cons_False; [done|].
    unfold is_query. congruence.
  - by rewrite filter_cons_True.
Qed.

(** One round of the loop of lines 234-257, for the ids. *)
Lemma load_sequence_placed qs chunk (m : nat) (st st' : loader) (n n' : Z) s :
  processing targets qs chunk m st → placed (qs ++ take m chunk) st →
  n = Z.of_nat m - Z.of_nat (length (kept targets (take m chunk))) →
  chunk !! m = Some s →
  Z.of_nat (length targets + length qs + length chunk) < 2 ^ 63 →
  load_sequence (length targets + length (kept targets qs) + m) (st, n)
    = Done (st', n') →
  placed (qs ++ take (S m) chunk) st'
  ∧ n' = Z.of_nat (S m) - Z.of_nat (length (kept targets (take (S m) chunk))).
Proof.
  intros (Hseq & Hsize & Hkeys & Hred) [Htargets Hplaced] Hn Hs Hbound.
  apply lookup_lt_Some in Hs as Hm.
  unfold load_sequence.
  rewrite Hseq, (expected_lookup_current targets qs chunk m s Hs).
  rewrite Hkeys. fold (names_target targets s).
  assert (Hkey : wrap64 (Z.shiftl (sequences_size st) 1)
                 = sequence_key (length qs + m)).
  { rewrite Hsize. apply shiftl_key. lia. }
  assert (Hlen : length (qs ++ take m chunk) = (length qs + m)%nat).
  { rewrite length_app, length_take. lia. }
  assert (Hkm : (length (kept targets (take m chunk)) ≤ m)%nat).
  { unfold kept.
    etrans; [apply length_filter|]. rewrite length_take. lia. }
  assert (Hkq : (length (kept targets qs) ≤ length qs)%nat).
  { unfold kept. apply length_filter. }
  assert (Hstep : ∀ ids' : gmap Z Z,
            (∀ key, key ≠ sequence_key (length qs + m) →
               ids' !! key = id_to_id st !! key) →
            (is_query targets s →
             ids' !! sequence_key (length qs + m)
             = Some (final_position (qs ++ take m chunk ++ [s])
                       (length qs + m))) →
            (∀ (i : nat) t, targets !! i = Some t →
               ids' !! target_key i = Some (Z.of_nat i))
            ∧ ∀ (k : nat) s', (qs ++ take (S m) chunk) !! k = Some s' →
                is_query targets s' →
                ids' !! sequence_key k
                = Some (final_position (qs ++ take (S m) chunk) k)).
  { intros ids' Hother Hnew. split.
    - intros i t Ht. rewrite Hother by (unfold target_key, sequence_key; lia).
      by apply (Htargets i t).
    - rewrite (take_S_r _ _ _ Hs). intros k s' Hk Hq.
      rewrite app_assoc in Hk.
      destruct (decide (k < length qs + m)%nat) as [Hlt|Hge].
      + rewrite lookup_app_l in Hk by lia.
        rewrite Hother by (unfold sequence_key; lia).
        rewrite (Hplaced k s' Hk Hq). f_equal. unfold final_position.
        rewrite app_assoc.
        rewrite (take_app_le (qs ++ take m chunk) [s] k) by (rewrite Hlen; lia).
        done.
      + rewrite lookup_app_r in Hk by lia. rewrite Hlen in Hk.
        destruct (k - (length qs + m))%nat eqn:Hd0; simpl in Hk; [|done].
        injection Hk as <-. assert (k = (length qs + m)%nat) as -> by lia.
        by apply Hnew. }
  assert (Hfinal : final_position (qs ++ take m chunk ++ [s]) (length qs + m)
                   = Z.of_nat (length targets + length (kept targets qs)
                               + length (kept targets (take m chunk)))).
  { unfold final_position. rewrite app_assoc.
    rewrite (take_app_le (qs ++ take m chunk) [s]) by (rewrite Hlen; lia).
    rewrite <- Hlen, firstn_all.
    unfold kept. rewrite filter_app, length_app. lia. }
  destruct (names_target targets s) as [tid|] eqn:Htid.
  - destruct (names_target_inv targets s tid Htid) as (i0 & t & -> & Ht & Hname).
    rewrite Nat2Z.id, (expected_lookup_target targets qs chunk m i0 t Ht).
    destruct (negb _ || negb _); [done|].
    intros H. injection H as <- <-.
    unfold placed. cbn [id_to_id]. rewrite Hkey. split.
    + apply Hstep.
      * intros key Hne. by rewrite lookup_insert_ne.
      * intros Hq. unfold is_query in Hq.
        fold (names_target targets s) in Hq. congruence.
    + rewrite (take_S_r _ _ _ Hs), kept_snoc, Htid, app_nil_r.
      rewrite wrap64_small; lia.
  - intros H. injection H as <- <-.
    unfold placed. cbn [id_to_id]. rewrite Hkey. split.
    + apply Hstep.
      * intros key Hne. by rewrite lookup_insert_ne.
      * intros _. rewrite lookup_insert_eq, Hfinal. f_equal.
        rewrite wrap64_small; lia.
    + rewrite (take_S_r _ _ _ Hs), kept_snoc, Htid, length_app. simpl. lia.
Qed.

Lemma for_range_placed qs chunk (r m : nat) (st st' : loader) (n n' : Z) :
  (m + r = length chunk)%nat →
  processing targets qs chunk m st → placed (qs ++ take m chunk) st →
  n = Z.of_nat m - Z.of_nat (length (kept targets (take m chunk))) →
  Z.of_nat (length targets + length qs + length chunk) < 2 ^ 63 →
  for_range (length targets + length (kept targets qs) + m) r load_sequence (st, n)
    = Done (st', n') →
  placed (qs ++ chunk) st'.
Proof.
  revert m st n. induction r as [|r IH]; intros m st n Hmr Hp Hpl Hn Hbound.
  - simpl. intros H. injection H as <- <-.
    by rewrite take_ge in Hpl by lia.
  - destruct (lookup_lt_is_Some_2 chunk m) as [s Hs]; [lia|].
    rewrite for_range_S.
    destruct (load_sequence_processing targets qs chunk m st n s Hp Hs
                ltac:(lia)) as [[Hdup He]|(st1 & n1 & He & Hp1)].
    + rewrite He, bind_Exit. done.
    + rewrite He, bind_Done.
      destruct (load_sequence_placed qs chunk m st st1 n n1 s Hp Hpl Hn Hs
                  Hbound He) as [Hpl1 Hn1].
      replace (S (length targets + length (kept targets qs) + m))
        with (length targets + length (kept targets qs) + S m)%nat by lia.
      apply IH; (lia || done).
Qed.

Lemma load_chunk_placed qs chunk (st st' : loader) :
  loaded targets qs st → placed qs st →
  Z.of_nat (length targets + length qs + length chunk) < 2 ^ 63 →
  load_chunk chunk st = Done st' → placed (qs ++ chunk) st'.
Proof.
  intros (Hseq & Hsize & Hkeys & Hred) Hpl Hbound. unfold load_chunk.
  set (st0 := {| sequences_ := sequences_ st ++ (Some <$> chunk);
                 name_to_id := name_to_id st; id_to_id := id_to_id st;
                 sequences_size := sequences_size st;
                 total_sequences_length := total_sequences_length st |}).
  assert (Hl : length (sequences_ st)
               = (length targets + length (kept targets qs) + 0)%nat).
  { rewrite Hseq, length_fmap, length_app.
    unfold kept. lia. }
  assert (Hp0 : processing targets qs chunk 0 st0).
  { split; [|split; [|split]]; simpl.
    - by rewrite Hseq.
    - rewrite Hsize. f_equal. lia.
    - done.
    - by rewrite app_nil_r. }
  rewrite Hl.
  destruct (for_range _ _ _ _) as [[st1 n1]| |] eqn:Hrun; [|done..].
  rewrite bind_Done. intros H. injection H as <-.
  pose proof (for_range_placed qs chunk (length chunk) 0 st0 st1 0 n1
                ltac:(lia) Hp0) as Hfin.
  rewrite app_nil_r in Hfin.
  specialize (Hfin Hpl ltac:(done) Hbound Hrun).
  destruct Hfin as [H1 H2]. split; simpl; done.
Qed.

Lemma load_chunks_placed chunks qs (st st' : loader) :
  loaded targets qs st → placed qs st →
  Z.of_nat (length targets + length qs + length (concat chunks)) < 2 ^ 63 →
  load_chunks chunks st = Done st' →
  loaded targets (qs ++ concat chunks) st'
  ∧ placed (qs ++ concat chunks) st'.
Proof.
  revert qs st. induction chunks as [|chunk rest IH];
    intros qs st Hl Hpl Hbound Hrun.
  - simpl in *.
    destruct (load_chunk_loaded targets qs [] st Hl ltac:(simpl; lia))
      as [(s & Hin & _)|(st1 & H1 & Hl1)].
    + by apply elem_of_nil in Hin.
    + rewrite Hrun in H1. injection H1 as <-. split; [done|].
      by apply (load_chunk_placed qs [] st).
  - simpl in Hbound. rewrite length_app in Hbound.
    destruct (load_chunk_loaded targets qs chunk st Hl ltac:(lia))
      as [(s & Hin & Hdup & He)|(st1 & H1 & Hl1)].
    + destruct rest; simpl in Hrun; by rewrite He in Hrun.
    + pose proof (load_chunk_placed qs chunk st st1 Hl Hpl ltac:(lia) H1)
        as Hpl1.
      destruct rest as [|chunk' rest'].
      * simpl in Hrun. rewrite H1 in Hrun. injection Hrun as <-.
        simpl. by rewrite app_nil_r.
      * change (load_chunks (chunk :: chunk' :: rest') st)
          with (load_chunk chunk st ≫= load_chunks (chunk' :: rest')) in Hrun.
        rewrite H1, bind_Done in Hrun.
        change (concat (chunk :: chunk' :: rest'))
          with (chunk ++ concat (chunk' :: rest')).
        rewrite app_assoc.
        apply (IH (qs ++ chunk) st1 Hl1 Hpl1); [|done].
        rewrite length_app. lia.
Qed.

Lemma filter_lookup_position (qs : list Sequence) (k : nat) (s : Sequence) :
  qs !! k = Some s → is_query targets s →
  kept targets qs !! length (kept targets (take k qs)) = Some s.
Proof.
  intros Hk Hs. pose proof (take_drop_middle qs k s Hk) as Hsplit.
  set (pre := take k qs) in *. set (post := drop (S k) qs) in *.
  rewrite <- Hsplit. unfold kept. rewrite filter_app.
  rewrite lookup_app_r by lia. rewrite Nat.sub_diag.
  by rewrite filter_cons_True.
Qed.

(** When the sequences are loaded, every target [i] is under the key
    [2 i + 1] of [id_to_id], and every loaded sequence, number [k] in the
    order of loading, is under the key [2 k] with the position in
    [sequences_] of a sequence of its name and of its lengths: its own
    position after the null pointers are removed when no target has its
    name, the position of a target of its name otherwise. *)
Theorem loaded_sequences_indexed (chunks : list (list Sequence))
  (st : loader) :
  Z.of_nat (length targets + length (concat chunks)) < 2 ^ 63 →
  load_sequences targets chunks = Done st →
  (∀ (i : nat) t, targets !! i = Some t →
     id_to_id st !! target_key i = Some (Z.of_nat i)
     ∧ sequences_ st !! i = Some (Some t))
  ∧ ∀ (k : nat) s, concat chunks !! k = Some s →
      ∃ id s',
        id_to_id st !! sequence_key k = Some id
        ∧ sequences_ st !! Z.to_nat id = Some (Some s')
        ∧ name_ s' = name_ s ∧ same_lengths s s'
        ∧ (is_query targets s → s' = s ∧ id = final_position (concat chunks) k)
        ∧ (¬ is_query targets s → Z.to_nat id < length targets)%nat.
Proof.
  intros Hbound. unfold load_sequences.
  destruct (length targets =? 0)%nat eqn:Hne; [done|].
  destruct (load_chunks chunks (register_targets targets)) as [st1| |] eqn:Hrun;
    [|done..].
  rewrite bind_Done. destruct (sequences_size st1 =? 0); [done|].
  intros H. injection H as <-.
  destruct (load_chunks_placed chunks [] (register_targets targets) st1
              (loaded_initially targets)
              (placed_initially ltac:(lia)) ltac:(simpl; lia) Hrun)
    as [(Hseq & _ & _ & Hred) [Htargets Hplaced]].
  rewrite app_nil_l in *.
  assert (Hlookup : ∀ (i : nat) t, targets !! i = Some t →
            sequences_ st1 !! i = Some (Some t)).
  { intros i t Ht. rewrite Hseq, list_lookup_fmap.
    rewrite lookup_app_l by (by apply lookup_lt_Some in Ht).
    by rewrite Ht. }
  split.
  - intros i t Ht. split; [by apply (Htargets i t)|by apply Hlookup].
  - intros k s Hk. destruct (names_target targets s) as [tid|] eqn:Htid.
    + destruct (Hred k s tid Hk Htid) as (Hid & _ & t & Ht & Hname & Hsame).
      exists tid, t. split; [done|]. split; [by apply Hlookup|].
      split; [done|]. split; [done|]. split.
      * intros Hq. unfold is_query in Hq.
        fold (names_target targets s) in Hq. congruence.
      * intros _. by apply lookup_lt_Some in Ht.
    + exists (final_position (concat chunks) k), s.
      split; [exact (Hplaced k s Hk Htid)|]. split.
      * unfold final_position. rewrite Nat2Z.id, Hseq, list_lookup_fmap.
        rewrite lookup_app_r by lia.
        replace (length targets + length (kept targets (take k (concat chunks)))
                 - length targets)%nat
          with (length (kept targets (take k (concat chunks)))) by lia.
        by rewrite (filter_lookup_position _ k s Hk Htid).
      * split; [done|]. split; [done|]. split; [done|].
        intros Hq. by destruct Hq.
Qed.

End LoadIndex.


(** ** Removal of overlaps, whatever the run holds *)

Section RemovalProperties.

Implicit Types ov : list (option Overlap).

(** [remove_invalid_overlaps] only resets pointers of [[begin, end)]: the
    vector keeps its length, nothing outside the run changes and nothing
    is moved or replaced; every overlap left in the run has an error of at
    most the threshold and differs in query and target; and in contig mode
    at most one overlap is left in the run. *)
Theorem remove_invalid_overlaps_frame ov (b e : nat) :
  (b ≤ e)%nat →
  let ov' := remove_invalid_overlaps ov b e in
  length ov' = length ov
  ∧ (∀ k, ¬ (b ≤ k < e)%nat → ov' !! k = ov !! k)
  ∧ (∀ k o, ov' !! k = Some (Some o) → ov !! k = Some (Some o))
  ∧ (∀ k o, (b ≤ k < e)%nat → ov' !! k = Some (Some o) →
       (error_ o <= error_threshold_)%Q ∧ q_id_ o ≠ t_id_ o)
  ∧ (type_ = kC → ∀ k1 k2 o1 o2, (b ≤ k1 < e)%nat → (b ≤ k2 < e)%nat →
       ov' !! k1 = Some (Some o1) → ov' !! k2 = Some (Some o2) → k1 = k2).
Proof.
  intros Hbe ov'.
  destruct (remove_invalid_overlaps_spec ov b e Hbe)
    as (Hn & Hpass & Hone & _ & _).
  fold ov' in Hn, Hpass, Hone.
  split; [apply Hn|].
  split; [intros k Hk; by eapply only_nulled_outside|].
  split; [intros k o Hk; by eapply only_nulled_live|].
  split.
  - intros k o Hk Ho. specialize (Hpass k o Hk Ho).
    unfold passes_filters in Hpass.
    apply negb_true_iff, orb_false_iff in Hpass as [He Hq].
    split; [|by apply Z.eqb_neq].
    apply Qnot_lt_le. intros Hlt. apply Qltb_lt in Hlt. congruence.
  - intros HC k1 k2 o1 o2 Hk1 Hk2 H1 H2.
    destruct (Nat.lt_trichotomy k1 k2) as [Hlt|[Heq|Hgt]]; [|done|].
    + exfalso. apply (Hone HC k1 Hk1 ltac:(by eexists) k2); [lia|by eexists].
    + exfalso. apply (Hone HC k2 Hk2 ltac:(by eexists) k1); [lia|by eexists].
Qed.

Lemma only_nulled_null b e ov ov' k :
  only_nulled b e ov ov' → ov !! k = Some None → ov' !! k = Some None.
Proof. intros [_ H] Hk. destruct (H k) as [->|[_ ?]]; done. Qed.

(** The inner loop reaches an overlap at [m] that is at least as long as
    the one at [i]: the one at [i] is reset and the one at [m] stays. *)
Lemma remove_shorter_reaches (n j i m : nat) ov oi x :
  ov !! i = Some (Some oi) → ov !! m = Some (Some x) →
  (i < j)%nat → (j ≤ m < j + n)%nat → length_ oi ≤ length_ x →
  remove_shorter n j i ov !! i = Some None
  ∧ remove_shorter n j i ov !! m = Some (Some x).
Proof.
  revert j ov. induction n as [|n IH]; intros j ov Hi Hm Hij Hjm Hle; [lia|].
  simpl. rewrite Hi.
  assert (Hstep : ∀ ov1, ov1 !! i = Some (Some oi) → ov1 !! m = Some (Some x) →
            j ≠ m →
            remove_shorter n (S j) i ov1 !! i = Some None
            ∧ remove_shorter n (S j) i ov1 !! m = Some (Some x)).
  { intros ov1 Hi1 Hm1 Hne. apply IH; (done || lia). }
  destruct (ov !! j) as [[oj|]|] eqn:Hj.
  - destruct (Z.gtb_spec (length_ oi) (length_ oj)) as [Hgt|Hng].
    + assert (j ≠ m) as Hne.
      { intros ->. rewrite Hm in Hj. injection Hj as <-. lia. }
      apply Hstep; [| |done]; by rewrite list_lookup_insert_ne by lia.
    + split.
      * apply list_lookup_insert_eq. by apply lookup_lt_Some in Hi.
      * by rewrite list_lookup_insert_ne by lia.
  - apply Hstep; [done|done|]. intros ->. congruence.
  - apply Hstep; [done|done|]. intros ->. congruence.
Qed.

Lemma remove_invalid_loop_removes (n i e m : nat) ov x :
  type_ = kC → (i + n = e)%nat → (i ≤ m < e)%nat →
  ov !! m = Some (Some x) → passes_filters x = false →
  (∀ k ok, (i ≤ k < m)%nat → ov !! k = Some (Some ok) →
     length_ ok ≤ length_ x) →
  ∀ k, (i ≤ k ≤ m)%nat → remove_invalid_loop n i e ov !! k = Some None.
Proof.
  intros HC. revert i ov.
  induction n as [|n IH]; intros i ov Hie Him Hm Hx Hlen k Hk; [lia|].
  assert (Hfail : Qltb error_threshold_ (error_ x) || (q_id_ x =? t_id_ x)
                  = true).
  { unfold passes_filters in Hx. by apply negb_false_iff in Hx. }
  assert (Hrest : ∀ ov1, ov1 !! i = Some None →
            ((i < m)%nat → ov1 !! m = Some (Some x)
                     ∧ ∀ k ok, (S i ≤ k < m)%nat →
                         ov1 !! k = Some (Some ok) → length_ ok ≤ length_ x) →
            remove_invalid_loop n (S i) e ov1 !! k = Some None).
  { intros ov1 Hnull Hkeep.
    destruct (decide (k = i)) as [->|Hne].
    - destruct (remove_invalid_loop_spec n (S i) e ov1 ltac:(lia))
        as (Hn & _).
      by eapply only_nulled_null.
    - destruct Hkeep as [Hm1 Hlen1]; [lia|].
      apply (IH (S i) ov1); (lia || done). }
  simpl. destruct (decide (i = m)) as [->|Hne].
  - rewrite Hm, Hfail. apply Hrest; [|lia].
    apply list_lookup_insert_eq. by apply lookup_lt_Some in Hm.
  - destruct (ov !! i) as [[o|]|] eqn:Hi.
    + destruct (Qltb error_threshold_ (error_ o) || (q_id_ o =? t_id_ o)).
      * apply Hrest.
        -- apply list_lookup_insert_eq. by apply lookup_lt_Some in Hi.
        -- intros _. split; [by rewrite list_lookup_insert_ne by lia|].
           intros k' ok Hk' Hok.
           rewrite list_lookup_insert_ne in Hok by lia.
           apply (Hlen k'); [lia|done].
      * rewrite decide_True by done.
        destruct (remove_shorter_reaches (e - S i) (S i) i m ov o x Hi Hm
                    ltac:(lia) ltac:(lia) (Hlen i o ltac:(lia) Hi))
          as [Hnull Hkept].
        destruct (remove_shorter_spec (e - S i) (S i) i i e ov o
                    ltac:(lia) ltac:(lia) ltac:(lia) Hi) as (Hn & _).
        apply Hrest; [done|]. intros _. split; [done|].
        intros k' ok Hk' Hok. apply (Hlen k'); [lia|].
        by eapply only_nulled_live.
    + apply Hrest; [done|]. intros _. split; [done|].
      intros k' ok Hk' Hok. apply (Hlen k'); [lia|done].
    + apply lookup_ge_None in Hi. apply lookup_lt_Some in Hm. lia.
Qed.

(** In contig mode the lengths are compared before the filters are applied
    to the longer overlap.  When the run holds an overlap that fails a
    filter and is at least as long as every overlap before it in the run,
    all of the run up to that overlap is reset, the overlaps that pass the
    filters included. *)
Theorem failing_overlap_removes_shorter ov (b e m : nat) (x : Overlap) :
  type_ = kC → (b ≤ m < e)%nat →
  ov !! m = Some (Some x) → passes_filters x = false →
  (∀ k ok, (b ≤ k < m)%nat → ov !! k = Some (Some ok) →
     length_ ok ≤ length_ x) →
  ∀ k, (b ≤ k ≤ m)%nat → remove_invalid_overlaps ov b e !! k = Some None.
Proof.
  intros HC Hm Hx Hfail Hlen k Hk. unfold remove_invalid_overlaps.
  apply (remove_invalid_loop_removes (e - b) b e m ov x); (done || lia).
Qed.

End RemovalProperties.

(** ** Targets of the same name *)

Section TargetNames.

Variable targets : list Sequence.

Lemma register_prefix_last (n : nat) :
  (n ≤ length targets)%nat →
  let st :=
    foldl (λ st i, register_target i st)
      {| sequences_ := Some <$> targets; name_to_id := ∅; id_to_id := ∅;
         sequences_size := 0; total_sequences_length := 0 |}
      (seq 0 n) in
  sequences_ st = Some <$> targets
  ∧ ∀ (i : nat) t, (i < n)%nat → targets !! i = Some t →
      (∀ (k : nat) t', (i < k < n)%nat → targets !! k = Some t' →
         name_ t' ≠ name_ t) →
      name_to_id st !! (name_ t ++ "t")%string = Some (Z.of_nat i).
Proof.
  induction n as [|n IH]; intros Hn.
  - simpl. split; [done|]. intros i t Hi. lia.
  - rewrite seq_S, foldl_app. simpl.
    destruct IH as (Hseq & Hlast); [lia|].
    set (st := foldl _ _ (seq 0 n)) in *.
    destruct (lookup_lt_is_Some_2 targets n) as [tn Htn]; [lia|].
    unfold register_target. rewrite Hseq, list_lookup_fmap, Htn. simpl.
    split; [done|]. intros i t Hi Ht Hafter.
    destruct (decide (i = n)) as [->|Hne].
    + rewrite Htn in Ht. injection Ht as ->. by rewrite lookup_insert_eq.
    + rewrite lookup_insert_ne.
      * apply Hlast; [lia|done|]. intros k t' Hk. apply Hafter. lia.
      * intros Heq. apply append_char_inj in Heq as [Heq _].
        by apply (Hafter n tn ltac:(lia) Htn).
Qed.

(** When several targets have one name, the name is bound to the last of
    them: that one is the target a loaded sequence of the name is compared
    with and redirected to. *)
Theorem last_target_of_a_name (i : nat) (t s : Sequence) :
  targets !! i = Some t →
  (∀ (k : nat) t', (i < k)%nat → targets !! k = Some t' →
     name_ t' ≠ name_ t) →
  name_ s = name_ t →
  names_target targets s = Some (Z.of_nat i).
Proof.
  intros Ht Hafter Hname. unfold names_target, register_targets.
  destruct (register_prefix_last (length targets) ltac:(lia)) as [_ Hlast].
  rewrite Hname. apply Hlast; [by apply lookup_lt_Some in Ht|done|].
  intros k t' Hk. apply Hafter. lia.
Qed.

End TargetNames.


(** ** What [initialize] leaves in the polisher *)

Section InitializeResult.

(** [w'] is [w] with layers added at the end. *)
Definition layers_added (w w' : Window) : Prop :=
  id_ w' = id_ w ∧ rank_ w' = rank_ w ∧ window_type_ w' = window_type_ w
  ∧ overlap_ w' = overlap_ w
  ∧ backbone_start_ w' = backbone_start_ w
  ∧ backbone_length_ w' = backbone_length_ w
  ∧ backbone_has_quality_ w' = backbone_has_quality_ w
  ∧ ∃ added, layers_ w' = layers_ w ++ added.

Lemma layers_added_refl (w : Window) : layers_added w w.
Proof. repeat split. exists []. by rewrite app_nil_r. Qed.

Lemma layers_added_trans (w1 w2 w3 : Window) :
  layers_added w1 w2 → layers_added w2 w3 → layers_added w1 w3.
Proof.
  intros (? & ? & ? & ? & ? & ? & ? & a1 & Ha1)
    (? & ? & ? & ? & ? & ? & ? & a2 & Ha2).
  repeat split; try congruence.
  exists (a1 ++ a2). by rewrite Ha2, Ha1, <- app_assoc.
Qed.

Lemma layered_from_layers_added (o : Overlap) (w w' : Window) :
  layered_from o w w' → layers_added w w'.
Proof.
  intros (? & ? & ? & ? & ? & ? & ? & ? & added & Hl & _).
  repeat split; try done. by exists added.
Qed.

(** The number of overlaps of [overlaps] whose target is [k]. *)
Definition overlaps_of_target (k : nat) (overlaps : list Overlap) : Z :=
  Z.of_nat (length (filter (λ o, Z.to_nat (t_id_ o) = k) overlaps)).

Lemma wrap32_succ (a : Z) : wrap32 (wrap32 a + 1) = wrap32 (a + 1).
Proof. unfold wrap32. by rewrite Zplus_mod_idemp_l. Qed.

(** The loop of lines 410-508 over all overlaps. *)
Lemma assign_overlaps_run (sequences : list (option Sequence))
  (id_to_first_window_id : list Z) (overlaps : list Overlap)
  (windows : list Window) (coverages : list Z) :
  let r :=
    foldl (assign_overlap sequences id_to_first_window_id)
      (windows, coverages) overlaps in
  Forall2 layers_added windows r.1
  ∧ length r.2 = length coverages
  ∧ ∀ (k : nat) c, coverages !! k = Some c →
      r.2 !! k = Some (if decide (overlaps_of_target k overlaps = 0) then c
                       else wrap32 (c + overlaps_of_target k overlaps)).
Proof.
  revert windows coverages.
  induction overlaps as [|o overlaps IH]; intros windows coverages r.
  - simpl in r. unfold r. simpl. split; [|split].
    + apply Forall2_same_length_lookup_2; [done|].
      intros i w w' Hw Hw'. rewrite Hw in Hw'. injection Hw' as <-.
      apply layers_added_refl.
    + done.
    + intros k c Hk. done.
  - unfold r. cbn [foldl].
    destruct (assign_overlap_layers sequences id_to_first_window_id windows
                coverages o) as (Hw & Hlen & Hc).
    destruct (assign_overlap sequences id_to_first_window_id
                (windows, coverages) o) as [windows1 coverages1] eqn:Hstep.
    cbn [fst snd] in Hw, Hlen, Hc.
    destruct (IH windows1 coverages1) as (Hw' & Hlen' & Hc').
    split; [|split].
    + apply Forall2_same_length_lookup_2.
      { apply Forall2_length in Hw, Hw'. congruence. }
      intros i w w' Hi Hi'.
      destruct (Forall2_lookup_l _ _ _ _ _ Hw Hi) as (w1 & Hi1 & H1).
      destruct (Forall2_lookup_l _ _ _ _ _ Hw' Hi1) as (w2 & Hi2 & H2).
      rewrite Hi' in Hi2. injection Hi2 as <-.
      apply layers_added_trans with w1; [|done].
      by eapply layered_from_layers_added.
    + congruence.
    + intros k c Hk. rewrite (Hc' k _ (Hc k c Hk)). f_equal.
      unfold overlaps_of_target. rewrite filter_cons.
      pose proof (Nat2Z.is_nonneg
                    (length (filter (λ o, Z.to_nat (t_id_ o) = k) overlaps)))
        as Hn.
      set (n := Z.of_nat (length (filter _ overlaps))) in *.
      destruct (decide (k = Z.to_nat (t_id_ o))) as [->|Hne].
      * rewrite (decide_True (P := Z.to_nat (t_id_ o) = Z.to_nat (t_id_ o)))
          by done.
        cbn [length].
        rewrite Nat2Z.inj_succ. fold n.
        rewrite (decide_False (P := Z.succ n = 0)) by lia.
        destruct (decide (n = 0)) as [->|Hn0]; [done|].
        unfold wrap32. rewrite Zplus_mod_idemp_l. f_equal. lia.
      * rewrite (decide_False (P := Z.to_nat (t_id_ o) = k)) by done.
        fold n. done.
Qed.

(** When [initialize] returns from a polisher without windows, the
    windows of the polisher are those built from the targets, in their
    order, with layers added to some of them; and the coverage of each
    target is what it was before, 0 for a target that had none, plus the
    number of overlaps of that target that are left after normalization. *)
Theorem initialize_result (p p' : Polisher) (stderr : string)
  (calls : list logger_call)
  (targets : list Sequence) (sequences : list (list Sequence))
  (overlaps : list (list Overlap)) :
  windows_ p = [] →
  initialize p targets sequences overlaps = Done (p', stderr, calls) →
  ∃ st r windows ids,
    load_sequences targets sequences = Done st
    ∧ load_overlaps (length targets) st overlaps = Done r
    ∧ build_windows (window_type_of st)
        (omap id (take (length targets) (polisher_sequences_ p'))) 0 [] [0]
      = Some (windows, ids)
    ∧ length (polisher_sequences_ p') = length (sequences_ st)
    ∧ Forall2 layers_added windows (windows_ p')
    ∧ length (targets_coverages_ p') = length targets
    ∧ ∀ k : nat, (k < length targets)%nat →
        let before := default 0 (targets_coverages_ p !! k) in
        let added :=
          overlaps_of_target k
            (Overlap_find_breaking_points (polisher_sequences_ p')
               window_length_ overlap_percentage_
               <$> omap id (overlaps_ r)) in
        targets_coverages_ p' !! k
        = Some (if decide (added = 0) then before
                else wrap32 (before + added)).
Proof.
  intros Hw. unfold initialize. rewrite Hw. simpl negb. cbv iota.
  destruct (load_sequences targets sequences) as [st| |] eqn:Hls; [|done..].
  rewrite bind_Done.
  destruct (load_overlaps (length targets) st overlaps) as [r| |] eqn:Hlo;
    [|done..].
  rewrite bind_Done.
  set (sequences' := imap _ (sequences_ st)).
  destruct (build_windows _ _ 0 [] [0]) as [[windows ids]|] eqn:Hb; [|done].
  pose proof (assign_overlaps_run sequences' ids
                (Overlap_find_breaking_points sequences' window_length_
                   overlap_percentage_ <$> omap id (overlaps_ r))
                windows (resize (length targets) 0 (targets_coverages_ p)))
    as (Hwin & Hlen & Hcov).
  cbn [find_overlap_breaking_points fst].
  destruct (foldl _ _ _) as [windows' coverages'].
  intros H. injection H as <- _ _. cbn [fst snd] in *.
  exists st, r, windows, ids.
  cbn [polisher_sequences_ windows_ targets_coverages_].
  split; [done|]. split; [exact Hlo|]. split; [exact Hb|].
  split; [unfold sequences'; by rewrite length_imap|].
  split; [done|].
  assert (Hres : length (resize (length targets) 0 (targets_coverages_ p))
                 = length targets).
  { unfold resize. rewrite length_app, length_take, length_replicate. lia. }
  split; [congruence|].
  intros k Hk. cbv zeta. apply Hcov. unfold resize.
  destruct (decide (k < length (targets_coverages_ p))%nat) as [Hlt|Hge].
  - rewrite lookup_app_l by (rewrite length_take; lia).
    rewrite lookup_take_lt by lia.
    destruct (lookup_lt_is_Some_2 _ _ Hlt) as [c ->]. done.
  - rewrite lookup_app_r by (rewrite length_take; lia).
    rewrite (lookup_ge_None_2 (targets_coverages_ p) k) by lia.
    rewrite lookup_replicate_2; [done|]. rewrite length_take. lia.
Qed.

End InitializeResult.


(** ** The overlaps left by the normalization *)

Section NormalizedOverlaps.

Variable transmute : Overlap → Overlap.
Variable chunk : list Overlap.

Implicit Types ov : list (option Overlap).

(** The overlap is loaded as a valid one that passes the filters. *)
Definition accepted (o0 : Overlap) : Prop :=
  is_valid_ (transmute o0) = true ∧ passes_filters (transmute o0) = true.

Global Instance accepted_dec (o0 : Overlap) : Decision (accepted o0).
Proof. unfold accepted. apply _. Defined.

(** What holds before position [i] is scanned, in both modes; the run
    being collected starts at [c]. *)
Definition filtered (i : nat) (st : list (option Overlap) * nat) : Prop :=
  let '(ov, c) := st in
  length ov = length chunk
  ∧ (c ≤ i)%nat
  ∧ (∀ k, (i ≤ k)%nat → ov !! k = Some <$> chunk !! k)
  ∧ (∀ k o, (k < i)%nat → ov !! k = Some (Some o) →
       ∃ o0, chunk !! k = Some o0 ∧ o = transmute o0
             ∧ is_valid_ (transmute o0) = true)
  ∧ (∀ k o, (k < c)%nat → ov !! k = Some (Some o) → passes_filters o = true)
  ∧ (type_ = kF → ∀ k o0, (k < i)%nat → chunk !! k = Some o0 → accepted o0 →
       ov !! k = Some (Some (transmute o0))).

Lemma scan_overlap_filtered (i : nat) (st : list (option Overlap) * nat) :
  (i < length chunk)%nat → filtered i st →
  filtered (S i) (scan_overlap transmute st i).
Proof.
  intros Hi. destruct st as [ov c].
  intros (Hlen & Hc & Hu & Hp & Hf & Hk).
  destruct (lookup_lt_is_Some_2 chunk i Hi) as [o0 Ho0].
  assert (Hovi : ov !! i = Some (Some o0)).
  { rewrite Hu by lia. by rewrite Ho0. }
  unfold scan_overlap. rewrite Hovi.
  set (ova := <[i := Some (transmute o0)]> ov).
  assert (Hla : length ova = length chunk).
  { unfold ova. by rewrite length_insert. }
  assert (Hai : ova !! i = Some (Some (transmute o0))).
  { unfold ova. apply list_lookup_insert_eq. lia. }
  assert (Hane : ∀ k, k ≠ i → ova !! k = ov !! k).
  { intros k Hne. unfold ova. by rewrite list_lookup_insert_ne. }
  destruct (is_valid_ (transmute o0)) eqn:Hv; simpl.
  - destruct (skip_nulls_spec ova c) as (Hcc & Hnb & Hend); [lia|].
    set (c' := skip_nulls ova c) in *.
    assert (Hc'i : (c' ≤ i)%nat).
    { destruct (decide (c' ≤ i)%nat); [done|].
      assert (ova !! i = Some None) by (apply Hnb; lia). congruence. }
    assert (Hlive : ∃ oc, ova !! c' = Some (Some oc)).
    { destruct (lookup_lt_is_Some_2 ova c') as [[oc|] Hoc]; [lia|by eexists|].
      apply is_null_true in Hoc. rewrite Hend in Hoc by lia. done. }
    destruct Hlive as [oc Hoc]. rewrite Hoc.
    assert (Hpa : ∀ k o, (k < S i)%nat → ova !! k = Some (Some o) →
              ∃ o1, chunk !! k = Some o1 ∧ o = transmute o1
                    ∧ is_valid_ (transmute o1) = true).
    { intros k o Hlt Ho. destruct (decide (k = i)) as [->|Hne].
      - exists o0. rewrite Hai in Ho. by injection Ho as <-.
      - rewrite Hane in Ho by done. apply Hp; [lia|done]. }
    assert (Hfa : ∀ k o, (k < c')%nat → ova !! k = Some (Some o) →
              passes_filters o = true).
    { intros k o Hlt Ho. destruct (decide (k < c)%nat) as [Hkc|Hkc].
      - rewrite Hane in Ho by lia. by apply (Hf k).
      - rewrite Hnb in Ho by lia. done. }
    assert (Hka : type_ = kF → ∀ k o1, (k < S i)%nat → chunk !! k = Some o1 →
              accepted o1 → ova !! k = Some (Some (transmute o1))).
    { intros HF k o1 Hlt Ho1 Hacc. destruct (decide (k = i)) as [->|Hne].
      - rewrite Ho0 in Ho1. by injection Ho1 as <-.
      - rewrite Hane by done. apply Hk; (done || lia). }
    destruct (q_id_ oc =? q_id_ (transmute o0)); simpl.
    + split; [done|]. split; [lia|]. split.
      { intros k Hge. rewrite Hane by lia. apply Hu. lia. }
      done.
    + destruct (remove_invalid_overlaps_spec ova c' i Hc'i)
        as (Hn & Hpass & _ & _ & Hkeep).
      set (ovf := remove_invalid_overlaps ova c' i) in *.
      split; [destruct Hn; congruence|]. split; [lia|]. split.
      { intros k Hge. rewrite (only_nulled_outside _ _ _ _ _ Hn) by lia.
        rewrite Hane by lia. apply Hu. lia. }
      split.
      { intros k o Hlt Ho. apply (Hpa k o Hlt).
        by apply (only_nulled_live _ _ _ _ _ _ Hn). }
      split.
      { intros k o Hlt Ho. destruct (decide (c' ≤ k)%nat) as [Hck|Hck].
        - apply (Hpass k o); [lia|done].
        - apply (Hfa k o); [lia|].
          by apply (only_nulled_live _ _ _ _ _ _ Hn). }
      intros HF k o1 Hlt Ho1 Hacc.
      apply (Hkeep HF); [by apply Hka|apply Hacc].
  - assert (Hnne : ∀ k, k ≠ i → <[i := None]> ova !! k = ov !! k).
    { intros k Hne. rewrite list_lookup_insert_ne by done. by apply Hane. }
    split; [by rewrite length_insert|]. split; [lia|]. split.
    { intros k Hge. rewrite Hnne by lia. apply Hu. lia. }
    split.
    { intros k o Hlt Ho. destruct (decide (k = i)) as [->|Hne].
      - rewrite list_lookup_insert_eq in Ho by lia. done.
      - rewrite Hnne in Ho by done. apply Hp; [lia|done]. }
    split.
    { intros k o Hlt Ho. rewrite Hnne in Ho by lia. by apply (Hf k). }
    intros HF k o1 Hlt Ho1 Hacc. destruct (decide (k = i)) as [->|Hne].
    + rewrite Ho0 in Ho1. injection Ho1 as <-. destruct Hacc. congruence.
    + rewrite Hnne by done. apply Hk; (done || lia).
Qed.

Lemma scan_prefix_filtered (n : nat) :
  (n ≤ length chunk)%nat →
  filtered n (foldl (scan_overlap transmute) (Some <$> chunk, 0%nat) (seq 0 n)).
Proof.
  induction n as [|n IH]; intros Hn.
  - simpl. split; [by rewrite length_fmap|]. split; [done|]. split.
    { intros k _. by rewrite list_lookup_fmap. }
    split; [intros k o Hk; lia|]. split; [intros k o Hk; lia|].
    intros _ k o0 Hk. lia.
  - rewrite seq_S, foldl_app. simpl.
    apply scan_overlap_filtered; [lia|]. apply IH. lia.
Qed.

(** The entries of a vector that are not null, when every entry is null
    or the image of the entry of [chunk] at its position. *)
Lemma omap_images ov (l : list Overlap) (keep : Overlap → Prop)
  `{∀ o, Decision (keep o)} :
  length ov = length l →
  (∀ k o0, l !! k = Some o0 →
     ov !! k = Some (if decide (keep o0) then Some (transmute o0) else None)) →
  omap id ov = transmute <$> filter keep l.
Proof.
  revert l. induction ov as [|x ov IH]; intros [|o0 l] Hlen Hall;
    try done.
  simpl in Hlen. pose proof (Hall 0%nat o0 eq_refl) as H0. simpl in H0.
  injection H0 as ->.
  rewrite filter_cons. destruct (decide (keep o0)) as [Hyes|Hno]; simpl.
  - f_equal. apply IH; [lia|]. intros k o1 Hk. by apply (Hall (S k)).
  - apply IH; [lia|]. intros k o1 Hk. by apply (Hall (S k)).
Qed.

Lemma omap_sublist ov (l : list Overlap) :
  length ov = length l →
  (∀ k o, ov !! k = Some (Some o) →
     ∃ o0, l !! k = Some o0 ∧ o = transmute o0) →
  omap id ov `sublist_of` (transmute <$> l).
Proof.
  revert l. induction ov as [|x ov IH]; intros [|o0 l] Hlen Hall;
    try done.
  simpl in Hlen.
  assert (Htail : omap id ov `sublist_of` (transmute <$> l)).
  { apply IH; [lia|]. intros k o Hk. by apply (Hall (S k)). }
  destruct x as [o|]; simpl.
  - destruct (Hall 0%nat o eq_refl) as (o1 & Ho1 & ->). simpl in Ho1.
    injection Ho1 as ->. by apply sublist_skip.
  - by apply sublist_cons.
Qed.

(** When the parser yields the overlaps in one chunk, in both modes every
    overlap that is left is the transmuted form of a loaded overlap, is
    valid, has an error of at most the threshold and differs in query and
    target, and the overlaps that are left are in the order of loading.
    In fragment mode they are exactly the loaded overlaps that are valid
    and pass the two filters. *)
Theorem normalized_overlaps_accepted (st : normalizer) :
  overlaps_ st = [] → l_ st = 0 →
  let left := omap id (overlaps_ (normalize_chunks transmute [chunk] st)) in
  Forall (λ o, is_valid_ o = true ∧ passes_filters o = true) left
  ∧ left `sublist_of` (transmute <$> chunk)
  ∧ (type_ = kF → left = transmute <$> filter accepted chunk).
Proof.
  intros Hov Hl left.
  destruct (normalize_single_chunk transmute chunk st Hov Hl)
    as (ov & c & Hscan & Hres).
  pose proof (scan_prefix_filtered (length chunk) ltac:(lia)) as Hfil.
  rewrite Hscan in Hfil.
  destruct Hfil as (Hlen & Hc & _ & Hp & Hf & Hk).
  destruct (remove_invalid_overlaps_spec ov c (length ov) ltac:(lia))
    as (Hn & Hpass & _ & _ & Hkeep).
  set (ovf := remove_invalid_overlaps ov c (length ov)) in *.
  assert (Hleft : left = omap id ovf).
  { unfold left. by rewrite Hres, omap_filter_is_Some. }
  assert (Hlenf : length ovf = length chunk) by (destruct Hn; congruence).
  assert (Hsound : ∀ k o, ovf !! k = Some (Some o) →
            ∃ o0, chunk !! k = Some o0 ∧ o = transmute o0
                  ∧ is_valid_ o = true ∧ passes_filters o = true).
  { intros k o Ho. apply lookup_lt_Some in Ho as Hlt.
    pose proof (only_nulled_live _ _ _ _ _ _ Hn Ho) as Ho'.
    destruct (Hp k o ltac:(lia) Ho') as (o0 & Ho0 & -> & Hv).
    exists o0. split; [done|]. split; [done|]. split; [done|].
    destruct (decide (c ≤ k)%nat) as [Hck|Hck].
    - apply (Hpass k); [lia|done].
    - apply (Hf k); [lia|done]. }
  rewrite Hleft. split; [|split].
  - apply Forall_forall. intros o Ho.
    apply list_elem_of_omap in Ho as (x & Hx & Hxo). simpl in Hxo. subst x.
    apply list_elem_of_lookup in Hx as [k Hkx].
    destruct (Hsound k o Hkx) as (o0 & _ & _ & Hv & Hpf). done.
  - apply omap_sublist; [done|]. intros k o Ho.
    destruct (Hsound k o Ho) as (o0 & Ho0 & -> & _). by exists o0.
  - intros HF. apply (omap_images ovf chunk accepted Hlenf).
    intros k o0 Ho0. apply lookup_lt_Some in Ho0 as Hlt.
    destruct (decide (accepted o0)) as [Hacc|Hnacc].
    + apply (Hkeep HF); [|apply Hacc]. apply Hk; (done || lia).
    + destruct (lookup_lt_is_Some_2 ovf k ltac:(lia)) as [[o|] Ho]; [|done].
      exfalso. apply Hnacc.
      destruct (Hsound k o Ho) as (o1 & Ho1 & -> & Hv & Hpf).
      rewrite Ho0 in Ho1. injection Ho1 as <-. done.
Qed.

End NormalizedOverlaps.


(** ** The names of the emitted sequences *)

Section EmittedNames.

(** The name of [e] is made for the window [w]: the name of the target of
    [w], [r] in fragment mode, the length of the data of [e], the coverage
    of the target of [w] and a ratio. *)
Definition named_for (p : Polisher) (w : Window) (e : Sequence) : Prop :=
  ∃ ratio : Q,
    name_ e
    = (name_ (default (createSequence "" "")
                (mjoin (polisher_sequences_ p !! Z.to_nat (id_ w))))
         ++ (if decide (type_ = kF) then "r" else "")
         ++ " LN:i:" ++ pretty (size (data_ e))
         ++ " RC:i:" ++ pretty (vec_at (targets_coverages_ p) (id_ w))
         ++ " XC:f:" ++ double_to_string ratio)%string.

Lemma foldl_invariant_in {A B : Type} (I : A → Prop) (f : A → B → A)
  (l : list B) (a : A) :
  I a → (∀ a b, b ∈ l → I a → I (f a b)) → I (foldl f a l).
Proof.
  revert a. induction l as [|b l IH]; intros a Ha Hf; simpl; [done|].
  apply IH.
  - apply Hf; [apply list_elem_of_here|done].
  - intros a' b' Hb'. apply Hf. by apply list_elem_of_further.
Qed.

Lemma emit_named_for (p : Polisher) (drop : bool) (w : Window)
  (windows : list Window) (st : polish_state) (dst0 : list Sequence) :
  w ∈ windows →
  extends (λ e, ∃ w, w ∈ windows ∧ named_for p w e) dst0 st →
  extends (λ e, ∃ w, w ∈ windows ∧ named_for p w e) dst0
    (emit p drop w st).
Proof.
  intros Hw (emitted & Hdst & Hall). unfold emit, extends. simpl.
  destruct (negb drop || _).
  - eexists (emitted ++ [_]). rewrite Hdst, <- app_assoc. split; [done|].
    apply Forall_app. split; [done|]. apply Forall_singleton.
    exists w. split; [done|]. unfold named_for. simpl. by eexists.
  - by exists emitted.
Qed.

(** In both modes every sequence [polish] emits is named for one of the
    windows of the polisher: its name is the name of the target of that
    window, followed by [r] in fragment mode only, by the tag [LN:i:] with
    the length of its data, by the tag [RC:i:] with the coverage of that
    target, and by the tag [XC:f:]. *)
Theorem polish_names (p : Polisher) (dst0 : list Sequence) (drop : bool) :
  let polished :=
    (λ w, (generate_consensus w
             (if Qeq_bool overlap_percentage_ 0 then trim_ else false)).1)
      <$> windows_ p in
  ∃ emitted,
    (polish p dst0 drop).2 = dst0 ++ emitted
    ∧ Forall (λ e, ∃ w, w ∈ polished ∧ named_for p w e) emitted.
Proof.
  intros polished. unfold polish. cbn [snd].
  set (results := _ <$> windows_ p).
  assert (Hwin : fst <$> results = polished).
  { unfold results, polished. by rewrite <- list_fmap_compose. }
  assert (Hat : ∀ i, i ∈ seq 0 (length results) →
            window_at (fst <$> results) i ∈ polished).
  { intros i Hi. apply list_elem_of_In, in_seq in Hi.
    unfold window_at.
    destruct (lookup_lt_is_Some_2 (fst <$> results) i) as [w Hw].
    { rewrite length_fmap. lia. }
    rewrite Hw. simpl. rewrite <- Hwin. by eapply list_elem_of_lookup_2. }
  apply (foldl_invariant_in
           (extends (λ e, ∃ w, w ∈ polished ∧ named_for p w e) dst0)).
  - exists []. simpl. by rewrite app_nil_r.
  - intros st i Hi Hst. destruct (Qeq_bool overlap_percentage_ 0).
    + unfold polish_default_step.
      destruct (is_last _ _); [|done].
      apply emit_named_for; [by apply Hat|done].
    + unfold polish_overlap_step.
      destruct (is_last _ _); [|done].
      apply emit_named_for; [by apply Hat|done].
Qed.

End EmittedNames.


(** ** The window builder of the older variant *)

Section LegacyWindows.

(** The loop of the older variant of [polisher.cpp] for one target: a
    window starts at [j] and ends at [j + window_length_], clipped at the
    end of the target.  (Its [createWindow] has no overlap flag.) *)
Fixpoint legacy_window_loop (fuel : nat) (window_type : WindowType) (i : Z)
  (sz : Z) (has_quality : bool) (j k : Z) (windows : list Window) :
  option (list Window * Z) :=
  if negb (j <? sz) then Some (windows, k)
  else
    match fuel with
    | O => None
    | S fuel' =>
        let length :=
          wrap32 (Z.min (wrap32 (j + window_length_)) (wrap32 sz) - j) in
        legacy_window_loop fuel' window_type i sz has_quality
          (wrap32 (j + window_length_)) (wrap32 (k + 1))
          (windows ++ [createWindow i k window_type false j length has_quality])
    end.

Lemma offset_zero : Qeq_bool overlap_percentage_ 0 = true → offset = 0.
Proof.
  intros H. apply Qeq_bool_iff in H. unfold offset.
  rewrite round_double_0; [done|]. rewrite H. ring.
Qed.

(** With [overlap_percentage_ = 0] the window loop is the loop of the
    older variant: it builds the same windows in the same order, and it
    leaves the loop after the same rounds or not at all. *)
Theorem window_loop_legacy (fuel : nat) (window_type : WindowType)
  (i sz : Z) (has_quality : bool) (j k : Z) (windows : list Window) :
  Qeq_bool overlap_percentage_ 0 = true → 0 ≤ j < 2 ^ 32 →
  window_loop fuel window_type i sz has_quality j k windows
  = legacy_window_loop fuel window_type i sz has_quality j k windows.
Proof.
  intros Hmode. pose proof (offset_zero Hmode) as Ho.
  revert j k windows. induction fuel as [|fuel IH]; intros j k windows Hj.
  - done.
  - simpl. destruct (negb (j <? sz)); [done|].
    rewrite Ho, Hmode. simpl negb.
    rewrite IH by (unfold wrap32; apply Z.mod_pos_bound; lia).
    do 3 f_equal.
    destruct (0 <? j).
    + change (wrap32 (0 + 0)) with 0.
      rewrite Z.sub_0_r, Z.add_0_r, (wrap32_small j) by done. done.
    + by rewrite Z.add_0_r.
Qed.

End LegacyWindows.


End Polisher.


(** * Part III: concrete runs *)

(** Stand-ins for the methods that are not part of the sources: the
    overlaps and the sequences arrive transmuted, a window is returned as
    it is and counted as polished, and the alignment of two strings is the
    pair of them. *)
Definition keep_overlap (_ : list (option Sequence)) (_ : gmap string Z)
  (_ : gmap Z Z) (o : Overlap) : Overlap := o.
Definition keep_breaking_points (_ : list (option Sequence)) (_ : Z) (_ : Q)
  (o : Overlap) : Overlap := o.
Definition keep_sequence (_ _ _ : bool) (s : Sequence) : Sequence := s.
Definition keep_window (w : Window) (_ : bool) : Window * bool := (w, true).
Definition pair_alignment (l r : string) : list string := [l; r].
Definition ratio_to_string (q : Q) : string :=
  (pretty (Qnum q) ++ "/" ++ pretty (Z.pos (Qden q)))%string.

Definition sample_window (id rank : Z) (consensus : string) : Window :=
  {| id_ := id; rank_ := rank; window_type_ := kNGS; overlap_ := true;
     backbone_start_ := 0; backbone_length_ := size consensus;
     backbone_has_quality_ := false; layers_ := [];
     consensus_ := consensus; summary_ := []; coder_ := [] |}.

Definition sample_polisher (windows : list Window) : Polisher :=
  {| windows_ := windows;
     polisher_sequences_ := [Some (createSequence "ctg" "")];
     targets_coverages_ := [3] |}.

Definition sample_overlap (q t length : Z) (error : Q) : Overlap :=
  {| q_id_ := q; t_id_ := t; length_ := length; error_ := error;
     strand_ := false; is_valid_ := true; breaking_points_ := [] |}.

Definition empty_normalizer : normalizer :=
  {| overlaps_ := []; has_data := []; has_reverse_data := []; l_ := 0 |}.

(** The [double]s nearest to 0.3 and to 0.1. *)
Definition double_0_3 : Q := 5404319552844595 # 18014398509481984.
Definition double_0_1 : Q := 3602879701896397 # 36028797018963968.

(** ** C10 *)

(** Past the end of the vector the returned count is not the number of
    null entries removed: nothing is removed from the empty vector, and
    the count for [begin = 1] is [2 ^ 64 - 1]. *)
Lemma shrinkToFit_count_counterexample :
  (shrinkToFit ([] : list (option nat)) 1).1 = []
  ∧ count_nulls (drop 1 ([] : list (option nat))) = 0%nat
  ∧ (shrinkToFit ([] : list (option nat)) 1).2 = 2 ^ 64 - 1
  ∧ (shrinkToFit ([] : list (option nat)) 1).2
    ≠ Z.of_nat (count_nulls (drop 1 ([] : list (option nat)))).
Proof. by vm_compute. Qed.

Lemma shrinkToFit_stable_compaction_witness :
  let src := [Some 1%nat; None; Some 2%nat; None; None; Some 3%nat] in
  (shrinkToFit src 1).1 = [Some 1%nat; Some 2%nat; Some 3%nat]
  ∧ Legacy.shrinkToFit src 1 = [Some 1%nat; Some 2%nat; Some 3%nat]
  ∧ (shrinkToFit src 1).2 = 3.
Proof.
  intros src.
  destruct (shrinkToFit_stable_compaction src 1) as (Hv & Hl & Hc & _).
  destruct Hc as [Hc _]; [simpl; lia|simpl; lia|].
  rewrite Hl, Hc, Hv. by vm_compute.
Defined.

(** ** C1 *)

(** An alignment of the left tail GGGG with the whole window GGGGTTTT that
    matches GGGG and leaves TTTT unmatched. *)
Definition tail_alignment (l r : string) : list string :=
  if String.eqb r "GGGGTTTT" then ["GGGG----"; "GGGGTTTT"]%string else [l; r].

(** When GGGGTTTT is the last window of its target, [len_r] is 8 and not 4,
    and with the alignment that matches GGGG the emitted body is
    AAAAGGGGTTTTTTTT; when a further window follows, the data accumulated
    after the stitch of the pair is AAAAGGGG. *)
Lemma stitch_boundary_counterexample :
  let L := sample_window 0 0 "AAAAGGGG" in
  let R := sample_window 0 1 "GGGGTTTT" in
  let X := sample_window 0 2 "TTTTCCCC" in
  right_length (1 # 4) R (is_last [L; R] 1) = 8
  ∧ right_length (1 # 4) R (is_last [L; R] 1) ≠ 4
  ∧ data_ <$> (polish kC (1 # 4) false keep_window tail_alignment
                 ratio_to_string (sample_polisher [L; R]) [] false).2
    = ["AAAAGGGGTTTTTTTT"%string]
  ∧ polished_data
      (after_first_stitch kC (1 # 4) pair_alignment ratio_to_string
         (sample_polisher [L; R; X]) false
         [(L, true); (R, true); (X, true)])
    = "AAAAGGGG"%string
  ∧ "AAAAGGGG"%string ≠ "AAAAGGGGTTTT"%string
  ∧ "AAAAGGGGTTTTTTTT"%string ≠ "AAAAGGGGTTTT"%string.
Proof. by vm_compute. Qed.

Lemma stitch_boundary_witness :
  let L := sample_window 0 0 "AAAAGGGG" in
  let R := sample_window 0 1 "GGGGTTTT" in
  let X := sample_window 0 2 "TTTTCCCC" in
  left_length (1 # 4) L = 4
  ∧ right_length (1 # 4) R false = 4
  ∧ right_length (1 # 4) R true = 8
  ∧ polished_data
      (after_first_stitch kC (1 # 4) pair_alignment ratio_to_string
         (sample_polisher [L; R; X]) false
         [(L, true); (R, true); (X, true)])
    = "AAAAGGGG"%string
  ∧ dst (after_first_stitch kC (1 # 4) pair_alignment ratio_to_string
           (sample_polisher [L; R; X]) false
           [(L, true); (R, true); (X, true)]) = []
  ∧ substr (consensus_ R)
      (wrap32 (size (consensus_ R) - left_length (1 # 4) R))
      (left_length (1 # 4) R) = "TTTT"%string.
Proof.
  intros L R X.
  apply (stitch_boundary kC (1 # 4) pair_alignment ratio_to_string
           (sample_polisher [L; R; X]) false L R X true true true []);
    try done; simpl; lia.
Defined.

(** ** C2 *)

Definition target_x : Sequence := createSequence "x" "ACGT".
Definition query_x_same_length : Sequence := createSequence "x" "TTTT".
Definition query_x_longer : Sequence := createSequence "x" "ACGTA".
Definition query_y : Sequence := createSequence "y" "ACG".

(** A sequence of the name of a target, of the same length and of other
    content, is elided and redirected: the run does not end. *)
Lemma duplicate_unequal_content_counterexample :
  data_ query_x_same_length ≠ data_ target_x
  ∧ match load_sequences [target_x] [[query_x_same_length; query_y]] with
    | Done st =>
        sequences_ st = [Some target_x; Some query_y]
        ∧ id_to_id st !! 0 = Some 0
        ∧ name_to_id st !! "xq"%string = Some 0
    | _ => False
    end.
Proof. split; [done|]. by vm_compute. Qed.

Lemma duplicate_names_elided_or_fatal_witness :
  load_sequences [target_x] [[query_y; query_x_longer]]
    = Exit 1 (duplicate_message query_x_longer)
  ∧ ∀ st, load_sequences [target_x] [[query_x_same_length; query_y]] = Done st →
      sequences_ st
        = Some <$> [target_x] ++ kept [target_x] [query_x_same_length; query_y]
      ∧ redirected [target_x] [query_x_same_length; query_y] st.
Proof.
  split.
  - destruct (duplicate_names_elided_or_fatal [target_x]
                [[query_y; query_x_longer]]) as [Hfatal _];
      [done|simpl; lia|].
    destruct Hfatal as (s & Hin & _ & Hexit).
    + exists query_x_longer. split; [set_solver|].
      exists 0, target_x. split; [by vm_compute|]. split; [done|].
      intros [H _]. by vm_compute in H.
    + rewrite Hexit. symmetry. exact Hexit.
  - intros st Hst.
    destruct (duplicate_names_elided_or_fatal [target_x]
                [[query_x_same_length; query_y]]) as [_ Hdone];
      [done|simpl; lia|].
    exact (Hdone st Hst).
Defined.

(** ** C3 *)





(** ** C4 *)

(** With [window_length = 4] and [overlap_percentage = 0.25] the offset is
    1 and a target of length 10 gets the windows [0, 5), [3, 9) and
    [7, 10): the window of rank 0 grows by the offset on the right too.
    With [window_length = 10] and [overlap_percentage] the [double]
    nearest to 0.3, which is below 0.3, the product is the [double] 3 and
    the offset is 3, not ⌊10 · overlap_percentage⌋ = 2: a target of length
    25 gets the windows [0, 13), [7, 23) and [17, 25). *)
Lemma window_builder_counterexample :
  offset 4 (1 # 4) = 1
  ∧ match window_loop 4 (1 # 4) 10 kNGS 0 10 false 0 0 [] with
    | Some (windows, n) =>
        n = 3
        ∧ (λ w, (rank_ w, backbone_start_ w, backbone_length_ w)) <$> windows
          = [(0, 0, 5); (1, 3, 6); (2, 7, 3)]
    | None => False
    end
  ∧ 5 ≠ 4
  ∧ (round_double (3 # 10) == double_0_3)%Q
  ∧ Qfloor (inject_Z 10 * double_0_3) = 2
  ∧ offset 10 double_0_3 = 3
  ∧ match window_loop 10 double_0_3 25 kNGS 0 25 false 0 0 [] with
    | Some (windows, n) =>
        n = 3
        ∧ (λ w, (rank_ w, backbone_start_ w, backbone_length_ w)) <$> windows
          = [(0, 0, 13); (1, 7, 16); (2, 17, 8)]
    | None => False
    end.
Proof. by vm_compute. Qed.

Lemma window_builder_spans_witness :
  ∃ new,
    window_loop 10 double_0_3 25 kNGS 0 25 false 0 0 [] = Some (new, 3)
    ∧ Z.of_nat (length new) = 3
    ∧ offset 10 double_0_3 = 3
    ∧ (∀ (k : nat) w, new !! k = Some w →
         rank_ w = Z.of_nat k
         ∧ backbone_start_ w
           = (if decide (k = 0%nat) then 0 else Z.of_nat k * 10 - 3)
         ∧ backbone_start_ w + backbone_length_ w
           = Z.min ((Z.of_nat k + 1) * 10 + 3) 25).
Proof.
  destruct (window_builder_spans 10 double_0_3 kNGS 0 25 false [])
    as (new & Hrun & Hlen & Ho & Hspan & _);
    [lia|done|done|lia|lia|].
  exists new. split; [exact Hrun|]. split; [exact Hlen|].
  split; [by vm_compute|].
  intros k w Hk. destruct (Hspan k w Hk) as (_ & Hr & Hs & He).
  split; [done|]. split; [exact Hs|exact He].
Defined.

(** ** C5 and C6 *)

Definition read_with_quality (quality : string) : Sequence :=
  createSequence' "read" "ACGTACGTACGTACGTACGT" quality "" "".

Definition sample_fragments (breaking_points : list (Z * Z)) : Overlap :=
  {| q_id_ := 1; t_id_ := 0; length_ := 20; error_ := 0; strand_ := false;
     is_valid_ := true; breaking_points_ := breaking_points |}.







(** ** C8 *)

Lemma initialize_fatal_on_empty_input_witness :
  let init := initialize kC 500 (1 # 4) 10 (3 # 10) keep_overlap
                keep_breaking_points keep_sequence (sample_polisher []) in
  init [] [[query_y]] [[sample_overlap 1 0 10 0]]
    = Exit 1 empty_targets_message
  ∧ init [target_x] [[]; []] [[sample_overlap 1 0 10 0]]
    = Exit 1 empty_sequences_message
  ∧ init [target_x] [[query_y]] [[sample_overlap 1 0 10 (9 # 10)]]
    = Exit 1 empty_overlaps_message.
Proof.
  intros init.
  destruct (initialize_fatal_on_empty_input kC 500 (1 # 4) 10 (3 # 10)
              keep_overlap keep_breaking_points keep_sequence
              (sample_polisher []) [] [[query_y]] [[sample_overlap 1 0 10 0]]
              eq_refl) as (H1 & _).
  destruct (initialize_fatal_on_empty_input kC 500 (1 # 4) 10 (3 # 10)
              keep_overlap keep_breaking_points keep_sequence
              (sample_polisher []) [target_x] [[]; []]
              [[sample_overlap 1 0 10 0]] eq_refl) as (_ & H2 & _).
  destruct (initialize_fatal_on_empty_input kC 500 (1 # 4) 10 (3 # 10)
              keep_overlap keep_breaking_points keep_sequence
              (sample_polisher []) [target_x] [[query_y]]
              [[sample_overlap 1 0 10 (9 # 10)]] eq_refl) as (_ & _ & H3 & _).
  split; [by apply H1|]. split; [by apply H2|].
  destruct (load_sequences [target_x] [[query_y]]) as [st| |] eqn:Hst;
    [|by vm_compute in Hst..].
  apply (H3 st eq_refl).
  vm_compute in Hst. injection Hst as <-. by vm_compute.
Defined.

(** ** C9 *)

(** For the consensus ACG and [overlap_percentage = 0.25] the prefix of the
    window of rank 0 is A, of length [trunc (3 - 1.5) = 1], where the
    length [3 - trunc 1.5] is 2.  For the consensus ACGTA and
    [overlap_percentage] the [double] nearest to 0.1, which is above 0.1,
    the product is the [double] 1 and the prefix is ACGT, of length 4,
    where ⌊5 − 2 · overlap_percentage · 5⌋ is 3. *)
Lemma single_window_prefix_counterexample :
  substr "ACG" 0 (overlap_start (1 # 4) "ACG") = "A"%string
  ∧ size "ACG" - Qfloor (2 * (1 # 4) * inject_Z (size "ACG")) = 2
  ∧ size (substr "ACG" 0 (overlap_start (1 # 4) "ACG"))
    ≠ size "ACG" - Qfloor (2 * (1 # 4) * inject_Z (size "ACG"))
  ∧ (round_double (1 # 10) == double_0_1)%Q
  ∧ Qfloor (inject_Z (size "ACGTA")
            - 2 * double_0_1 * inject_Z (size "ACGTA")) = 3
  ∧ overlap_start double_0_1 "ACGTA" = 4
  ∧ substr "ACGTA" 0 (overlap_start double_0_1 "ACGTA") = "ACGT"%string.
Proof. by vm_compute. Qed.

(** Three targets of one window each: the second is emitted with its
    consensus as its body. *)
Lemma single_window_body_witness :
  let p :=
    sample_polisher [sample_window 0 0 "TT"; sample_window 1 0 "ACG";
                     sample_window 2 0 "GG"] in
  let visited :=
    overlap_mode_visited kC (1 # 4) pair_alignment ratio_to_string p []
      false ((λ w, keep_window w false) <$> windows_ p) in
  overlap_start (1 # 4) "ACG" = 1
  ∧ data_ <$> dst (visited 2%nat) = ["TT"; "ACG"]%string
  ∧ ∃ rest,
      (polish kC (1 # 4) false keep_window pair_alignment ratio_to_string
         p [] false).2
      = dst (visited 2%nat) ++ rest.
Proof.
  intros p visited.
  destruct (single_window_body kC (1 # 4) false keep_window pair_alignment
              ratio_to_string p [] false 1%nat (sample_window 1 0 "ACG"))
    as (Hstart & _ & _ & _ & (emitted & Hdst & Hall & _ & Hlen) & Hrest);
    [done|done|done|done|done|done|by vm_compute|].
  split; [exact Hstart|]. split; [|exact Hrest].
  specialize (Hlen eq_refl).
  destruct emitted as [|e [|e' emitted]]; [done| |done].
  apply Forall_cons in Hall as [He _].
  unfold visited. rewrite Hdst, fmap_app. simpl in *. rewrite He.
  by vm_compute.
Defined.

(** * Part IV: construction of the polisher *)

Lemma substring_app_r (p s : string) (n : nat) :
  substring (String.length p) n (p ++ s) = substring 0 n s.
Proof. induction p as [|c p IH]; [done|]. rewrite append_cons. apply IH. Qed.

Lemma length_append (p s : string) :
  String.length (p ++ s) = (String.length p + String.length s)%nat.
Proof.
  induction p as [|c p IH]; [done|]. rewrite append_cons. simpl. by rewrite IH.
Qed.

Lemma is_suffix_prefix (src suffix : string) :
  is_suffix src suffix = true ↔ ∃ prefix, src = (prefix ++ suffix)%string.
Proof.
  unfold is_suffix, substr, size. split.
  - destruct (_ <? _) eqn:Hlt; [done|]. apply Z.ltb_ge in Hlt.
    intros H. apply String.eqb_eq in H.
    exists (substring 0 (String.length src - String.length suffix) src).
    pose proof (substring_split src
                  (String.length src - String.length suffix) ltac:(lia)) as Hs.
    replace (Z.to_nat (Z.min _ _))
      with (String.length src
            - (String.length src - String.length suffix))%nat in H by lia.
    replace (Z.to_nat (_ - _))
      with (String.length src - String.length suffix)%nat in H by lia.
    by rewrite H in Hs.
  - intros [prefix ->]. rewrite length_append.
    replace (_ <? _) with false by (symmetry; apply Z.ltb_ge; lia).
    apply String.eqb_eq.
    replace (Z.to_nat (Z.min _ _)) with (String.length suffix) by lia.
    replace (Z.to_nat (_ - _)) with (String.length prefix) by lia.
    by rewrite substring_app_r, substring_all.
Qed.

Definition ends_with (path extension : string) : Prop :=
  ∃ prefix, path = (prefix ++ extension)%string.

Definition fasta_extensions : list string :=
  [".fasta"; ".fasta.gz"; ".fna"; ".fna.gz"; ".fa"; ".fa.gz"]%string.
Definition fastq_extensions : list string :=
  [".fastq"; ".fastq.gz"; ".fq"; ".fq.gz"]%string.
Definition mhap_extensions : list string := [".mhap"; ".mhap.gz"]%string.
Definition paf_extensions : list string := [".paf"; ".paf.gz"]%string.
Definition sam_extensions : list string := [".sam"; ".sam.gz"]%string.

Lemma is_suffix_true (src suffix : string) :
  is_suffix src suffix = true ↔ ends_with src suffix.
Proof. apply is_suffix_prefix. Qed.

(** [is_suffix src suffix] holds exactly when [src] ends with [suffix],
    that is when [src] is some prefix followed by [suffix]. *)
Theorem is_suffix_spec (src suffix : string) :
  is_suffix src suffix = true ↔ ∃ prefix, src = (prefix ++ suffix)%string.
Proof. apply is_suffix_prefix. Qed.

Lemma is_suffix_false (src suffix : string) :
  is_suffix src suffix = false ↔ ¬ ends_with src suffix.
Proof.
  rewrite <- is_suffix_true. by destruct (is_suffix src suffix).
Qed.

(** Two endings of one string: one of them ends with the other. *)
Lemma ends_with_both (path e1 e2 : string) :
  ends_with path e1 → ends_with path e2 →
  is_suffix e1 e2 = true ∨ is_suffix e2 e1 = true.
Proof.
  intros [p1 ->] [p2 H]. rewrite !is_suffix_true.
  revert p2 H. induction p1 as [|c p1 IH]; intros p2 H.
  - left. exists p2. by rewrite append_nil_l in H.
  - destruct p2 as [|c2 p2].
    + right. exists (String c p1). by rewrite append_nil_l in H.
    + rewrite !append_cons in H. injection H as Hc H. by apply (IH p2).
Qed.

Lemma exists_is_suffix (path : string) (extensions : list string) :
  existsb (is_suffix path) extensions = true
  ↔ Exists (ends_with path) extensions.
Proof.
  rewrite existsb_exists, Exists_exists.
  split; intros (e & He & H); exists e;
    (split; [by apply list_elem_of_In|by apply is_suffix_true]).
Qed.

Lemma sequence_parser_unfold (path : string) :
  sequence_parser path
  = if existsb (is_suffix path) fasta_extensions then Some FastaParser
    else if existsb (is_suffix path) fastq_extensions then Some FastqParser
    else None.
Proof.
  unfold sequence_parser. simpl. by rewrite !orb_false_r, !orb_assoc.
Qed.

Lemma overlap_parser_unfold (path : string) :
  overlap_parser path
  = if existsb (is_suffix path) mhap_extensions then Some MhapParser
    else if existsb (is_suffix path) paf_extensions then Some PafParser
    else if existsb (is_suffix path) sam_extensions then Some SamParser
    else None.
Proof. unfold overlap_parser. simpl. by rewrite !orb_false_r. Qed.

(** No ending of one family of extensions goes with an ending of another
    one on the same path. *)
Lemma disjoint_extensions (path : string) (family1 family2 : list string) :
  forallb (λ e1, forallb (λ e2, negb (is_suffix e1 e2 || is_suffix e2 e1))
                   family2) family1 = true →
  Exists (ends_with path) family1 → Exists (ends_with path) family2 → False.
Proof.
  intros Hd H1 H2.
  apply Exists_exists in H1 as (e1 & Hin1 & He1).
  apply Exists_exists in H2 as (e2 & Hin2 & He2).
  rewrite forallb_forall in Hd.
  apply list_elem_of_In, Hd in Hin1. rewrite forallb_forall in Hin1.
  apply list_elem_of_In, Hin1 in Hin2.
  apply negb_true_iff, orb_false_iff in Hin2 as [Ha Hb].
  destruct (ends_with_both path e1 e2 He1 He2); congruence.
Qed.

Lemma sequence_parser_cases (path : string) :
  (sequence_parser path = Some FastaParser
   ↔ Exists (ends_with path) fasta_extensions)
  ∧ (sequence_parser path = Some FastqParser
     ↔ Exists (ends_with path) fastq_extensions)
  ∧ (sequence_parser path = None
     ↔ Forall (λ e, ¬ ends_with path e)
         (fasta_extensions ++ fastq_extensions)).
Proof.
  rewrite sequence_parser_unfold.
  pose proof (exists_is_suffix path fasta_extensions) as Ha.
  pose proof (exists_is_suffix path fastq_extensions) as Hq.
  pose proof (disjoint_extensions path fasta_extensions fastq_extensions
                eq_refl) as Hd.
  rewrite Forall_app, !Forall_Exists_neg.
  set (A := Exists (ends_with path) fasta_extensions) in *.
  set (B := Exists (ends_with path) fastq_extensions) in *.
  destruct (existsb _ fasta_extensions), (existsb _ fastq_extensions);
    intuition congruence.
Qed.

(** The parser chosen for a file of sequences is decided by the ending of
    its path alone: the FASTA parser for the six FASTA endings, the FASTQ
    parser for the four FASTQ endings (no path has an ending of both
    families), none for any other path. *)
Theorem sequence_parser_spec (path : string) :
  (sequence_parser path = Some FastaParser
   ↔ Exists (ends_with path) fasta_extensions)
  ∧ (sequence_parser path = Some FastqParser
     ↔ Exists (ends_with path) fastq_extensions)
  ∧ (sequence_parser path = None
     ↔ Forall (λ e, ¬ ends_with path e)
         (fasta_extensions ++ fastq_extensions)).
Proof. apply sequence_parser_cases. Qed.

Lemma overlap_parser_cases (path : string) :
  (overlap_parser path = Some MhapParser
   ↔ Exists (ends_with path) mhap_extensions)
  ∧ (overlap_parser path = Some PafParser
     ↔ Exists (ends_with path) paf_extensions)
  ∧ (overlap_parser path = Some SamParser
     ↔ Exists (ends_with path) sam_extensions)
  ∧ (overlap_parser path = None
     ↔ Forall (λ e, ¬ ends_with path e)
         (mhap_extensions ++ paf_extensions ++ sam_extensions)).
Proof.
  rewrite overlap_parser_unfold.
  pose proof (exists_is_suffix path mhap_extensions) as Hm.
  pose proof (exists_is_suffix path paf_extensions) as Hp.
  pose proof (exists_is_suffix path sam_extensions) as Hs.
  pose proof (disjoint_extensions path mhap_extensions paf_extensions
                eq_refl) as Hmp.
  pose proof (disjoint_extensions path mhap_extensions sam_extensions
                eq_refl) as Hms.
  pose proof (disjoint_extensions path paf_extensions sam_extensions
                eq_refl) as Hps.
  rewrite !Forall_app, !Forall_Exists_neg.
  set (M := Exists (ends_with path) mhap_extensions) in *.
  set (P := Exists (ends_with path) paf_extensions) in *.
  set (X := Exists (ends_with path) sam_extensions) in *.
  destruct (existsb _ mhap_extensions), (existsb _ paf_extensions),
    (existsb _ sam_extensions); intuition congruence.
Qed.

(** The parser chosen for the file of overlaps is decided by the ending of
    its path alone: MHAP, PAF or SAM, each plain or with [.gz]; the three
    families exclude each other, and any other path has no parser. *)
Theorem overlap_parser_spec (path : string) :
  (overlap_parser path = Some MhapParser
   ↔ Exists (ends_with path) mhap_extensions)
  ∧ (overlap_parser path = Some PafParser
     ↔ Exists (ends_with path) paf_extensions)
  ∧ (overlap_parser path = Some SamParser
     ↔ Exists (ends_with path) sam_extensions)
  ∧ (overlap_parser path = None
     ↔ Forall (λ e, ¬ ends_with path e)
         (mhap_extensions ++ paf_extensions ++ sam_extensions)).
Proof. apply overlap_parser_cases. Qed.

(** [createPolisher] returns an object exactly when the type is one of
    the two polisher types, the window length is not zero, the three paths
    have supported endings and CUDA batches are asked for only in a build
    with CUDA; otherwise it ends the run with [exit(1)] and a message.  A
    [Polisher] it returns has the window length it was given, which is not
    zero, the parsers that the endings of the paths decide, a filler
    quality of [2 * window_length] characters (modulo [2 ^ 32]) and one
    alignment engine for each thread. *)
Theorem createPolisher_outcome (cuda_enabled : bool) (file func : string)
  (sequences_path overlaps_path target_path : string)
  (type : option PolisherType) (window_length : Z)
  (overlap_percentage quality_threshold error_threshold : Q) (trim : bool)
  (match_score mismatch gap : Z) (num_threads cudapoa_batches : Z)
  (cuda_banded_alignment : bool) (cudaaligner_batches : Z) :
  let run :=
    createPolisher cuda_enabled file func sequences_path overlaps_path
      target_path type window_length overlap_percentage quality_threshold
      error_threshold trim match_score mismatch gap num_threads
      cudapoa_batches cuda_banded_alignment cudaaligner_batches in
  ((∃ c, run = Done c)
   ↔ is_Some type ∧ window_length ≠ 0
     ∧ is_Some (sequence_parser sequences_path)
     ∧ is_Some (overlap_parser overlaps_path)
     ∧ is_Some (sequence_parser target_path)
     ∧ (cuda_enabled = true
        ∨ (cudapoa_batches ≤ 0 ∧ cudaaligner_batches ≤ 0)))
  ∧ ((∃ message, run = Exit 1 message ∧ message ≠ ""%string)
     ∨ ∃ c, run = Done c)
  ∧ (∀ m, run = Done (new_Polisher m) →
       Some (members_type_ m) = type
       ∧ members_window_length_ m = window_length ∧ window_length ≠ 0
       ∧ cudapoa_batches ≤ 0 ∧ cudaaligner_batches ≤ 0
       ∧ sequence_parser sequences_path = Some (sparser_ m).1
       ∧ overlap_parser overlaps_path = Some (oparser_ m).1
       ∧ sequence_parser target_path = Some (tparser_ m).1
       ∧ size (dummy_quality_ m) = wrap32 (window_length * 2)
       ∧ length (alignment_engines_ m) = Z.to_nat num_threads).
Proof.
  intros run. unfold run, createPolisher.
  assert (Hlen : ∀ n c, String.length (string_of n c) = n).
  { intros n c. induction n as [|n IH]; simpl; congruence. }
  destruct type as [type|].
  2:{ split; [|split].
      - split; [by intros [c H]|]. by intros ([? ?] & _).
      - left. by eexists.
      - by intros m H. }
  destruct (Z.eqb_spec window_length 0) as [->|Hwl].
  { split; [|split].
    - split; [by intros [c H]|]. by intros (_ & ? & _).
    - left. by eexists.
    - by intros m H. }
  destruct (sequence_parser sequences_path) as [sparser|].
  2:{ split; [|split].
      - split; [by intros [c H]|]. by intros (_ & _ & [? ?] & _).
      - left. by eexists.
      - by intros m H. }
  destruct (overlap_parser overlaps_path) as [oparser|].
  2:{ split; [|split].
      - split; [by intros [c H]|]. by intros (_ & _ & _ & [? ?] & _).
      - left. by eexists.
      - by intros m H. }
  destruct (sequence_parser target_path) as [tparser|].
  2:{ split; [|split].
      - split; [by intros [c H]|]. by intros (_ & _ & _ & _ & [? ?] & _).
      - left. by eexists.
      - by intros m H. }
  destruct (Z.ltb_spec 0 cudapoa_batches) as [Hp|Hp];
    destruct (Z.ltb_spec 0 cudaaligner_batches) as [Ha|Ha]; simpl;
    try destruct cuda_enabled;
    (split; [|split]);
    try (right; by eexists); try (left; by eexists);
    try (intros m H; try done; injection H as <-; simpl;
         rewrite length_replicate; unfold size; rewrite Hlen;
         rewrite Z2Nat.id by (unfold wrap32; apply Z.mod_pos_bound; lia);
         done);
    (split; [intros [c H]; try done; repeat split; eauto; try lia
            |intros (_ & _ & _ & _ & _ & [?|[? ?]]);
             try done; try lia; by eexists]).
Qed.


(** ** The older variant of the parser selection *)

Lemma substr_from_ends (s : string) (pos : Z) :
  0 ≤ pos ≤ size s → ends_with s (substr_from s pos).
Proof.
  intros Hpos. exists (substring 0 (Z.to_nat pos) s).
  unfold substr_from, substr, size in *.
  replace (Z.to_nat (Z.min _ _))
    with (String.length s - Z.to_nat pos)%nat by lia.
  symmetry. apply substring_split. lia.
Qed.

Lemma rfind_bound (c : ascii) (s : string) (k : nat) :
  rfind c s = Some k → (k < String.length s)%nat.
Proof.
  revert k. induction s as [|a s IH]; intros k; simpl; [done|].
  destruct (rfind c s) as [k'|].
  - intros H. injection H as <-. specialize (IH k' eq_refl). lia.
  - destruct (Ascii.eqb a c); [|done]. intros H. injection H as <-. lia.
Qed.

Lemma legacy_extension_ends (path : string) :
  ends_with path (legacy_extension path).
Proof.
  unfold legacy_extension. apply substr_from_ends.
  destruct (rfind "." path) as [k|] eqn:Hk.
  - apply rfind_bound in Hk. unfold size. lia.
  - unfold size. lia.
Qed.

(** Every path for which the older variant of [createPolisher] has a
    parser gets the same parser from the current one: the extension the
    older variant compares, the rest of the path from its last dot, is an
    ending of the path. *)
Theorem legacy_parsers_kept (path : string) :
  (∀ parser, legacy_sequence_parser path = Some parser →
     sequence_parser path = Some parser)
  ∧ (∀ parser, legacy_overlap_parser path = Some parser →
       overlap_parser path = Some parser).
Proof.
  pose proof (legacy_extension_ends path) as Hends.
  split; intros parser.
  - unfold legacy_sequence_parser.
    destruct (String.eqb_spec (legacy_extension path) ".fasta") as [He|_];
      [|destruct (String.eqb_spec (legacy_extension path) ".fa") as [He|_];
        [|destruct (String.eqb_spec (legacy_extension path) ".fastq")
            as [He|_];
          [|destruct (String.eqb_spec (legacy_extension path) ".fq")
              as [He|_]; [|done]]]];
      simpl; intros H; injection H as <-; rewrite He in Hends;
      apply sequence_parser_cases; unfold fasta_extensions, fastq_extensions;
      rewrite !Exists_cons; tauto.
  - unfold legacy_overlap_parser.
    destruct (String.eqb_spec (legacy_extension path) ".mhap") as [He|_];
      [|destruct (String.eqb_spec (legacy_extension path) ".paf") as [He|_];
        [|destruct (String.eqb_spec (legacy_extension path) ".sam")
            as [He|_]; [|done]]];
      simpl; intros H; injection H as <-; rewrite He in Hends;
      apply overlap_parser_cases;
      unfold mhap_extensions, paf_extensions, sam_extensions;
      rewrite !Exists_cons; tauto.
Qed.

(** * Part V: concrete runs of the further properties *)

Lemma window_loop_zero_length_witness :
  window_loop 0 (1 # 4) 5 kNGS 0 3 false 0 0 [] = None
  ∧ build_windows 0 (1 # 4) kNGS [target_x] 0 [] [0] = None.
Proof.
  apply (window_loop_zero_length 0 (1 # 4) 5 kNGS 0 3 false 0 [] target_x
           [] [0]); [done|lia|by vm_compute].
Defined.

Lemma window_slices_in_bounds_witness :
  ∃ new,
    window_loop 4 (1 # 4) 10 kNGS 0 10 false 0 0 []
      = Some (new, window_count 4 10)
    ∧ Forall (λ w, 0 ≤ backbone_start_ w
                   ∧ 0 < backbone_length_ w ≤ 2 * 4
                   ∧ backbone_start_ w + backbone_length_ w ≤ 10) new
    ∧ ∀ pos, 0 ≤ pos < 10 →
        ∃ w, new !! Z.to_nat (pos / 4) = Some w
             ∧ rank_ w = pos / 4
             ∧ backbone_start_ w ≤ pos < backbone_start_ w + backbone_length_ w.
Proof.
  apply (window_slices_in_bounds 4 (1 # 4) kNGS 0 10 false []);
    [lia|done|done|lia|lia].
Defined.

Definition two_targets : list Sequence :=
  [createSequence "a" "ACGTACGTAC"; createSequence "b" "ACG"].

Lemma build_windows_layout_witness :
  ∃ windows ids,
    build_windows 4 (1 # 4) kNGS two_targets 0 [] [0] = Some (windows, ids)
    ∧ Z.of_nat (length windows) = windows_of 4 two_targets
    ∧ length ids = S (length two_targets)
    ∧ ids !! 0%nat = Some 0
    ∧ ∀ (j : nat) t, two_targets !! j = Some t →
        ∃ first,
          ids !! j = Some first
          ∧ ids !! S j = Some (first + window_count 4 (size (data_ t)))
          ∧ ∀ k, 0 ≤ k < window_count 4 (size (data_ t)) →
              ∃ w, windows !! Z.to_nat (first + k) = Some w
                   ∧ id_ w = Z.of_nat j ∧ rank_ w = k.
Proof.
  apply (build_windows_layout 4 (1 # 4) kNGS two_targets);
    [lia|done|done| |simpl; lia].
  repeat constructor; vm_compute; done.
Defined.

Lemma polish_default_bodies_witness :
  data_ <$> (polish kC 0 false keep_window pair_alignment ratio_to_string
               (sample_polisher
                  [sample_window 0 0 "AC"; sample_window 0 1 "GT";
                   sample_window 1 0 "TT"])
               [] false).2
  = ["ACGT"; "TT"]%string.
Proof.
  destruct (polish_default_bodies kC 0 false keep_window pair_alignment
              ratio_to_string
              (sample_polisher
                 [sample_window 0 0 "AC"; sample_window 0 1 "GT";
                  sample_window 1 0 "TT"]) [])
    as (emitted & -> & Hd & _); [done|simpl; lia|].
  simpl. rewrite Hd. by vm_compute.
Defined.

Definition unpolished_window (w : Window) (_ : bool) : Window * bool :=
  (w, false).

Lemma polish_drops_unpolished_witness :
  (polish kC (1 # 4) false unpolished_window pair_alignment ratio_to_string
     (sample_polisher
        [sample_window 0 0 "AAAAGGGG"; sample_window 0 1 "GGGGTTTT"])
     [] true).2 = [].
Proof.
  apply (polish_drops_unpolished kC (1 # 4) false unpolished_window
           pair_alignment ratio_to_string).
  by repeat constructor.
Defined.

(** An alignment whose only matching column is column 0. *)
Definition first_column_alignment (_ _ : string) : list string :=
  ["GA"; "GC"]%string.

Lemma stitch_without_match_witness :
  stitch (1 # 4) first_column_alignment (sample_window 0 0 "AAAAGGGG")
    (sample_window 0 1 "GGGGTTTT") false
  = "GGGGGGGG"%string.
Proof.
  rewrite (stitch_without_match (1 # 4) first_column_alignment
             (sample_window 0 0 "AAAAGGGG") (sample_window 0 1 "GGGGTTTT")
             false).
  - by vm_compute.
  - vm_compute. lia.
  - intros j Hj. assert (j = 1%nat) as -> by (vm_compute in Hj; lia).
    by vm_compute.
Defined.

Lemma shrinkToFit_idempotent_witness :
  let src := [Some 1%nat; None; Some 2%nat; None] in
  shrinkToFit (shrinkToFit src 1).1 1 = ((shrinkToFit src 1).1, 0)
  ∧ Z.of_nat (length (shrinkToFit src 1).1) = 4 - (shrinkToFit src 1).2.
Proof.
  intros src.
  destruct (shrinkToFit_idempotent src 1) as (_ & Hlen & Hagain);
    [simpl; lia|simpl; lia|].
  split; [exact Hagain|exact Hlen].
Defined.

Lemma quality_filter_by_bases_witness :
  low_quality 10 (sample_fragments [(0, 0); (20, 20)])
    (read_with_quality "IIIIIIIIIIIIIIIIIIII") 0 = false
  ∧ low_quality 10 (sample_fragments [(0, 0); (20, 20)])
      (read_with_quality "!!!!!!!!!!!!!!!!!!!!") 0 = true.
Proof.
  split.
  - apply (quality_filter_by_bases 10 (sample_fragments [(0, 0); (20, 20)])
             (read_with_quality "IIIIIIIIIIIIIIIIIIII") 0).
    + simpl. lia.
    + simpl. lia.
    + intros k Hk. simpl in Hk.
      do 20 (destruct k as [|k]; [by vm_compute|]). lia.
  - apply (quality_filter_by_bases 10 (sample_fragments [(0, 0); (20, 20)])
             (read_with_quality "!!!!!!!!!!!!!!!!!!!!") 0).
    + simpl. lia.
    + simpl. lia.
    + intros k Hk. simpl in Hk.
      do 20 (destruct k as [|k]; [by vm_compute|]). lia.
    + by left.
Defined.

Definition loaded_sample : loader :=
  match load_sequences [target_x] [[query_x_same_length; query_y]] with
  | Done st => st
  | _ => register_targets []
  end.

Lemma loaded_sequences_indexed_witness :
  id_to_id loaded_sample !! target_key 0 = Some 0
  ∧ id_to_id loaded_sample !! sequence_key 0 = Some 0
  ∧ id_to_id loaded_sample !! sequence_key 1 = Some 1
  ∧ sequences_ loaded_sample !! 1%nat = Some (Some query_y).
Proof.
  destruct (loaded_sequences_indexed [target_x]
              [[query_x_same_length; query_y]] loaded_sample)
    as [Ht Hq]; [simpl; lia|by vm_compute|].
  destruct (Ht 0%nat target_x eq_refl) as [Ht0 _].
  destruct (Hq 0%nat query_x_same_length eq_refl)
    as (id0 & s0 & Hid0 & _ & _ & _ & _ & Hdup).
  destruct (Hq 1%nat query_y eq_refl)
    as (id1 & s1 & Hid1 & Hs1 & _ & _ & Hquery & _).
  destruct Hquery as [-> ->]; [by vm_compute|].
  split; [exact Ht0|]. split; [|split; [exact Hid1|exact Hs1]].
  specialize (Hdup ltac:(by vm_compute)). rewrite Hid0. f_equal.
  vm_compute in Hid0. by injection Hid0 as <-.
Defined.

Lemma remove_invalid_overlaps_frame_witness :
  let ov := [Some (sample_overlap 2 0 500 0);
             Some (sample_overlap 2 1 800 (9 # 10));
             Some (sample_overlap 2 3 700 0)] in
  let ov' := remove_invalid_overlaps kC (3 # 10) ov 0 3 in
  length ov' = 3%nat
  ∧ ∀ k o, (0 ≤ k < 3)%nat → ov' !! k = Some (Some o) →
      (error_ o <= 3 # 10)%Q ∧ q_id_ o ≠ t_id_ o.
Proof.
  intros ov ov'.
  destruct (remove_invalid_overlaps_frame kC (3 # 10) ov 0 3)
    as (Hlen & _ & _ & Hpass & _); [lia|].
  split; [exact Hlen|exact Hpass].
Defined.

Lemma failing_overlap_removes_shorter_witness :
  let ov := [Some (sample_overlap 2 0 500 0);
             Some (sample_overlap 2 1 800 (9 # 10))] in
  passes_filters (3 # 10) (sample_overlap 2 0 500 0) = true
  ∧ remove_invalid_overlaps kC (3 # 10) ov 0 2 !! 0%nat = Some None
  ∧ remove_invalid_overlaps kC (3 # 10) ov 0 2 !! 1%nat = Some None.
Proof.
  intros ov.
  pose proof (failing_overlap_removes_shorter kC (3 # 10) ov 0 2 1
                (sample_overlap 2 1 800 (9 # 10)) eq_refl ltac:(lia) eq_refl
                eq_refl) as H.
  assert (Hlen : ∀ (k : nat) ok, (0 ≤ k < 1)%nat →
            ov !! k = Some (Some ok) → length_ ok ≤ 800).
  { intros [|k] ok Hk Hok; [|lia]. injection Hok as <-. simpl. lia. }
  split; [by vm_compute|].
  split; apply (H Hlen); lia.
Defined.

Lemma last_target_of_a_name_witness :
  names_target [createSequence "x" "ACGT"; createSequence "x" "TTTTT"]
    (createSequence "x" "GG") = Some 1.
Proof.
  apply (last_target_of_a_name
           [createSequence "x" "ACGT"; createSequence "x" "TTTTT"] 1
           (createSequence "x" "TTTTT") (createSequence "x" "GG"));
    [done| |done].
  intros [|[|k]] t' Hk Ht'; try lia. done.
Defined.

Definition initialize_sample :
  outcome (Polisher * string * list logger_call) :=
  initialize kC 4 (1 # 4) 10 (3 # 10) keep_overlap keep_breaking_points
    keep_sequence (sample_polisher [])
    [createSequence "t" "ACGTACGT"] [[createSequence "q" "ACGT"]]
    [[sample_overlap 1 0 4 0]].

Definition initialized_sample : Polisher :=
  match initialize_sample with
  | Done (p, _, _) => p
  | _ => sample_polisher []
  end.

Definition initialize_sample_calls : list logger_call :=
  match initialize_sample with
  | Done (_, _, calls) => calls
  | _ => []
  end.

Lemma initialize_result_witness :
  initialize_sample
  = Done (initialized_sample, ""%string, initialize_sample_calls)
  ∧ length (windows_ initialized_sample) = 2%nat
  ∧ targets_coverages_ initialized_sample !! 0%nat = Some 4.
Proof.
  assert (Hrun : initialize_sample
                 = Done (initialized_sample, ""%string,
                         initialize_sample_calls))
    by (by vm_compute).
  split; [exact Hrun|].
  destruct (initialize_result kC 4 (1 # 4) 10 (3 # 10) keep_overlap
              keep_breaking_points keep_sequence (sample_polisher [])
              initialized_sample "" initialize_sample_calls
              [createSequence "t" "ACGTACGT"]
              [[createSequence "q" "ACGT"]] [[sample_overlap 1 0 4 0]]
              eq_refl Hrun)
    as (st & r & windows & ids & _ & Hr & Hb & _ & Hwin & _ & Hcov).
  split.
  - apply Forall2_length in Hwin. rewrite <- Hwin.
    vm_compute in Hb. by injection Hb as <- _.
  - rewrite (Hcov 0%nat ltac:(simpl; lia)).
    vm_compute in Hr. injection Hr as <-. by vm_compute.
Defined.


Lemma normalized_overlaps_accepted_witness :
  let chunk := [sample_overlap 2 0 500 0; sample_overlap 2 1 800 (9 # 10);
                sample_overlap 2 3 700 0] in
  omap id (overlaps_ (normalize_chunks kF (3 # 10) id [chunk]
                        empty_normalizer))
  = [sample_overlap 2 0 500 0; sample_overlap 2 3 700 0].
Proof.
  intros chunk.
  destruct (normalized_overlaps_accepted kF (3 # 10) id chunk
              empty_normalizer eq_refl eq_refl) as (_ & _ & Hexact).
  rewrite (Hexact eq_refl). by vm_compute.
Defined.

Lemma window_loop_legacy_witness :
  window_loop 4 0 10 kNGS 0 10 false 0 0 []
  = legacy_window_loop 4 10 kNGS 0 10 false 0 0 [].
Proof. apply (window_loop_legacy 4 0 10 kNGS 0 10 false 0 0 []); [done|lia]. Defined.

Lemma legacy_parsers_kept_witness :
  sequence_parser "reads.fa" = Some FastaParser
  ∧ overlap_parser "reads.to.target.paf" = Some PafParser.
Proof.
  destruct (legacy_parsers_kept "reads.fa") as [Hs _].
  destruct (legacy_parsers_kept "reads.to.target.paf") as [_ Ho].
  split; [by apply Hs|by apply Ho].
Defined.

